(** * Smart Title plugin: a shallow embedding of its selection and
      summarisation pipeline, with the properties of its specification.

    Sources embedded here:
    - [index.ts]: [extractTextOnly], [extractSmartContext], [truncate],
      [formatContextForTitle], [cleanTitle], [generateTitleFromContext],
      [updateSessionTitle], [isSubagentSession] and the [event] handler of
      [SmartTitlePlugin];
    - [lib/model-selector.ts]: [selectModel], [FALLBACK_MODELS],
      [PROVIDER_PRIORITY].

    The file has three parts: JavaScript strings, the pure functions over
    them, and the effectful code written in a small monad that threads the
    state of the outside world, records every collaborator call and carries
    thrown errors. *)

From Stdlib Require Import ZArith NArith Ascii String List Bool Lia Sorted.
From stdpp Require Import base tactics option list gmap.

Local Open Scope Z_scope.

(* ===================================================================== *)
(** * JavaScript strings *)
(* ===================================================================== *)

(** A JavaScript string is a sequence of UTF-16 code units; [length],
    [substring], [split] and the regular expressions of the source (none has
    the [u] flag) all count and cut in code units. *)
Module JS.

Abbreviation jsstring := (list N).

(** Literals of the source, all of them ASCII. *)
Definition lit (s : string) : jsstring :=
  map N_of_ascii (list_ascii_of_string s).

(** [s.length], as a JavaScript number. *)
Definition len (s : jsstring) : Z := Z.of_nat (length s).

(** White space and line terminators of ECMAScript: what [trim] strips and
    what the class [\s] matches. *)
Definition is_ws (c : N) : bool :=
  ((9 <=? c) && (c <=? 13) ||
   (c =? 32) || (c =? 160) || (c =? 5760) ||
   (8192 <=? c) && (c <=? 8202) ||
   (c =? 8232) || (c =? 8233) || (c =? 8239) || (c =? 8287) ||
   (c =? 12288) || (c =? 65279))%N.

Fixpoint drop_ws (s : jsstring) : jsstring :=
  match s with
  | c :: s' => if is_ws c then drop_ws s' else s
  | [] => []
  end.

(** [s.trim()] *)
Definition trim (s : jsstring) : jsstring :=
  rev (drop_ws (rev (drop_ws s))).

(** [s.startsWith(p)] *)
Fixpoint starts_with (p s : jsstring) : bool :=
  match p, s with
  | [], _ => true
  | a :: p', b :: s' => (a =? b)%N && starts_with p' s'
  | _ :: _, [] => false
  end.

(** [s.indexOf(p)], [None] for -1. *)
Fixpoint index_of (p s : jsstring) : option nat :=
  if starts_with p s then Some 0%nat
  else match s with
       | [] => None
       | _ :: s' => S <$> index_of p s'
       end.

(** [s.split(sep)] for a separator of one code unit: the result is never
    empty, and the empty string gives one empty segment. *)
Fixpoint split (sep : N) (s : jsstring) : list jsstring :=
  match s with
  | [] => [[]]
  | c :: s' =>
      if (c =? sep)%N then [] :: split sep s'
      else match split sep s' with
           | seg :: segs => (c :: seg) :: segs
           | [] => [[c]]
           end
  end.

(** [parts.join(sep)] *)
Fixpoint join (sep : jsstring) (parts : list jsstring) : jsstring :=
  match parts with
  | [] => []
  | [p] => p
  | p :: rest => p ++ sep ++ join sep rest
  end.

(** [s.substring(0, n)] for a number [n] that is an integer: negative [n]
    counts as 0, and [n] beyond the length as the length. *)
Definition substring0 (s : jsstring) (n : Z) : jsstring :=
  take (Z.to_nat n) s.

(** [a.slice(start)] on an array, for an integer [start]: a negative start
    counts from the end and is clamped at 0. *)
Definition slice_from {A} (start : Z) (a : list A) : list A :=
  let n := Z.of_nat (length a) in
  let k := if start <? 0 then Z.max (n + start) 0 else Z.min start n in
  drop (Z.to_nat k) a.

(** Number of positions at which [p] occurs in [s]. *)
Fixpoint occurrences (p s : jsstring) : nat :=
  match s with
  | [] => 0%nat
  | _ :: s' => ((if starts_with p s then 1 else 0) + occurrences p s')%nat
  end.

(** [x || d] on a string that may be [undefined]: the empty string is falsy
    too. *)
Definition or_else (x : option jsstring) (d : jsstring) : jsstring :=
  match x with
  | Some [] | None => d
  | Some s => s
  end.

Definition LF : N := 10.
Definition SLASH : N := 47.

End JS.

Import JS.

(* ===================================================================== *)
(** * TitleSanitizer: [cleanTitle] *)
(* ===================================================================== *)

Definition THINK_OPEN : jsstring := lit "<think>".
Definition THINK_CLOSE : jsstring := lit "</think>".

(** Length of white-space run at the start of [s]: the greedy [\s*]. *)
Fixpoint ws_run (s : jsstring) : nat :=
  match s with
  | c :: s' => if is_ws c then S (ws_run s') else 0%nat
  | [] => 0%nat
  end.

(** The regular expression [/<think>[\s\S]*?<\/think>\s*/] tried at the start
    of [s]: the length of its match there, if it matches. The lazy
    [[\s\S]*?] stops at the nearest end marker, the greedy [\s*] takes the
    whole run of white space behind it. *)
Definition think_match (s : jsstring) : option nat :=
  if starts_with THINK_OPEN s then
    match index_of THINK_CLOSE (drop 7 s) with
    | Some k => Some (7 + k + 8 + ws_run (drop (7 + k + 8) s))%nat
    | None => None
    end
  else None.

(** [s.replace(re, "")] for a global [re] whose matches are never empty:
    scan from the left; where the expression matches, skip the match and
    go on behind it; elsewhere keep the code unit. [skip] counts the code
    units of the current match still to be dropped. *)
Fixpoint replace_go (re : jsstring -> option nat) (skip : nat) (s : jsstring)
  : jsstring :=
  match s with
  | [] => []
  | c :: s' =>
      match skip with
      | S k => replace_go re k s'
      | O => match re s with
             | Some (S k) => replace_go re k s'
             | _ => c :: replace_go re 0 s'
             end
      end
  end.

Definition remove_think (raw : jsstring) : jsstring :=
  replace_go think_match 0 raw.

Definition UNTITLED : jsstring := lit "Untitled".
Definition ELLIPSIS : jsstring := lit "...".

(** [lines.find(line => line.length > 0)] *)
Definition find_nonempty (lines : list jsstring) : option jsstring :=
  List.find (fun line => 0 <? len line) lines.

Definition cleanTitle (raw : jsstring) : jsstring :=
  let cleaned := remove_think raw in
  let lines := map trim (split LF cleaned) in
  let cleaned := or_else (find_nonempty lines) UNTITLED in
  if 100 <? len cleaned
  then substring0 cleaned 97 ++ ELLIPSIS
  else cleaned.

(* ===================================================================== *)
(** * Data model of [index.ts] *)
(* ===================================================================== *)

Inductive Role := user | assistant | system.

#[global] Instance Role_eq_dec : EqDecision Role.
Proof. solve_decision. Defined.

Record MessagePart := {
  part_type : jsstring;
  part_text : option jsstring;      (* [text?] *)
  part_synthetic : bool             (* [synthetic?], absent counts as false *)
}.

(** Of [Message.info] the code reads [role] and [time.created] only. *)
Record Message := {
  msg_id : jsstring;
  msg_role : Role;
  msg_created : Z;
  msg_parts : list MessagePart
}.

Record AssistantSummary := {
  first : jsstring;
  last : jsstring;
  time : Z
}.

Record ConversationTurn := {
  user_text : jsstring;
  user_time : Z;
  turn_assistant : option AssistantSummary     (* [assistant?] *)
}.

(* ===================================================================== *)
(** * ContextExtractor *)
(* ===================================================================== *)

Definition extractTextOnly (parts : list MessagePart) : jsstring :=
  let textParts :=
    filter (fun part => part_type part = lit "text" ∧ part_synthetic part = false)
           parts in
  trim (join [LF] (map (fun part => or_else (part_text part) []) textParts)).

(** The three variables of the loop of [extractSmartContext]. *)
Record Grouping := {
  turns : list ConversationTurn;
  currentTurn : option ConversationTurn;
  assistantMessagesInTurn : list (jsstring * Z)
}.

(** The summary assigned to [currentTurn.assistant]: texts of
    [assistantMessagesInTurn[0]] and of its last element, time of the
    first. Only called on a non-empty array. *)
Definition summarise (ams : list (jsstring * Z)) : option AssistantSummary :=
  match ams with
  | a :: _ =>
      Some {| first := a.1; last := (List.last ams a).1; time := a.2 |}
  | [] => None
  end.

Definition with_assistant (t : ConversationTurn) (ams : list (jsstring * Z))
  : ConversationTurn :=
  {| user_text := user_text t; user_time := user_time t;
     turn_assistant := summarise ams |}.

(** One iteration of [for (const msg of conversationMessages)]. *)
Definition group_step (g : Grouping) (msg : Message) : Grouping :=
  match msg_role msg with
  | user =>
      let turns' :=
        match currentTurn g with
        | Some t =>
            if (0 <? length (assistantMessagesInTurn g))%nat
            then turns g ++ [with_assistant t (assistantMessagesInTurn g)]
            else turns g
        | None => turns g
        end in
      {| turns := turns';
         currentTurn := Some {| user_text := extractTextOnly (msg_parts msg);
                                user_time := msg_created msg;
                                turn_assistant := None |};
         assistantMessagesInTurn := [] |}
  | assistant =>
      let assistantText := extractTextOnly (msg_parts msg) in
      if 0 <? len assistantText
      then {| turns := turns g;
              currentTurn := currentTurn g;
              assistantMessagesInTurn :=
                assistantMessagesInTurn g ++ [(assistantText, msg_created msg)] |}
      else g
  | system => g
  end.

(** After the loop: the last turn is pushed whether or not it has an
    assistant response. *)
Definition group_finish (g : Grouping) : list ConversationTurn :=
  match currentTurn g with
  | Some t =>
      if (0 <? length (assistantMessagesInTurn g))%nat
      then turns g ++ [with_assistant t (assistantMessagesInTurn g)]
      else turns g ++ [t]
  | None => turns g
  end.

(** [extractSmartContext] behind the retrieval of the messages. *)
Definition extractTurns (messages : list Message) : list ConversationTurn :=
  let conversationMessages :=
    filter (fun msg => msg_role msg = user ∨ msg_role msg = assistant) messages in
  group_finish
    (fold_left group_step conversationMessages
       {| turns := []; currentTurn := None; assistantMessagesInTurn := [] |}).

(* ===================================================================== *)
(** * ContextFormatter *)
(* ===================================================================== *)

Definition truncate (text : jsstring) (maxLength : Z) : jsstring :=
  if len text <=? maxLength then text
  else substring0 text maxLength ++ ELLIPSIS.

Definition USER_PREFIX : jsstring := lit "User: ".

(** The body of [for (const turn of recentTurns)]: the lines it pushes. *)
Definition format_turn (maxCharsPerMessage : Z) (formatted : list jsstring)
    (turn : ConversationTurn) : list jsstring :=
  let userText := truncate (user_text turn) maxCharsPerMessage in
  let formatted := formatted ++ [USER_PREFIX ++ userText] in
  let formatted := formatted ++ [[]] in
  match turn_assistant turn with
  | Some a =>
      let formatted :=
        if bool_decide (first a = last a)
        then formatted ++ [lit "Assistant: " ++ truncate (first a) maxCharsPerMessage]
        else
          let firstText := truncate (first a) maxCharsPerMessage in
          let lastText := truncate (last a) maxCharsPerMessage in
          (formatted ++ [lit "Assistant (initial): " ++ firstText])
            ++ [lit "Assistant (final): " ++ lastText] in
      formatted ++ [[]]
  | None => formatted
  end.

(** The array [formatted] at the end of [formatContextForTitle]. *)
Definition formatted_lines (turns : list ConversationTurn)
    (maxTurns maxCharsPerMessage : Z) : list jsstring :=
  let recentTurns := slice_from (- maxTurns) turns in
  fold_left (format_turn maxCharsPerMessage) recentTurns [].

Definition formatContextForTitle (turns : list ConversationTurn)
    (maxTurns maxCharsPerMessage : Z) : jsstring :=
  join [LF] (formatted_lines turns maxTurns maxCharsPerMessage).

(* ===================================================================== *)
(** * ModelSelector: data of [lib/model-selector.ts] *)
(* ===================================================================== *)

Record ModelInfo := {
  providerID : jsstring;
  modelID : jsstring
}.

Inductive Source := config | fallback.

Definition FALLBACK_MODELS : list (jsstring * jsstring) :=
  [ (lit "openai", lit "gpt-5-mini");
    (lit "anthropic", lit "claude-haiku-4-5");
    (lit "google", lit "gemini-2.5-flash");
    (lit "deepseek", lit "deepseek-chat");
    (lit "xai", lit "grok-4-fast");
    (lit "alibaba", lit "qwen3-coder-flash");
    (lit "zai", lit "glm-4.5-flash");
    (lit "opencode", lit "big-pickle") ].

Definition PROVIDER_PRIORITY : list jsstring :=
  [ lit "openai"; lit "anthropic"; lit "google"; lit "deepseek";
    lit "xai"; lit "alibaba"; lit "zai"; lit "opencode" ].

(** [table[key]] on a record of strings, read for its truth value: a
    missing key and an empty string are both falsy. *)
Fixpoint record_get (table : list (jsstring * jsstring)) (key : jsstring)
  : option jsstring :=
  match table with
  | [] => None
  | (k, v) :: rest =>
      if bool_decide (k = key)
      then match v with [] => None | _ => Some v end
      else record_get rest key
  end.

(** The test on the configured string at the head of [selectModel]:
    [configModel] is truthy, and [configModel.split('/')] has exactly two
    parts, which are then the provider and the model. Everything else takes
    the "Invalid config model format" branch (or skips the block). *)
Definition configured_ref (configModel : option jsstring) : option ModelInfo :=
  match configModel with
  | None | Some [] => None
  | Some s =>
      match split SLASH s with
      | [p; m] => Some {| providerID := p; modelID := m |}
      | _ => None
      end
  end.

(* ===================================================================== *)
(** * Effects: the outside world, the calls made, the errors thrown *)
(* ===================================================================== *)

Inductive Error :=
  | NoAvailableModels     (* the [throw new Error(...)] that ends [selectModel] *)
  | Rejected              (* a collaborator call failed *)
  | TypeError.            (* a property read or a method call on [undefined] *)

Inductive Event :=
  | SessionIdle (sessionID : jsstring)   (* [session.status] with status idle *)
  | OtherEvent.

(** Values of the plugin configuration read by [index.ts]. *)
Record PluginConfig := {
  cfg_model : option jsstring;
  cfg_updateThreshold : Z;
  cfg_maxTurns : Z;
  cfg_maxCharsPerMessage : Z
}.

Section Effects.

(** [World] is the state of everything outside the plugin: the host, the
    providers, the network. [Handle] is the type of language models. *)
Context {World Handle : Type}.

Record ModelSelectionResult := {
  model : Handle;
  modelInfo : ModelInfo;
  source : Source;
  reason : option jsstring;
  failedModel : option ModelInfo
}.

(** The collaborators. Each one takes the world and gives its answer and
    the world after the call. An answer [None] (or [false]) is a rejected
    promise or a thrown exception. *)
Record Client := {
  (* [opencodeAI.getLanguageModel(providerID, modelID)] *)
  getLanguageModel : jsstring -> jsstring -> World -> option Handle * World;
  (* [opencodeAI.listProviders()]: the keys of the object it returns, each
     with an object as its value. The call may fail like any other, and the
     selector has no handler around it. *)
  listProviders : World -> option (gset jsstring) * World;
  (* [client.session.get]: [result.data?.parentID], when the call returns *)
  session_get : jsstring -> World -> option (option jsstring) * World;
  (* [client.session.messages]: [data], when it is an array *)
  session_messages : jsstring -> World -> option (list Message) * World;
  (* [client.session.update] *)
  session_update : jsstring -> jsstring -> World -> bool * World;
  (* [client.tui.showToast], given its message *)
  showToast : jsstring -> World -> bool * World;
  (* [generateText] of the [ai] package: [result.text], when it returns;
     the inner [None] is a result without a text *)
  generateText : Handle -> jsstring -> World -> option (option jsstring) * World
}.

(** What a collaborator was asked to do. *)
Inductive Call :=
  | GetLanguageModel (providerID modelID : jsstring)
  | ListProviders
  | SessionGet (id : jsstring)
  | SessionMessages (id : jsstring)
  | SessionUpdate (id title : jsstring)
  | ShowToast (message : jsstring)
  | GenerateText (model : Handle) (content : jsstring).

(** The mutable state: the world, and the module-level map
    [sessionIdleCount]. *)
Record State := {
  world : World;
  sessionIdleCount : gmap jsstring Z
}.

(** A computation: from a state to a value or a thrown error, the state
    reached, and the calls made on the way, oldest first, each with its
    outcome: [true] for a call that returned, [false] for one that failed. *)
Definition M (A : Type) : Type :=
  State -> (Error + A) * State * list (Call * bool).

Definition ret {A} (a : A) : M A := fun st => (inr a, st, []).

Definition throw {A} (e : Error) : M A := fun st => (inl e, st, []).

Definition bind {A B} (m : M A) (k : A -> M B) : M B :=
  fun st =>
    match m st with
    | (inr a, st1, t1) =>
        match k a st1 with
        | (r, st2, t2) => (r, st2, t1 ++ t2)
        end
    | (inl e, st1, t1) => (inl e, st1, t1)
    end.

(** [try { m } catch (error) { h error }] *)
Definition try_catch {A} (m : M A) (h : Error -> M A) : M A :=
  fun st =>
    match m st with
    | (inl e, st1, t1) =>
        match h e st1 with
        | (r, st2, t2) => (r, st2, t1 ++ t2)
        end
    | ok => ok
    end.

(** An awaited collaborator call that may reject. *)
Definition await {A} (c : Call) (f : World -> option A * World) : M A :=
  fun st =>
    match f (world st) with
    | (r, w) =>
        (match r with Some a => inr a | None => inl Rejected end,
         {| world := w; sessionIdleCount := sessionIdleCount st |},
         [(c, match r with Some _ => true | None => false end)])
    end.

(** A call whose promise resolves to nothing: [true] for fulfilled. *)
Definition await_unit (c : Call) (f : World -> bool * World) : M unit :=
  await c (fun w => let (ok, w') := f w in
                    ((if ok then Some tt else None), w')).

Definition get_counts : M (gmap jsstring Z) :=
  fun st => (inr (sessionIdleCount st), st, []).

Definition set_count (sessionId : jsstring) (n : Z) : M unit :=
  fun st => (inr tt,
             {| world := world st;
                sessionIdleCount := <[sessionId := n]> (sessionIdleCount st) |},
             []).

End Effects.

Arguments ModelSelectionResult : clear implicits.
Arguments Client : clear implicits.
Arguments Call : clear implicits.
Arguments State : clear implicits.
Arguments M : clear implicits.

#[global] Instance M_ret {World Handle} : MRet (M World Handle) :=
  fun A => ret.
#[global] Instance M_bind {World Handle} : MBind (M World Handle) :=
  fun A B k m => bind m k.

(* ===================================================================== *)
(** * ModelSelector: [selectModel] *)
(* ===================================================================== *)

Section Plugin.

Context {World Handle : Type}.
Variable client : Client World Handle.

(** The constant of [prompt.ts]. *)
Variable TITLE_PROMPT : jsstring.

Local Abbreviation M := (M World Handle).
Local Abbreviation Call := (Call Handle).
Local Abbreviation ModelSelectionResult := (ModelSelectionResult Handle).

Definition resolve (providerID modelID : jsstring) : M Handle :=
  await (GetLanguageModel providerID modelID)
        (getLanguageModel client providerID modelID).

(** The block [if (configModel) { ... }]: either the result returned from
    inside it, or the value of [failedModelInfo] behind it. *)
Definition try_configured (configModel : option jsstring)
  : M (ModelSelectionResult + option ModelInfo) :=
  match configured_ref configModel with
  | None => mret (inr None)
  | Some ref =>
      try_catch
        (model ← resolve (providerID ref) (modelID ref);
         mret (inl {| model := model;
                      modelInfo := ref;
                      source := config;
                      reason := Some (lit "Using model specified in smart-title.jsonc config");
                      failedModel := None |}))
        (fun _ => mret (inr (Some ref)))
  end.

(** [for (const providerID of priority) { ... }] and the [throw] behind
    it. *)
Fixpoint fallback_loop (providers : gset jsstring)
    (failedModelInfo : option ModelInfo) (priority : list jsstring)
  : M ModelSelectionResult :=
  match priority with
  | [] => throw NoAvailableModels
  | providerID :: rest =>
      if negb (bool_decide (providerID ∈ providers))
      then fallback_loop providers failedModelInfo rest
      else
        match record_get FALLBACK_MODELS providerID with
        | None => fallback_loop providers failedModelInfo rest
        | Some fallbackModelID =>
            attempt ← try_catch (model ← resolve providerID fallbackModelID;
                                 mret (Some model))
                                (fun _ => mret None);
            match attempt with
            | Some model =>
                mret {| model := model;
                        modelInfo := {| providerID := providerID;
                                        modelID := fallbackModelID |};
                        source := fallback;
                        reason := Some (lit "Using " ++ providerID ++ [SLASH]
                                          ++ fallbackModelID);
                        failedModel := failedModelInfo |}
            | None => fallback_loop providers failedModelInfo rest
            end
        end
  end.

(** [selectModel]. Its first two statements, the dynamic import of the
    provider package and [new OpencodeAI()], load code and call no
    collaborator: they are not part of the model. *)
Definition selectModel (configModel : option jsstring)
  : M ModelSelectionResult :=
  configured ← try_configured configModel;
  match configured with
  | inl result => mret result
  | inr failedModelInfo =>
      providers ← await ListProviders (listProviders client);
      fallback_loop providers failedModelInfo PROVIDER_PRIORITY
  end.

(* ===================================================================== *)
(** * UpdateCoordinator: the pipeline and the event handler of [index.ts] *)
(* ===================================================================== *)

Definition isSubagentSession (sessionID : jsstring) : M bool :=
  try_catch
    (parentID ← await (SessionGet sessionID) (session_get client sessionID);
     match parentID with
     | Some (_ :: _) => mret true
     | _ => mret false
     end)
    (fun _ => mret false).

Definition extractSmartContext (sessionId : jsstring)
  : M (list ConversationTurn) :=
  messages ← await (SessionMessages sessionId) (session_messages client sessionId);
  mret (extractTurns messages).

Definition toast_message (failed selected : ModelInfo) : jsstring :=
  providerID failed ++ [SLASH] ++ modelID failed ++ lit " failed" ++ [LF]
    ++ lit "Using " ++ providerID selected ++ [SLASH] ++ modelID selected.

Definition title_request (context : jsstring) : jsstring :=
  TITLE_PROMPT ++ [LF; LF] ++ lit "<conversation>" ++ [LF] ++ context ++ [LF]
    ++ lit "</conversation>" ++ [LF; LF] ++ lit "Output the title now:".

(** [cleanTitle(result.text)]: [raw.replace] on an [undefined] text throws. *)
Definition clean_result_text (text : option jsstring) : M jsstring :=
  match text with
  | Some raw => mret (cleanTitle raw)
  | None => throw TypeError
  end.

(** The block [if (failedModel) { try { showToast } catch { } }]. *)
Definition notify_fallback (selected : ModelSelectionResult) : M unit :=
  match failedModel selected with
  | Some failed =>
      try_catch
        (await_unit (ShowToast (toast_message failed (modelInfo selected)))
                    (showToast client (toast_message failed (modelInfo selected))))
        (fun _ => mret tt)
  | None => mret tt
  end.

(** The call of [generateText] with the selected model. *)
Definition generate (selected : ModelSelectionResult) (context : jsstring)
  : M (option jsstring) :=
  await (GenerateText (model selected) (title_request context))
        (generateText client (model selected) (title_request context)).

(** The result [None] is the [null] returned from the [catch] block. *)
Definition generateTitleFromContext (context : jsstring)
    (configModel : option jsstring) : M (option jsstring) :=
  try_catch
    (selected ← selectModel configModel;
     notify_fallback selected;;
     text ← generate selected context;
     title ← clean_result_text text;
     mret (Some title))
    (fun _ => mret None).

Definition updateSessionTitle (sessionId : jsstring) (config : PluginConfig)
  : M unit :=
  try_catch
    (turns ← extractSmartContext sessionId;
     if (length (turns : list ConversationTurn) =? 0)%nat then mret tt
     else
       let context := formatContextForTitle turns (cfg_maxTurns config)
                        (cfg_maxCharsPerMessage config) in
       newTitle ← generateTitleFromContext context (cfg_model config);
       match newTitle with
       | None | Some [] => mret tt
       | Some title =>
           await_unit (SessionUpdate sessionId title)
                      (session_update client sessionId title)
       end)
    (fun _ => mret tt).

(** [sessionIdleCount.get(sessionId) || 0] *)
Definition count_or_zero (counts : gmap jsstring Z) (sessionId : jsstring) : Z :=
  match counts !! sessionId with
  | Some n => n
  | None => 0
  end.

(** The [event] hook returned by [SmartTitlePlugin]. The title update it
    starts is not awaited by the source; here it runs to its end before the
    handler is left, and its rejection goes to the [.catch] callback. *)
Definition event_handler (config : PluginConfig) (event : Event) : M unit :=
  match event with
  | SessionIdle sessionId =>
      subagent ← isSubagentSession sessionId;
      match subagent with
      | true => mret tt
      | false =>
          counts ← get_counts;
          let currentCount := count_or_zero counts sessionId + 1 in
          set_count sessionId currentCount;;
          if negb (Z.rem currentCount (cfg_updateThreshold config) =? 0)
          then mret tt
          else try_catch (updateSessionTitle sessionId config) (fun _ => mret tt)
      end
  | OtherEvent => mret tt
  end.

(** Events handled one after the other. *)
Fixpoint handle_all (config : PluginConfig) (events : list Event) : M unit :=
  match events with
  | [] => mret tt
  | event :: rest => event_handler config event;; handle_all config rest
  end.

End Plugin.

(* ===================================================================== *)
(** * The specification's reading of the sanitizer *)
(* ===================================================================== *)

(** A paired block tried at the start of [s], as the specification words
    it: the start marker through the matching (nearest) end marker,
    inclusive, and nothing more. *)
Definition block_match (s : jsstring) : option nat :=
  if starts_with THINK_OPEN s then
    match index_of THINK_CLOSE (drop 7 s) with
    | Some k => Some (7 + k + 8)%nat
    | None => None
    end
  else None.

(** [sanitize] as the specification states it: (1) remove every paired
    block, (2) first line whose trimmed length is not zero, else the
    placeholder, (3) cut to 97 code units and an ellipsis above 100. *)
Definition sanitize_spec (rawText : jsstring) : jsstring :=
  let remaining := replace_go block_match 0 rawText in
  let selected := or_else (find_nonempty (map trim (split LF remaining))) UNTITLED in
  if 100 <? len selected then take 97 selected ++ ELLIPSIS else selected.

(** [p] occurs in [s] at offset [j]. *)
Definition occurs_at (p s : jsstring) (j : nat) : Prop :=
  ∃ a b, s = a ++ p ++ b ∧ length a = j.

(** [s] has a paired block: a start marker with an end marker behind it. *)
Definition has_block (s : jsstring) : Prop :=
  ∃ a b c, s = a ++ THINK_OPEN ++ b ++ THINK_CLOSE ++ c.

(** [Removed s out]: [out] is [s] without its paired blocks and without the
    white space that directly follows each of them. Blocks are taken from
    the left: the first start marker of the text, up to the nearest end
    marker behind it, then all white space up to the first code unit that is
    none; what follows is treated the same way. Text without a paired block
    stays as it is. *)
Inductive Removed : jsstring -> jsstring -> Prop :=
  | Removed_none s :
      ¬ has_block s ->
      Removed s s
  | Removed_block pre body ws rest out :
      (∀ j, occurs_at THINK_OPEN (pre ++ THINK_OPEN) j -> j = length pre) ->
      (∀ j, occurs_at THINK_CLOSE (body ++ THINK_CLOSE) j -> j = length body) ->
      Forall (fun c => is_ws c = true) ws ->
      ws_run rest = 0%nat ->
      Removed rest out ->
      Removed (pre ++ THINK_OPEN ++ body ++ THINK_CLOSE ++ ws ++ rest)
              (pre ++ out).

(** [line] is the title line of [text]: the trimmed form of its first line
    that is not blank, or the placeholder when every line is blank. *)
Definition title_line (text line : jsstring) : Prop :=
  (∃ i l, split LF text !! i = Some l ∧ trim l ≠ [] ∧ line = trim l ∧
          ∀ j l', (j < i)%nat -> split LF text !! j = Some l' -> trim l' = [])
  ∨ ((∀ l, l ∈ split LF text -> trim l = []) ∧ line = UNTITLED).

(** A string that is empty or starts with a code unit that is no white
    space. *)
Definition head_ok (s : jsstring) : Prop :=
  match s with
  | [] => True
  | c :: _ => is_ws c = false
  end.

(** A turn none of whose texts holds the user prefix. *)
Definition prefix_free (turn : ConversationTurn) : Prop :=
  occurrences USER_PREFIX (user_text turn) = 0%nat
  ∧ match turn_assistant turn with
    | Some a => occurrences USER_PREFIX (first a) = 0%nat
                ∧ occurrences USER_PREFIX (last a) = 0%nat
    | None => True
    end.

(** How many of [lines] begin with the user prefix; for the lines of a
    text [out], it is applied to [split LF out]. *)
Definition user_lines (lines : list jsstring) : nat :=
  length (filter (fun l => starts_with USER_PREFIX l = true) lines).

(** The specification's truncation: a string longer than [maxChars] is cut
    to that length and the ellipsis marker is put behind it; a shorter
    string passes unchanged. *)
Definition truncate_spec (maxChars : Z) (text : jsstring) : jsstring :=
  if maxChars <? len text
  then take (Z.to_nat maxChars) text ++ lit "..."
  else text.

(** The lines the specification gives for one turn: the user line and a
    blank line; then, for a turn with an assistant summary, one assistant
    line when its first and last texts are equal and two otherwise, and a
    blank line. *)
Definition turn_lines_spec (maxChars : Z) (turn : ConversationTurn)
  : list jsstring :=
  [lit "User: " ++ truncate_spec maxChars (user_text turn); []]
  ++ match turn_assistant turn with
     | None => []
     | Some a =>
         (if bool_decide (first a = last a)
          then [lit "Assistant: " ++ truncate_spec maxChars (first a)]
          else [lit "Assistant (initial): " ++ truncate_spec maxChars (first a);
                lit "Assistant (final): " ++ truncate_spec maxChars (last a)])
         ++ [[]]
     end.

(** A turn without an assistant reply. *)
Definition user_turn (text : jsstring) (time : Z) : ConversationTurn :=
  {| user_text := text; user_time := time; turn_assistant := None |}.

(* ===================================================================== *)
(** * Observations on computations *)
(* ===================================================================== *)

Section Observations.

Context {World Handle : Type}.
Variable client : Client World Handle.
Variable TITLE_PROMPT : jsstring.

Local Abbreviation M := (M World Handle).
Local Abbreviation Call := (Call Handle).
Local Abbreviation State := (State World).

(** Every call made by [m] satisfies [P]. *)
Definition only {A} (P : Call -> Prop) (m : M A) : Prop :=
  ∀ st, Forall (fun e => P e.1) (m st).2.

(** [m] leaves the idle counters as they are. *)
Definition keeps_counts {A} (m : M A) : Prop :=
  ∀ st, sessionIdleCount (m st).1.2 = sessionIdleCount st.

(** [m] returns normally from every state. *)
Definition never_throws {A} (m : M A) : Prop :=
  ∀ st, ∃ a, (m st).1.1 = inr a.

Definition is_messages_call (sessionId : jsstring) (c : Call) : bool :=
  match c with
  | SessionMessages id => bool_decide (id = sessionId)
  | _ => false
  end.

Definition is_update_call (c : Call) : bool :=
  match c with
  | SessionUpdate _ _ => true
  | _ => false
  end.

(** How often the title-update pipeline was started for a session: it
    starts with the retrieval of the session's messages, and asks for them
    once. *)
Definition pipeline_runs (sessionId : jsstring) (t : list (Call * bool)) : nat :=
  length (filter (fun e => is_messages_call sessionId e.1 = true) t).

(** What [isSubagentSession] answers in a world. *)
Definition subagent_answer (sessionId : jsstring) (w : World) : bool :=
  match (session_get client sessionId w).1 with
  | Some (Some (_ :: _)) => true
  | _ => false
  end.

(** The parent lookup never reports a parent for the session. *)
Definition never_subagent (sessionId : jsstring) : Prop :=
  ∀ w, subagent_answer sessionId w = false.

(** The fallback candidates in the order of the walk: the providers of the
    priority list that are authenticated and have a default model, each
    with that model. *)
Fixpoint candidates (providers : gset jsstring) (priority : list jsstring)
  : list (jsstring * jsstring) :=
  match priority with
  | [] => []
  | p :: rest =>
      if bool_decide (p ∈ providers)
      then match record_get FALLBACK_MODELS p with
           | Some m => (p, m) :: candidates providers rest
           | None => candidates providers rest
           end
      else candidates providers rest
  end.

(** The trace entry of an attempt on a candidate with its outcome. *)
Definition attempt (ok : bool) (candidate : jsstring * jsstring) : Call * bool :=
  (GetLanguageModel candidate.1 candidate.2, ok).

(** The provider and model of a selection result, as a candidate. *)
Definition selected_candidate (result : ModelSelectionResult Handle)
  : jsstring * jsstring :=
  (providerID (modelInfo result), modelID (modelInfo result)).

(** The shape of a walk over [candidates] that ended with [outcome] and
    made the calls [t]: the candidates [tried] were attempted in order and
    failed; on success the next candidate was attempted and resolved, and
    the candidates [untried] behind it were left alone; on failure no
    candidate is left. *)
Definition walked (candidates : list (jsstring * jsstring))
    (failed : option ModelInfo)
    (outcome : Error + ModelSelectionResult Handle)
    (t : list (Call * bool)) : Prop :=
  ∃ tried untried,
    match outcome with
    | inr result =>
        candidates = tried ++ selected_candidate result :: untried
        ∧ t = map (attempt false) tried ++ [attempt true (selected_candidate result)]
        ∧ source result = fallback
        ∧ failedModel result = failed
    | inl e =>
        candidates = tried ∧ untried = []
        ∧ t = map (attempt false) tried
        ∧ e = NoAvailableModels
    end.

(** A stage of the pipeline of [updateSessionTitle] fails, from state
    [st]: the retrieval of the messages, the extraction (no turn at all),
    the selection of a model, the generation, or the sanitization (which
    has no text to work on). *)
Definition stage_failure (config : PluginConfig) (sessionId : jsstring)
    (st : State) : Prop :=
  match extractSmartContext client sessionId st with
  | (inl _, _, _) => True
  | (inr turns, st1, _) =>
      turns = [] ∨
      let context := formatContextForTitle turns (cfg_maxTurns config)
                       (cfg_maxCharsPerMessage config) in
      match selectModel client (cfg_model config) st1 with
      | (inl _, _, _) => True
      | (inr selected, st2, _) =>
          match (notify_fallback client selected;;
                 generate client TITLE_PROMPT selected context) st2 with
          | (inr (Some _), _, _) => False
          | _ => True
          end
      end
  end.

End Observations.

#[global] Instance Event_eq_dec : EqDecision Event.
Proof. solve_decision. Defined.

(** How many of the events are idle notifications for the session. *)
Definition idles (sessionId : jsstring) (events : list Event) : nat :=
  length (filter (fun e => e = SessionIdle sessionId) events).

(** The counters after the handler has dealt with an event: an idle
    notification of a session that is no sub-session adds one to the
    session's count. *)
Definition counts_after {World Handle} (client : Client World Handle)
    (event : Event) (st : State World) : gmap jsstring Z :=
  match event with
  | SessionIdle sessionId =>
      if subagent_answer client sessionId (world st)
      then sessionIdleCount st
      else <[sessionId := count_or_zero (sessionIdleCount st) sessionId + 1]>
             (sessionIdleCount st)
  | OtherEvent => sessionIdleCount st
  end.

(** ** Collaborators for the examples

    The world is the number of calls answered so far; a model handle is the
    reference it was resolved from. *)

Definition scripted_client
    (authenticated : list jsstring)
    (resolvable : jsstring -> jsstring -> nat -> bool)
    (parent : option jsstring)
    (messages : option (list Message))
    (generated : option (option jsstring))
  : Client nat ModelInfo :=
  {| getLanguageModel := fun p m w =>
       ((if resolvable p m w
         then Some {| providerID := p; modelID := m |} else None), S w);
     listProviders := fun w => (Some (list_to_set authenticated), S w);
     session_get := fun _ w => (Some parent, S w);
     session_messages := fun _ w => (messages, S w);
     session_update := fun _ _ w => (true, S w);
     showToast := fun _ w => (true, S w);
     generateText := fun _ _ w => (generated, S w) |}.

Definition example_config (threshold : Z) : PluginConfig :=
  {| cfg_model := None; cfg_updateThreshold := threshold;
     cfg_maxTurns := 10; cfg_maxCharsPerMessage := 500 |}.

Definition fresh_state : State nat :=
  {| world := 0%nat; sessionIdleCount := ∅ |}.

Definition text_part (text : jsstring) : MessagePart :=
  {| part_type := lit "text"; part_text := Some text; part_synthetic := false |}.

Definition user_message (text : jsstring) (created : Z) : Message :=
  {| msg_id := []; msg_role := user; msg_created := created;
     msg_parts := [text_part text] |}.

Definition assistant_message (text : jsstring) (created : Z) : Message :=
  {| msg_id := []; msg_role := assistant; msg_created := created;
     msg_parts := [text_part text] |}.

(** A host with one authenticated provider, a session with one user
    message, and a generation that answers. *)
Definition working_client (parent : option jsstring) : Client nat ModelInfo :=
  scripted_client [lit "openai"] (fun _ _ _ => true) parent
    (Some [user_message (lit "How do I fix this bug?") 1])
    (Some (Some (lit "Fixing bug"))).

(** The same client with a session lookup that always fails. *)
Definition lookup_failing_client : Client nat ModelInfo :=
  {| getLanguageModel := getLanguageModel (working_client None);
     listProviders := listProviders (working_client None);
     session_get := fun _ w => (None, S w);
     session_messages := session_messages (working_client None);
     session_update := session_update (working_client None);
     showToast := showToast (working_client None);
     generateText := generateText (working_client None) |}.

(** A client whose provider registry always fails; every model it is asked
    for resolves. *)
Definition registry_failing_client : Client nat ModelInfo :=
  {| getLanguageModel := getLanguageModel (working_client None);
     listProviders := fun w => (None, S w);
     session_get := session_get (working_client None);
     session_messages := session_messages (working_client None);
     session_update := session_update (working_client None);
     showToast := showToast (working_client None);
     generateText := generateText (working_client None) |}.

(** A state in which one session has been idle twice. *)
Definition seen_state : State nat :=
  {| world := 0%nat; sessionIdleCount := {[ lit "ses_1" := 2 ]} |}.

(* ===================================================================== *)
(** * Further observations on the pure functions *)
(* ===================================================================== *)

(** The assistant texts the extractor collects from a stretch of messages:
    the non-empty extracted texts of its assistant messages, each with the
    creation time of its message. *)
Definition collected (messages : list Message) : list (jsstring * Z) :=
  flat_map
    (fun msg =>
       match msg_role msg with
       | assistant =>
           if 0 <? len (extractTextOnly (msg_parts msg))
           then [(extractTextOnly (msg_parts msg), msg_created msg)]
           else []
       | _ => []
       end)
    messages.

(** Text and time of a turn's user message, and of a message. *)
Definition turn_key (turn : ConversationTurn) : jsstring * Z :=
  (user_text turn, user_time turn).

Definition message_key (msg : Message) : jsstring * Z :=
  (extractTextOnly (msg_parts msg), msg_created msg).

(** The user messages of a history, as keys. *)
Definition user_keys (messages : list Message) : list (jsstring * Z) :=
  map message_key (filter (fun msg => msg_role msg = user) messages).

(** The turn opened in a grouping, as a key. *)
Definition pending (g : Grouping) : list (jsstring * Z) :=
  match currentTurn g with
  | Some turn => [turn_key turn]
  | None => []
  end.

(** An assistant summary as the extractor builds it: texts that are not
    empty and have nothing to trim. *)
Definition summary_ok (turn : ConversationTurn) : Prop :=
  match turn_assistant turn with
  | Some a => first a ≠ [] ∧ last a ≠ []
              ∧ trim (first a) = first a ∧ trim (last a) = last a
  | None => True
  end.

(** What holds of a grouping all along the loop of the extractor: the
    turns pushed so far all have a summary, the summaries and the collected
    assistant texts are fine, and the open turn has no summary yet. *)
Definition grouping_ok (g : Grouping) : Prop :=
  Forall (fun turn => is_Some (turn_assistant turn) ∧ summary_ok turn) (turns g)
  ∧ Forall (fun a : jsstring * Z => a.1 ≠ [] ∧ trim a.1 = a.1)
           (assistantMessagesInTurn g)
  ∧ ∀ turn, currentTurn g = Some turn -> turn_assistant turn = None.

(** The size of the lines of [formatted] when joined: each line and the
    line feed behind it. *)
Definition weight (lines : list jsstring) : nat :=
  list_sum (map (fun l => S (length l)) lines).

(** A model that the resolution collaborator always resolves, and one it
    never resolves, whatever the state of the world. *)
Definition always_resolves {World Handle} (client : Client World Handle)
    (candidate : jsstring * jsstring) : Prop :=
  ∀ w, is_Some (getLanguageModel client candidate.1 candidate.2 w).1.

Definition never_resolves {World Handle} (client : Client World Handle)
    (candidate : jsstring * jsstring) : Prop :=
  ∀ w, (getLanguageModel client candidate.1 candidate.2 w).1 = None.

(* ===================================================================== *)
(** * Properties *)
(* ===================================================================== *)

(** ** JavaScript strings *)

Lemma len_nonneg s : 0 <= len s.
Proof. unfold len. lia. Qed.

Lemma starts_with_app p b : starts_with p (p ++ b) = true.
Proof.
  induction p as [|a p IH]; simpl; [done|].
  by rewrite N.eqb_refl, IH.
Qed.

Lemma starts_with_inv p s :
  starts_with p s = true -> ∃ b, s = p ++ b.
Proof.
  revert s. induction p as [|a p IH]; intros s H; simpl in *.
  - by exists s.
  - destruct s as [|c s]; [done|].
    apply andb_prop in H as [Hac Hps].
    apply N.eqb_eq in Hac as ->.
    destruct (IH _ Hps) as [b ->]. by exists b.
Qed.

Lemma starts_with_iff p s :
  starts_with p s = true <-> ∃ b, s = p ++ b.
Proof.
  split; [apply starts_with_inv|].
  intros [b ->]. apply starts_with_app.
Qed.

Lemma occurs_at_starts_with p s j :
  occurs_at p s j <-> (j <= length s)%nat ∧ starts_with p (drop j s) = true.
Proof.
  split.
  - intros (a & b & -> & <-). split.
    + rewrite length_app. lia.
    + rewrite drop_app_length. apply starts_with_app.
  - intros [Hj H]. apply starts_with_inv in H as [b Hb].
    exists (take j s), b. split.
    + by rewrite <- Hb, take_drop.
    + rewrite length_take. lia.
Qed.

(** [index_of] finds the first occurrence. *)
Lemma index_of_Some p s i :
  index_of p s = Some i ->
  occurs_at p s i ∧ ∀ j, occurs_at p s j -> (i <= j)%nat.
Proof.
  revert i. induction s as [|c s IH]; intros i; simpl.
  - destruct (starts_with p []) eqn:E; [|done].
    intros [= <-]. split; [|intros; lia].
    apply occurs_at_starts_with. by simpl.
  - destruct (starts_with p (c :: s)) eqn:E.
    + intros [= <-]. split; [|intros; lia].
      apply occurs_at_starts_with. simpl. split; [lia|done].
    + destruct (index_of p s) as [k|] eqn:Ek; [|done].
      simpl. intros [= <-]. destruct (IH k eq_refl) as [Hk Hmin]. split.
      * apply occurs_at_starts_with in Hk as [? ?].
        apply occurs_at_starts_with. simpl. split; [lia|done].
      * intros j Hj. apply occurs_at_starts_with in Hj as [Hj1 Hj2].
        destruct j as [|j]; [simpl in Hj2; congruence|].
        simpl in *. assert (k <= j)%nat; [|lia].
        apply Hmin, occurs_at_starts_with. split; [lia|done].
Qed.

Lemma index_of_None p s j :
  index_of p s = None -> ¬ occurs_at p s j.
Proof.
  revert j. induction s as [|c s IH]; intros j; simpl.
  - destruct (starts_with p []) eqn:E; [done|]. intros _ Hj.
    apply occurs_at_starts_with in Hj as [Hj1 Hj2]. simpl in Hj1.
    assert (j = 0%nat) as -> by lia. simpl in Hj2. congruence.
  - destruct (starts_with p (c :: s)) eqn:E; [done|].
    destruct (index_of p s) eqn:Ek; [done|]. intros _ Hj.
    apply occurs_at_starts_with in Hj as [Hj1 Hj2].
    destruct j as [|j]; [simpl in Hj2; congruence|].
    simpl in *. apply (IH j eq_refl), occurs_at_starts_with.
    split; [lia|done].
Qed.

Lemma occurs_at_suffix p a s j :
  occurs_at p s j -> occurs_at p (a ++ s) (length a + j).
Proof.
  intros (x & y & -> & <-). exists (a ++ x), y.
  split; [by rewrite <- app_assoc|by rewrite length_app].
Qed.

Lemma occurs_at_drop p s k j :
  (k <= j)%nat -> occurs_at p s j -> occurs_at p (drop k s) (j - k).
Proof.
  intros Hk (x & y & -> & <-). exists (drop k x), y. split.
  - rewrite drop_app_le by done. done.
  - rewrite length_drop. done.
Qed.

(** ** [trim] and [split] *)

Lemma drop_ws_head_ok s : head_ok (drop_ws s).
Proof.
  induction s as [|c s IH]; simpl; [done|].
  destruct (is_ws c) eqn:E; [done|]. simpl. done.
Qed.

Lemma drop_ws_id s : head_ok s -> drop_ws s = s.
Proof. destruct s as [|c s]; simpl; [done|]. by intros ->. Qed.

Lemma drop_ws_suffix s : ∃ a, s = a ++ drop_ws s.
Proof.
  induction s as [|c s [a IH]]; simpl; [by exists []|].
  destruct (is_ws c); [|by exists []].
  exists (c :: a). simpl. by rewrite <- IH.
Qed.

Lemma drop_ws_ws_run s : drop_ws s = drop (ws_run s) s.
Proof.
  induction s as [|c s IH]; simpl; [done|].
  destruct (is_ws c); simpl; done.
Qed.

Lemma ws_run_take s : Forall (fun c => is_ws c = true) (take (ws_run s) s).
Proof.
  induction s as [|c s IH]; simpl; [constructor|].
  destruct (is_ws c) eqn:E; simpl; [by constructor|constructor].
Qed.

Lemma ws_run_drop s : ws_run (drop (ws_run s) s) = 0%nat.
Proof.
  induction s as [|c s IH]; simpl; [done|].
  destruct (is_ws c) eqn:E; simpl; [done|by rewrite E].
Qed.

Lemma head_ok_rev_suffix a b :
  b ≠ [] -> head_ok (rev (a ++ b)) -> head_ok (rev b).
Proof.
  intros Hb. rewrite rev_app_distr.
  destruct (rev b) as [|c r] eqn:E; [|done].
  apply (f_equal (@rev N)) in E. rewrite rev_involutive in E. done.
Qed.

(** The result of [trim] neither starts nor ends with white space. *)
Lemma trim_head_ok s : head_ok (trim s).
Proof.
  unfold trim.
  destruct (drop_ws_suffix (rev (drop_ws s))) as [a Ha].
  destruct (drop_ws (rev (drop_ws s))) as [|c b] eqn:Eb; [done|].
  apply (head_ok_rev_suffix a); [done|].
  rewrite <- Ha, rev_involutive. apply drop_ws_head_ok.
Qed.

Lemma trim_last_ok s : head_ok (rev (trim s)).
Proof. unfold trim. rewrite rev_involutive. apply drop_ws_head_ok. Qed.

(** A string is its own trimmed form exactly when both ends are fine. *)
Lemma trim_id s : head_ok s -> head_ok (rev s) -> trim s = s.
Proof.
  intros H1 H2. unfold trim.
  rewrite (drop_ws_id s H1), (drop_ws_id _ H2). apply rev_involutive.
Qed.

Lemma trim_idem s : trim (trim s) = trim s.
Proof. apply trim_id; [apply trim_head_ok|apply trim_last_ok]. Qed.

Lemma elem_of_rev (c : N) (s : jsstring) : c ∈ rev s <-> c ∈ s.
Proof. rewrite !list_elem_of_In. symmetry. apply in_rev. Qed.

Lemma drop_ws_elem c s : c ∈ drop_ws s -> c ∈ s.
Proof.
  destruct (drop_ws_suffix s) as [a Ha]. intros H.
  rewrite Ha. apply elem_of_app. by right.
Qed.

Lemma trim_elem c s : c ∈ trim s -> c ∈ s.
Proof.
  unfold trim. intros H.
  apply elem_of_rev, drop_ws_elem, elem_of_rev, drop_ws_elem in H. done.
Qed.

Lemma split_nonempty sep s : split sep s ≠ [].
Proof.
  destruct s as [|c s]; simpl; [done|].
  destruct (c =? sep)%N; [done|]. by destruct (split sep s).
Qed.

(** No segment of a split holds the separator. *)
Lemma split_no_sep sep s seg : seg ∈ split sep s -> sep ∉ seg.
Proof.
  revert seg. induction s as [|c s IH]; intros seg; simpl.
  - intros ->%list_elem_of_singleton. apply not_elem_of_nil.
  - destruct (c =? sep)%N eqn:E.
    + intros [->|H]%elem_of_cons; [apply not_elem_of_nil|by apply IH].
    + apply N.eqb_neq in E.
      destruct (split sep s) as [|seg0 segs] eqn:Es.
      * by destruct (split_nonempty sep s).
      * intros [->|H]%elem_of_cons.
        -- intros [?|H]%elem_of_cons; [congruence|].
           revert H. apply IH. by left.
        -- apply IH. by right.
Qed.

Lemma find_nonempty_Some lines l :
  find_nonempty lines = Some l -> l ∈ lines ∧ l ≠ [].
Proof.
  unfold find_nonempty. intros H. apply find_some in H as [Hin Hlen].
  split; [by apply list_elem_of_In|].
  intros ->. done.
Qed.

(** The first line that is not blank, as [find] computes it. *)
Lemma find_nonempty_title_line text :
  title_line text (or_else (find_nonempty (map trim (split LF text))) UNTITLED).
Proof.
  unfold title_line. generalize (split LF text) as lines.
  induction lines as [|l lines IH]; simpl.
  - right. split; [|done]. intros l H. by apply not_elem_of_nil in H.
  - destruct (trim l) as [|c t] eqn:Et; simpl.
    + destruct IH as [(i & l0 & Hi & Hne & Heq & Hbefore)|[Hall Heq]].
      * left. exists (S i), l0. repeat split; [done..|].
        intros [|j] l' Hj; simpl; [by intros [= <-]|].
        apply Hbefore. lia.
      * right. split; [|done].
        intros l0 [->|H]%elem_of_cons; [done|by apply Hall].
    + left. exists 0%nat, l. rewrite Et. repeat split; [done|].
      intros j l' Hj. lia.
Qed.

(** ** TitleSanitizer: the shape of every title *)

(** Closes [c ∉ l] for a code unit and a literal string. *)
Ltac not_in_literal :=
  let H := fresh in
  intros H; apply list_elem_of_In in H; vm_compute in H;
  repeat (destruct H as [H|H]; [discriminate H|]); exact H.

(** The line selected by [cleanTitle] before the cut: not empty, free of
    line feeds, and with nothing to trim at either end. *)
Lemma selected_line_ok text :
  let selected := or_else (find_nonempty (map trim (split LF text))) UNTITLED in
  (selected ≠ [] ∧ (LF ∉ selected) ∧ head_ok selected ∧ head_ok (rev selected)).
Proof.
  simpl. destruct (find_nonempty _) as [l|] eqn:E.
  - apply find_nonempty_Some in E as [Hin Hne].
    apply list_elem_of_fmap in Hin as (l0 & -> & Hl0).
    assert (or_else (Some (trim l0)) UNTITLED = trim l0) as ->.
    { simpl. by destruct (trim l0). }
    split; [done|]. split; [|split].
    + intros H%trim_elem. by apply (split_no_sep LF text l0).
    + apply trim_head_ok.
    + apply trim_last_ok.
  - simpl. split; [done|]. split; [|by vm_compute].
    not_in_literal.
Qed.

Lemma cleanTitle_not_empty raw : cleanTitle raw ≠ [].
Proof.
  unfold cleanTitle.
  destruct (selected_line_ok (remove_think raw)) as (Hne & _).
  set (selected := or_else _ _) in *. clearbody selected.
  destruct (100 <? len selected); [|done].
  destruct selected as [|c sel]; done.
Qed.

(** C9. For every input, the title returned by [cleanTitle] is not empty,
    is at most 100 code units long, holds no line feed (the character the
    text is split on), and is its own trimmed form. *)
Theorem cleanTitle_postcondition (raw : jsstring) :
  cleanTitle raw ≠ []
  ∧ len (cleanTitle raw) <= 100
  ∧ (LF ∉ cleanTitle raw)
  ∧ trim (cleanTitle raw) = cleanTitle raw.
Proof.
  unfold cleanTitle.
  destruct (selected_line_ok (remove_think raw)) as (Hne & Hlf & Hhd & Hlast).
  set (selected := or_else _ _) in *. clearbody selected.
  destruct (100 <? len selected) eqn:E.
  - apply Z.ltb_lt in E. unfold len in *.
    assert (length (substring0 selected 97) = 97%nat) as Hlen.
    { unfold substring0. rewrite length_take. lia. }
    destruct selected as [|c sel]; [done|].
    split; [done|]. split; [|split].
    + rewrite length_app, Hlen. by vm_compute.
    + intros [H|H]%elem_of_app.
      * apply Hlf. unfold substring0 in H.
        apply elem_of_take in H as (i & Hi & _).
        by apply list_elem_of_lookup_2 in Hi.
      * revert H. not_in_literal.
    + apply trim_id; [done|].
      rewrite rev_app_distr. by vm_compute.
  - apply Z.ltb_ge in E. split; [done|]. split; [done|]. split; [done|].
    by apply trim_id.
Qed.

(** ** TitleSanitizer: what the replacement removes *)

Lemma replace_go_skip re k s :
  replace_go re k s = replace_go re 0 (drop k s).
Proof.
  revert k. induction s as [|c s IH]; intros k; simpl.
  - by destruct k.
  - destruct k as [|k]; simpl; [done|]. apply IH.
Qed.

(** Where the expression matches, the match is skipped. *)
Lemma replace_go_match re s n :
  re s = Some n -> (0 < n)%nat ->
  replace_go re 0 s = replace_go re 0 (drop n s).
Proof.
  intros Hre Hn. destruct s as [|c s]; simpl.
  - by destruct n.
  - rewrite Hre. destruct n as [|n]; [lia|]. simpl. apply replace_go_skip.
Qed.

(** Where it matches nowhere, the text is kept. *)
Lemma replace_go_keep re pre s :
  (∀ j, (j < length pre)%nat -> re (drop j (pre ++ s)) = None) ->
  replace_go re 0 (pre ++ s) = pre ++ replace_go re 0 s.
Proof.
  induction pre as [|c pre IH]; intros H; simpl; [done|].
  pose proof (H 0%nat ltac:(simpl; lia)) as H0. simpl in H0. rewrite H0.
  rewrite IH; [done|].
  intros j Hj. apply (H (S j)). simpl. lia.
Qed.

Lemma replace_go_keep_all re s :
  (∀ j, re (drop j s) = None) -> replace_go re 0 s = s.
Proof.
  intros H. rewrite <- (app_nil_r s) at 1.
  rewrite replace_go_keep; [by rewrite app_nil_r|].
  intros j _. rewrite app_nil_r. apply H.
Qed.

Lemma occurs_at_undrop p s m k :
  p ≠ [] -> occurs_at p (drop m s) k -> occurs_at p s (m + k).
Proof.
  intros Hp H. destruct (decide (m <= length s)%nat) as [Hm|Hm].
  - apply (occurs_at_suffix _ (take m s)) in H.
    rewrite take_drop, length_take in H.
    by replace (m `min` length s)%nat with m in H by lia.
  - rewrite drop_ge in H by lia. destruct H as (a & b & H & _).
    destruct a; [|done]. simpl in H. by destruct p.
Qed.

Lemma occurs_at_extend p s b j : occurs_at p s j -> occurs_at p (s ++ b) j.
Proof.
  intros (x & y & -> & <-). exists x, (y ++ b).
  split; [by rewrite <- !app_assoc|done].
Qed.

Lemma occurs_at_bound p s j : occurs_at p s j -> (j + length p <= length s)%nat.
Proof. intros (x & y & -> & <-). rewrite !length_app. lia. Qed.

(** An occurrence found by [index_of] is the only one in the text up to its
    end. *)
Lemma first_occurrence_unique p a b :
  (∀ j, occurs_at p (a ++ p ++ b) j -> (length a <= j)%nat) ->
  ∀ j, occurs_at p (a ++ p) j -> j = length a.
Proof.
  intros Hmin j Hj. pose proof (occurs_at_bound _ _ _ Hj) as Hb.
  rewrite length_app in Hb.
  apply (occurs_at_extend _ _ b) in Hj. rewrite <- app_assoc in Hj.
  apply Hmin in Hj. lia.
Qed.

(** What a match of the expression consists of. *)
Lemma think_match_Some s n :
  think_match s = Some n ->
  ∃ body after,
    s = THINK_OPEN ++ body ++ THINK_CLOSE ++ after
    ∧ (∀ j, occurs_at THINK_CLOSE (body ++ THINK_CLOSE) j -> j = length body)
    ∧ n = (7 + length body + 8 + ws_run after)%nat
    ∧ drop (7 + length body + 8) s = after.
Proof.
  unfold think_match. destruct (starts_with THINK_OPEN s) eqn:Es; [|done].
  apply starts_with_inv in Es as [b ->].
  change (drop 7 (THINK_OPEN ++ b)) with b.
  destruct (index_of THINK_CLOSE b) as [k|] eqn:Ek; [|done].
  intros [= <-]. apply index_of_Some in Ek as [(x & y & -> & <-) Hmin].
  exists x, y. split; [done|]. split; [by apply (first_occurrence_unique _ _ y)|].
  assert (drop (length x + 8) (x ++ THINK_CLOSE ++ y) = y) as E.
  { rewrite <- drop_drop, drop_app_length. done. }
  split.
  - rewrite E. lia.
  - exact E.
Qed.

Lemma think_match_None_no_open s :
  starts_with THINK_OPEN s = false -> think_match s = None.
Proof. unfold think_match. by intros ->. Qed.

Lemma drop_block body after :
  drop (7 + length body + 8) (THINK_OPEN ++ body ++ THINK_CLOSE ++ after) = after.
Proof.
  change (7 + length body + 8)%nat with (7 + (length body + 8))%nat.
  change (drop (7 + (length body + 8)) (THINK_OPEN ++ ?t))
    with (drop (length body + 8) t).
  by rewrite <- drop_drop, drop_app_length.
Qed.

Lemma has_block_occurs s :
  has_block s ->
  ∃ i k, occurs_at THINK_OPEN s i ∧ occurs_at THINK_CLOSE s k ∧ (i + 7 <= k)%nat.
Proof.
  intros (a & b & c & ->).
  exists (length a), (length a + 7 + length b)%nat. split; [|split; [|lia]].
  - by exists a, (b ++ THINK_CLOSE ++ c).
  - exists (a ++ THINK_OPEN ++ b), c. split; [by rewrite <- !app_assoc|].
    rewrite !length_app. simpl. lia.
Qed.

(** Text in which no start marker is followed by an end marker: the
    expression matches nowhere, and nothing is removed. *)
Lemma remove_think_no_block s :
  (∀ i k, occurs_at THINK_OPEN s i -> occurs_at THINK_CLOSE s k ->
          (k < i + 7)%nat) ->
  remove_think s = s ∧ ¬ has_block s.
Proof.
  intros H. split.
  - apply replace_go_keep_all. intros j.
    destruct (think_match (drop j s)) as [n|] eqn:E; [|done]. exfalso.
    apply think_match_Some in E as (body & after & E & _).
    assert (occurs_at THINK_OPEN (drop j s) 0) as Ho.
    { rewrite E. by exists [], (body ++ THINK_CLOSE ++ after). }
    assert (occurs_at THINK_CLOSE (drop j s) (7 + length body)) as Hc.
    { rewrite E. exists (THINK_OPEN ++ body), after.
      split; [by rewrite <- !app_assoc|by rewrite length_app]. }
    apply occurs_at_undrop in Ho; [|done].
    apply occurs_at_undrop in Hc; [|done].
    specialize (H _ _ Ho Hc). lia.
  - intros (i & k & Ho & Hc & Hik)%has_block_occurs.
    specialize (H _ _ Ho Hc). lia.
Qed.

(** The replacement of [cleanTitle] removes the paired blocks and the white
    space behind each, and nothing else. *)
Lemma remove_think_Removed raw : Removed raw (remove_think raw).
Proof.
  remember (length raw) as n eqn:Hn. revert raw Hn.
  induction n as [n IH] using lt_wf_ind. intros raw ->.
  destruct (index_of THINK_OPEN raw) as [i|] eqn:Ei.
  2:{ destruct (remove_think_no_block raw) as [-> Hnb]; [|by constructor].
      intros i k Ho _. by apply index_of_None with (j := i) in Ei. }
  apply index_of_Some in Ei as [(pre & tail & -> & <-) Hmin].
  destruct (index_of THINK_CLOSE tail) as [k|] eqn:Ek.
  2:{ destruct (remove_think_no_block (pre ++ THINK_OPEN ++ tail)) as [-> Hnb];
        [|by constructor].
      intros i k Ho Hc. apply Hmin in Ho.
      destruct (decide (k < i + 7)%nat) as [|Hge]; [done|]. exfalso.
      apply (occurs_at_drop _ _ (length pre + 7)) in Hc; [|lia].
      rewrite <- drop_drop, drop_app_length in Hc.
      change (drop 7 (THINK_OPEN ++ tail)) with tail in Hc.
      by apply index_of_None with (j := (k - (length pre + 7))%nat) in Ek. }
  apply index_of_Some in Ek as [(body & after & -> & <-) Hmin2].
  pose proof (drop_block body after) as Hafter.
  assert (think_match (THINK_OPEN ++ body ++ THINK_CLOSE ++ after)
          = Some (7 + length body + 8 + ws_run after)%nat) as Hm.
  { unfold think_match. rewrite starts_with_app.
    change (drop 7 (THINK_OPEN ++ ?t)) with t.
    destruct (index_of _ _) as [k|] eqn:Ek.
    - apply index_of_Some in Ek as [Hk Hle].
      assert (k = length body) as ->; [|by rewrite Hafter].
      apply Nat.le_antisymm; [|by apply Hmin2].
      apply Hle. by exists body, after.
    - exfalso. apply index_of_None with (j := length body) in Ek.
      apply Ek. by exists body, after. }
  unfold remove_think. rewrite replace_go_keep.
  2:{ intros j Hj. apply think_match_None_no_open.
      destruct (starts_with _ _) eqn:Es; [|done]. exfalso.
      assert (occurs_at THINK_OPEN (pre ++ THINK_OPEN ++ body ++ THINK_CLOSE ++ after) j)
        as Ho; [|apply Hmin in Ho; lia].
      apply occurs_at_starts_with. split; [|done].
      rewrite length_app. lia. }
  rewrite (replace_go_match _ _ _ Hm) by lia.
  replace (7 + length body + 8 + ws_run after)%nat
    with ((7 + length body + 8) + ws_run after)%nat by lia.
  rewrite <- drop_drop, Hafter.
  rewrite <- (take_drop (ws_run after) after) at 1.
  apply Removed_block.
  - by apply (first_occurrence_unique _ _ (body ++ THINK_CLOSE ++ after)).
  - by apply (first_occurrence_unique _ _ after).
  - apply ws_run_take.
  - apply ws_run_drop.
  - apply (IH (length (drop (ws_run after) after))); [|done].
    rewrite length_drop, !length_app. simpl. lia.
Qed.

Lemma occurs_at_within p a b j :
  occurs_at p (a ++ b) j -> (j + length p <= length a)%nat -> occurs_at p a j.
Proof.
  intros (x & y & E & <-) Hle. exists x, (drop (length x + length p) a).
  split; [|done].
  rewrite <- (take_drop (length x + length p) a) at 1.
  rewrite app_assoc. f_equal.
  assert (take (length x + length p) (a ++ b) = x ++ p) as Ht.
  { rewrite E, app_assoc, take_app_le by (rewrite length_app; lia).
    apply take_ge. rewrite length_app. lia. }
  rewrite <- Ht. by rewrite take_app_le.
Qed.

Lemma no_block_occurrences s i k :
  ¬ has_block s -> occurs_at THINK_OPEN s i -> occurs_at THINK_CLOSE s k ->
  (k < i + 7)%nat.
Proof.
  intros Hnb (a & b & -> & <-) Hc.
  destruct (decide (k < length a + 7)%nat) as [|Hge]; [done|]. exfalso.
  apply (occurs_at_drop _ _ (length a + 7)) in Hc; [|lia].
  rewrite <- drop_drop, drop_app_length in Hc.
  change (drop 7 (THINK_OPEN ++ b)) with b in Hc.
  destruct Hc as (x & y & -> & _). apply Hnb. by exists a, x, y.
Qed.

Lemma ws_run_app ws rest :
  Forall (fun c => is_ws c = true) ws -> ws_run rest = 0%nat ->
  ws_run (ws ++ rest) = length ws.
Proof.
  intros Hws Hrest. induction Hws as [|c ws Hc _ IH]; simpl; [done|].
  by rewrite Hc, IH.
Qed.

(** [Removed] determines its result: it is the text computed by the
    replacement. *)
Lemma Removed_unique s out : Removed s out -> out = remove_think s.
Proof.
  induction 1 as [s Hnb|pre body ws rest out Hpre Hbody Hws Hrest _ IH].
  - symmetry. apply remove_think_no_block.
    intros i k. by apply no_block_occurrences.
  - unfold remove_think. rewrite replace_go_keep.
    2:{ intros j Hj. apply think_match_None_no_open.
        destruct (starts_with _ _) eqn:Es; [|done]. exfalso.
        assert (j = length pre); [|lia]. apply Hpre.
        apply (occurs_at_within _ _ (body ++ THINK_CLOSE ++ ws ++ rest)).
        - rewrite <- app_assoc. apply occurs_at_starts_with. split; [|done].
          rewrite length_app. lia.
        - rewrite length_app. simpl. lia. }
    assert (think_match (THINK_OPEN ++ body ++ THINK_CLOSE ++ ws ++ rest)
            = Some (7 + length body + 8 + length ws)%nat) as Hm.
    { unfold think_match. rewrite starts_with_app.
      change (drop 7 (THINK_OPEN ++ ?t)) with t.
      destruct (index_of _ _) as [k|] eqn:Ek.
      - apply index_of_Some in Ek as [Hk Hle].
        assert (k = length body) as ->.
        { assert (k <= length body)%nat by (apply Hle; by exists body, (ws ++ rest)).
          apply Hbody. apply (occurs_at_within _ _ (ws ++ rest)).
          - by rewrite <- app_assoc.
          - rewrite length_app. simpl. lia. }
        by rewrite drop_block, ws_run_app.
      - exfalso. apply index_of_None with (j := length body) in Ek.
        apply Ek. by exists body, (ws ++ rest). }
    rewrite (replace_go_match _ _ _ Hm) by lia.
    replace (7 + length body + 8 + length ws)%nat
      with ((7 + length body + 8) + length ws)%nat by lia.
    rewrite <- drop_drop, drop_block, drop_app_length.
    f_equal. exact IH.
Qed.

(** C7, as amended. For every raw text, [cleanTitle] removes every paired
    reasoning block (the start marker through the nearest end marker,
    across lines) together with the white space that directly follows the
    block (this remainder is unique), then takes the first line of the
    remainder that is not blank, in
    its trimmed form (or the placeholder when there is none), and cuts it to
    97 code units and an ellipsis when it is longer than 100. On the text of
    the specification's example the title is "Fixing bug". *)
Theorem cleanTitle_steps (raw : jsstring) :
  (∃ remaining selected,
      Removed raw remaining
      ∧ (∀ other, Removed raw other -> other = remaining)
      ∧ title_line remaining selected
      ∧ cleanTitle raw =
          if 100 <? len selected then take 97 selected ++ ELLIPSIS else selected)
  ∧ cleanTitle (lit "<think>reasoning</think>Fixing bug" ++ [LF] ++ lit "Extra line")
    = lit "Fixing bug".
Proof.
  split; [|reflexivity].
  exists (remove_think raw),
         (or_else (find_nonempty (map trim (split LF (remove_think raw)))) UNTITLED).
  split; [apply remove_think_Removed|].
  split; [apply Removed_unique|].
  split; [apply find_nonempty_title_line|].
  reflexivity.
Qed.

(** C7, as stated, fails: with text before a block and a line feed right
    behind it, the white space removed with the block joins two lines, and
    the title is not the first line left by removing the block alone. *)
Lemma cleanTitle_not_sanitize_spec :
  let raw := lit "a<think>x</think>" ++ [LF] ++ lit "b" in
  cleanTitle raw = lit "ab"
  ∧ sanitize_spec raw = lit "a"
  ∧ cleanTitle raw ≠ sanitize_spec raw.
Proof. repeat split; [reflexivity..|discriminate]. Qed.

(** ** ContextFormatter *)

(** A code unit that is not in the pattern stops every occurrence. *)
Lemma starts_with_stop p a x b :
  x ∉ p -> p ≠ [] -> starts_with p (a ++ x :: b) = starts_with p a.
Proof.
  revert a. induction p as [|c p IH]; intros a Hx Hp; [done|].
  apply not_elem_of_cons in Hx as [Hxc Hxp].
  destruct a as [|d a]; simpl.
  - apply andb_false_iff. left. apply N.eqb_neq. congruence.
  - destruct p as [|c' p']; [by destruct (c =? d)%N|].
    by rewrite IH.
Qed.

Lemma occurrences_stop p a x b :
  x ∉ p -> p ≠ [] ->
  occurrences p (a ++ x :: b) = (occurrences p a + occurrences p b)%nat.
Proof.
  intros Hx Hp. induction a as [|d a IH].
  - pose proof (starts_with_stop p [] x b Hx Hp) as E.
    change ([] ++ x :: b) with (x :: b) in *. cbn [occurrences].
    rewrite E. by destruct p.
  - change ((d :: a) ++ x :: b) with (d :: (a ++ x :: b)).
    cbn [occurrences]. rewrite IH.
    change (d :: (a ++ x :: b)) with ((d :: a) ++ x :: b).
    rewrite starts_with_stop by done. lia.
Qed.

(** No occurrence starts inside a prefix that lacks the first code unit of
    the pattern. *)
Lemma occurrences_skip u p a b :
  u ∉ a -> occurrences (u :: p) (a ++ b) = occurrences (u :: p) b.
Proof.
  induction a as [|d a IH]; intros Hu; [done|].
  apply not_elem_of_cons in Hu as [Hud Hua].
  change ((d :: a) ++ b) with (d :: (a ++ b)). cbn [occurrences].
  rewrite IH by done. simpl.
  destruct (u =? d)%N eqn:E; [|done].
  apply N.eqb_eq in E. congruence.
Qed.

Lemma starts_with_take p n s :
  starts_with p (take n s) = true -> starts_with p s = true.
Proof.
  intros [b Hb]%starts_with_inv. apply starts_with_iff.
  exists (b ++ drop n s). by rewrite app_assoc, <- Hb, take_drop.
Qed.

Lemma occurrences_take p n s :
  (occurrences p (take n s) <= occurrences p s)%nat.
Proof.
  revert n. induction s as [|c s IH]; intros [|n]; simpl; try lia.
  change (c :: take n s) with (take (S n) (c :: s)).
  specialize (IH n).
  destruct (starts_with p (take (S n) (c :: s))) eqn:E.
  - apply starts_with_take in E. rewrite E. lia.
  - destruct (starts_with p (c :: s)); lia.
Qed.

(** Truncation adds no occurrence of the user prefix. *)
Lemma occurrences_truncate text maxLength :
  occurrences USER_PREFIX text = 0%nat ->
  occurrences USER_PREFIX (truncate text maxLength) = 0%nat.
Proof.
  intros H. unfold truncate. destruct (len text <=? maxLength); [done|].
  unfold substring0.
  change ELLIPSIS with (46%N :: lit "..").
  rewrite occurrences_stop; [|not_in_literal|done].
  pose proof (occurrences_take USER_PREFIX (Z.to_nat maxLength) text).
  change (occurrences USER_PREFIX (lit "..")) with 0%nat. lia.
Qed.

(** Occurrences in a joined text are those of its lines. *)
Lemma occurrences_join p lines :
  LF ∉ p -> p ≠ [] ->
  occurrences p (join [LF] lines) = list_sum (map (occurrences p) lines).
Proof.
  intros Hlf Hp. induction lines as [|l lines IH]; [done|].
  destruct lines as [|l' lines].
  - simpl. lia.
  - change (join [LF] (l :: l' :: lines)) with (l ++ LF :: join [LF] (l' :: lines)).
    rewrite occurrences_stop by done. rewrite IH. done.
Qed.

Lemma format_turn_app m acc turn :
  format_turn m acc turn = acc ++ format_turn m [] turn.
Proof.
  unfold format_turn. destruct (turn_assistant turn) as [a|].
  - destruct (bool_decide (first a = last a)); simpl;
      by rewrite <- ?app_assoc.
  - simpl. by rewrite <- ?app_assoc.
Qed.

Lemma fold_format_turn m ts acc :
  fold_left (format_turn m) ts acc = acc ++ flat_map (format_turn m []) ts.
Proof.
  revert acc. induction ts as [|t ts IH]; intros acc; simpl.
  - by rewrite app_nil_r.
  - rewrite IH, (format_turn_app m acc t). by rewrite <- app_assoc.
Qed.

Lemma occurrences_user_line text :
  occurrences USER_PREFIX (USER_PREFIX ++ text)
  = S (occurrences USER_PREFIX text).
Proof.
  change (USER_PREFIX ++ text) with (85%N :: (lit "ser: " ++ text)).
  cbn [occurrences].
  change (85%N :: (lit "ser: " ++ text)) with (USER_PREFIX ++ text).
  rewrite starts_with_app.
  change USER_PREFIX with (85%N :: lit "ser: ").
  rewrite occurrences_skip; [done|not_in_literal].
Qed.

Lemma occurrences_other_line label text :
  85%N ∉ label ->
  occurrences USER_PREFIX (label ++ text) = occurrences USER_PREFIX text.
Proof. apply occurrences_skip. Qed.

(** With texts free of the prefix, the lines of a turn hold it once. *)
Lemma occurrences_turn m turn :
  prefix_free turn ->
  list_sum (map (occurrences USER_PREFIX) (format_turn m [] turn)) = 1%nat.
Proof.
  intros [Hu Ha]. unfold format_turn.
  pose proof (occurrences_truncate _ m Hu) as Hu'.
  destruct (turn_assistant turn) as [a|].
  - destruct Ha as [Hf Hl].
    pose proof (occurrences_truncate _ m Hf) as Hf'.
    pose proof (occurrences_truncate _ m Hl) as Hl'.
    destruct (bool_decide (first a = last a));
      cbn [app map list_sum fold_right];
      rewrite occurrences_user_line, Hu';
      rewrite !occurrences_other_line by not_in_literal;
      rewrite ?Hf', ?Hl'; reflexivity.
  - cbn [app map list_sum fold_right].
    rewrite occurrences_user_line, Hu'. reflexivity.
Qed.

Lemma occurrences_turns m ts :
  Forall prefix_free ts ->
  list_sum (map (occurrences USER_PREFIX) (flat_map (format_turn m []) ts))
  = length ts.
Proof.
  induction 1 as [|t ts Ht _ IH]; simpl; [done|].
  by rewrite map_app, list_sum_app, IH, occurrences_turn.
Qed.

(** [turns.slice(-maxTurns)] for a positive [maxTurns]: the last [maxTurns]
    turns, or all of them when there are fewer. *)
Lemma slice_tail {A} (maxTurns : Z) (l : list A) :
  0 < maxTurns ->
  slice_from (- maxTurns) l = drop (length l - Z.to_nat maxTurns) l.
Proof.
  intros H. unfold slice_from.
  destruct (- maxTurns <? 0) eqn:E; [|apply Z.ltb_ge in E; lia].
  f_equal. lia.
Qed.

(** The formatter against the specification's lines for a turn. *)
Lemma truncate_truncate_spec text maxChars :
  truncate text maxChars = truncate_spec maxChars text.
Proof.
  unfold truncate, truncate_spec, substring0.
  destruct (len text <=? maxChars) eqn:E1, (maxChars <? len text) eqn:E2;
    try done; lia.
Qed.

Lemma format_turn_spec m turn :
  format_turn m [] turn = turn_lines_spec m turn.
Proof.
  unfold format_turn, turn_lines_spec. cbn zeta.
  destruct (turn_assistant turn) as [a|];
    [destruct (bool_decide (first a = last a))|];
    by rewrite !truncate_truncate_spec.
Qed.

(** The lines of a text. *)
Lemma split_app_sep sep a b :
  split sep (a ++ sep :: b) = split sep a ++ split sep b.
Proof.
  induction a as [|c a IH]; simpl.
  - by rewrite N.eqb_refl.
  - rewrite IH. destruct (c =? sep)%N; [done|].
    pose proof (split_nonempty sep a). by destruct (split sep a).
Qed.

Lemma split_join lines :
  lines ≠ [] ->
  split LF (join [LF] lines) = flat_map (split LF) lines.
Proof.
  induction lines as [|l lines IH]; [done|]. intros _.
  destruct lines as [|l' lines].
  - simpl. by rewrite app_nil_r.
  - change (join [LF] (l :: l' :: lines))
      with (l ++ LF :: join [LF] (l' :: lines)).
    rewrite split_app_sep, IH by done. done.
Qed.

(** A label without line feed stays on the first line. *)
Lemma split_label label text :
  LF ∉ label ->
  ∃ line lines, split LF text = line :: lines
                ∧ split LF (label ++ text) = (label ++ line) :: lines.
Proof.
  intros Hlabel. induction label as [|c label IH].
  - pose proof (split_nonempty LF text). simpl.
    destruct (split LF text) as [|line lines]; [done|]. by exists line, lines.
  - apply not_elem_of_cons in Hlabel as [Hc Hlabel].
    destruct (IH Hlabel) as (line & lines & Htext & Hsplit).
    exists line, lines. split; [done|]. simpl. rewrite Hsplit.
    destruct (c =? LF)%N eqn:E; [apply N.eqb_eq in E; congruence|done].
Qed.

(** Every line of a text is a piece of it, the first one a prefix. *)
Lemma split_pieces sep s line lines :
  split sep s = line :: lines ->
  (∃ b, s = line ++ b)
  ∧ ∀ seg, seg ∈ lines -> ∃ a b, s = a ++ seg ++ b.
Proof.
  revert line lines. induction s as [|c s IH]; intros line lines Hsplit;
    simpl in Hsplit.
  - injection Hsplit as <- <-. split; [by exists []|].
    by intros seg ?%not_elem_of_nil.
  - pose proof (split_nonempty sep s).
    destruct (split sep s) as [|line' lines'] eqn:E; [done|].
    destruct (IH line' lines' eq_refl) as [[b Hb] Hrest].
    destruct (c =? sep)%N; injection Hsplit as <- <-.
    + split; [by exists (c :: s)|]. intros seg Hseg.
      apply elem_of_cons in Hseg as [->|Hseg].
      * exists [c], b. simpl. by rewrite Hb.
      * destruct (Hrest _ Hseg) as (a' & b' & ->). by exists (c :: a'), b'.
    + split; [exists b; simpl; by rewrite Hb|]. intros seg Hseg.
      destruct (Hrest _ Hseg) as (a' & b' & ->). by exists (c :: a'), b'.
Qed.

Lemma split_piece sep s seg :
  seg ∈ split sep s -> ∃ a b, s = a ++ seg ++ b.
Proof.
  pose proof (split_nonempty sep s).
  destruct (split sep s) as [|line lines] eqn:E; [done|].
  destruct (split_pieces _ _ _ _ E) as [[b Hb] Hrest].
  intros [->|Hseg]%elem_of_cons; [by exists [], b|by apply Hrest].
Qed.

Lemma occurrences_piece p a l b :
  p ≠ [] -> starts_with p l = true -> (0 < occurrences p (a ++ l ++ b))%nat.
Proof.
  intros Hp Hl. induction a as [|c a IH].
  - apply starts_with_inv in Hl as [l' ->].
    destruct p as [|c p]; [done|]. simpl.
    rewrite N.eqb_refl. rewrite <- app_assoc.
    rewrite starts_with_app. simpl. lia.
  - change ((c :: a) ++ l ++ b) with (c :: (a ++ l ++ b)).
    cbn [occurrences]. lia.
Qed.

Lemma user_lines_app a b :
  user_lines (a ++ b) = (user_lines a + user_lines b)%nat.
Proof. unfold user_lines. by rewrite filter_app, length_app. Qed.

Lemma user_lines_cons l rest :
  user_lines (l :: rest)
  = ((if starts_with USER_PREFIX l then 1 else 0) + user_lines rest)%nat.
Proof.
  unfold user_lines. destruct (starts_with USER_PREFIX l) eqn:E.
  - by rewrite filter_cons_True.
  - by rewrite filter_cons_False by congruence.
Qed.

(** A text free of the user prefix has no line that begins with it. *)
Lemma user_lines_free text :
  occurrences USER_PREFIX text = 0%nat -> user_lines (split LF text) = 0%nat.
Proof.
  intros Hfree.
  assert (∀ lines, (∀ line, line ∈ lines -> line ∈ split LF text) ->
                   user_lines lines = 0%nat) as Hall.
  { induction lines as [|line lines IH]; intros Hin; [done|].
    rewrite user_lines_cons, IH by (intros l Hl; apply Hin; by right).
    destruct (starts_with USER_PREFIX line) eqn:Hstarts; [|done].
    destruct (split_piece LF text line) as (a & b & ->); [apply Hin; by left|].
    pose proof (occurrences_piece USER_PREFIX a line b ltac:(done) Hstarts).
    lia. }
  by apply Hall.
Qed.

(** The lines of the output that begin with the user prefix are those of
    the lines pushed. *)
Lemma user_lines_join lines :
  user_lines (split LF (join [LF] lines))
  = list_sum (map (fun l => user_lines (split LF l)) lines).
Proof.
  destruct lines as [|l lines]; [done|].
  rewrite split_join by done.
  generalize (l :: lines). clear. intros lines.
  induction lines as [|l lines IH]; [done|].
  cbn [flat_map map list_sum foldr]. by rewrite user_lines_app, IH.
Qed.

(** The user line of a turn gives a line that begins with the user prefix,
    and no other when its text is free of the prefix. *)
Lemma user_lines_user_line text :
  (1 <= user_lines (split LF (USER_PREFIX ++ text)))%nat
  ∧ (occurrences USER_PREFIX text = 0%nat ->
     user_lines (split LF (USER_PREFIX ++ text)) = 1%nat).
Proof.
  destruct (split_label USER_PREFIX text) as (line & lines & Htext & ->);
    [not_in_literal|].
  rewrite user_lines_cons, starts_with_app. split; [lia|].
  intros Hfree%user_lines_free. rewrite Htext, user_lines_cons in Hfree. lia.
Qed.

Lemma user_lines_other_line label text :
  LF ∉ label -> (∀ l, starts_with USER_PREFIX (label ++ l) = false) ->
  occurrences USER_PREFIX text = 0%nat ->
  user_lines (split LF (label ++ text)) = 0%nat.
Proof.
  intros Hlabel Hother Hfree%user_lines_free.
  destruct (split_label label text Hlabel) as (line & lines & Htext & ->).
  rewrite Htext, user_lines_cons in Hfree. rewrite user_lines_cons, Hother. lia.
Qed.

Lemma occurrences_truncate_spec text m :
  occurrences USER_PREFIX text = 0%nat ->
  occurrences USER_PREFIX (truncate_spec m text) = 0%nat.
Proof. rewrite <- truncate_truncate_spec. apply occurrences_truncate. Qed.

Lemma user_lines_turn m turn :
  (1 <= list_sum (map (fun l => user_lines (split LF l))
                    (turn_lines_spec m turn)))%nat
  ∧ (prefix_free turn ->
     list_sum (map (fun l => user_lines (split LF l)) (turn_lines_spec m turn))
     = 1%nat).
Proof.
  unfold turn_lines_spec. change (lit "User: ") with USER_PREFIX.
  cbn [app map list_sum foldr].
  destruct (user_lines_user_line (truncate_spec m (user_text turn)))
    as [Hone Hfree].
  split; [lia|]. intros [Hu Ha].
  rewrite Hfree by by apply occurrences_truncate_spec.
  change (user_lines (split LF [])) with 0%nat.
  destruct (turn_assistant turn) as [a|]; [|done].
  destruct Ha as [Hf Hl].
  destruct (bool_decide (first a = last a)); cbn [app map list_sum foldr];
    change (user_lines (split LF [])) with 0%nat;
    rewrite !user_lines_other_line;
    try done; try not_in_literal; by apply occurrences_truncate_spec.
Qed.

Lemma user_lines_turns m ts :
  (length ts
   <= list_sum (map (fun l => user_lines (split LF l))
                  (flat_map (turn_lines_spec m) ts)))%nat
  ∧ (Forall prefix_free ts ->
     list_sum (map (fun l => user_lines (split LF l))
                 (flat_map (turn_lines_spec m) ts))
     = length ts).
Proof.
  induction ts as [|t ts [IH1 IH2]]; [done|].
  cbn [flat_map length]. rewrite map_app, list_sum_app.
  destruct (user_lines_turn m t) as [H1 H2]. split; [lia|].
  intros [Ht Hts]%Forall_cons. rewrite H2, IH2 by done. done.
Qed.

(** C6, as amended. For every list of turns and every positive [maxTurns],
    the formatter renders the chronological tail of at most [maxTurns]
    turns, and nothing else: its output is the text of the specification,
    the lines of the selected turns in order, joined by line feeds, each
    turn giving its user line "User: " with the truncated user text, a
    blank line, and for a turn with an assistant summary its one or two
    assistant lines with the truncated texts and a blank line. Truncated
    is as the specification has it: a text of at most [maxCharsPerMessage]
    code units unchanged, a longer one cut to that length with the
    ellipsis behind it. Of the lines of the output, at least one for each
    selected turn begins with "User: "; when no text of the selected
    turns holds "User: " itself, exactly one for each selected turn does,
    and the output has exactly that many occurrences of "User: ", so at
    most [maxTurns]. *)
Theorem formatContext_user_prefix
    (turns : list ConversationTurn) (maxTurns maxCharsPerMessage : Z) :
  0 < maxTurns ->
  let selected := drop (length turns - Z.to_nat maxTurns) turns in
  let out := formatContextForTitle turns maxTurns maxCharsPerMessage in
  Z.of_nat (length selected) <= maxTurns
  ∧ out = join [LF] (flat_map (turn_lines_spec maxCharsPerMessage) selected)
  ∧ (length selected <= user_lines (split LF out))%nat
  ∧ (Forall prefix_free selected ->
     user_lines (split LF out) = length selected
     ∧ occurrences USER_PREFIX out = length selected
     ∧ Z.of_nat (occurrences USER_PREFIX out) <= maxTurns).
Proof.
  intros Hpos selected out.
  assert (Z.of_nat (length selected) <= maxTurns) as Hlen.
  { subst selected. rewrite length_drop. lia. }
  assert (formatted_lines turns maxTurns maxCharsPerMessage
          = flat_map (turn_lines_spec maxCharsPerMessage) selected) as Hlines.
  { unfold formatted_lines. rewrite fold_format_turn, slice_tail by done.
    simpl. subst selected. generalize (drop (length turns - Z.to_nat maxTurns) turns).
    intros ts. induction ts as [|t ts IH]; [done|].
    cbn [flat_map]. by rewrite IH, format_turn_spec. }
  assert (out = join [LF] (flat_map (turn_lines_spec maxCharsPerMessage) selected))
    as Hout.
  { subst out. unfold formatContextForTitle. by rewrite Hlines. }
  destruct (user_lines_turns maxCharsPerMessage selected) as [Hleast Hexact].
  split; [done|]. split; [done|]. rewrite Hout, user_lines_join.
  split; [done|]. intros Hfree.
  split; [by apply Hexact|].
  assert (occurrences USER_PREFIX
            (join [LF] (flat_map (turn_lines_spec maxCharsPerMessage) selected))
          = length selected) as ->; [|done].
  rewrite occurrences_join; [|not_in_literal|done].
  clear -Hfree. induction Hfree as [|t ts Ht _ IH]; [done|].
  cbn [flat_map length]. rewrite map_app, list_sum_app, IH.
  rewrite <- format_turn_spec. by rewrite occurrences_turn.
Qed.

Lemma formatContext_user_prefix_witness :
  let out :=
    formatContextForTitle
      [user_turn (lit "first question") 1;
       {| user_text := lit "second" ++ LF :: lit "question"; user_time := 2;
          turn_assistant :=
            Some {| first := lit "User says hi"; last := lit "done"; time := 3 |} |}]
      1 10 in
  out = lit "User: second" ++ LF
          :: lit "que..." ++ LF
          :: LF
          :: lit "Assistant (initial): User says ..." ++ LF
          :: lit "Assistant (final): done" ++ [LF]
  ∧ user_lines (split LF out) = 1%nat
  ∧ occurrences USER_PREFIX out = 1%nat.
Proof.
  cbn zeta.
  destruct (formatContext_user_prefix
              [user_turn (lit "first question") 1;
               {| user_text := lit "second" ++ LF :: lit "question";
                  user_time := 2;
                  turn_assistant :=
                    Some {| first := lit "User says hi"; last := lit "done";
                            time := 3 |} |}] 1 10)
    as (_ & Hout & _ & H); [lia|].
  destruct H as (Hlines & Hocc & _); [repeat constructor|].
  split; [|by split]. rewrite Hout. reflexivity.
Defined.

(** C6, as stated, fails: a user text that holds "User: " brings a second
    occurrence into the output of a single turn. *)
Lemma formatContext_prefix_in_text :
  let out := formatContextForTitle [user_turn (lit "User: hi") 0] 1 100 in
  out = lit "User: User: hi" ++ [LF]
  ∧ occurrences USER_PREFIX out = 2%nat
  ∧ ¬ (Z.of_nat (occurrences USER_PREFIX out) <= 1).
Proof. repeat split. intros H. vm_compute in H. by apply H. Qed.

(* ===================================================================== *)
(** * Computations: general facts *)
(* ===================================================================== *)

Section Computations.

Context {World Handle : Type}.

Local Abbreviation M := (M World Handle).
Local Abbreviation Call := (Call Handle).

Implicit Types P : Call -> Prop.

Lemma run_bind {A B} (m : M A) (k : A -> M B) st :
  (m ≫= k) st =
  match m st with
  | (inr a, st1, t1) =>
      match k a st1 with
      | (r, st2, t2) => (r, st2, t1 ++ t2)
      end
  | (inl e, st1, t1) => (inl e, st1, t1)
  end.
Proof. reflexivity. Qed.

Lemma run_try_catch {A} (m : M A) (h : Error -> M A) st :
  try_catch m h st =
  match m st with
  | (inl e, st1, t1) =>
      match h e st1 with
      | (r, st2, t2) => (r, st2, t1 ++ t2)
      end
  | ok => ok
  end.
Proof. reflexivity. Qed.

Lemma run_ret {A} (a : A) st : (mret a : M A) st = (inr a, st, []).
Proof. reflexivity. Qed.

(** *** Calls made *)

Lemma only_ret {A} P (a : A) : only P (mret a : M A).
Proof. intros st. constructor. Qed.

Lemma only_throw {A} P e : only P (throw e : M A).
Proof. intros st. constructor. Qed.

Lemma only_bind {A B} P (m : M A) (k : A -> M B) :
  only P m -> (∀ a, only P (k a)) -> only P (m ≫= k).
Proof.
  intros Hm Hk st. rewrite run_bind. specialize (Hm st).
  destruct (m st) as [[[e|a] st1] t1]; [done|].
  specialize (Hk a st1). destruct (k a st1) as [[r st2] t2].
  simpl in *. by apply Forall_app.
Qed.

Lemma only_try_catch {A} P (m : M A) h :
  only P m -> (∀ e, only P (h e)) -> only P (try_catch m h).
Proof.
  intros Hm Hh st. rewrite run_try_catch. specialize (Hm st).
  destruct (m st) as [[[e|a] st1] t1]; [|done].
  specialize (Hh e st1). destruct (h e st1) as [[r st2] t2].
  simpl in *. by apply Forall_app.
Qed.

Lemma only_await {A} P c (f : World -> option A * World) :
  P c -> only P (await c f).
Proof.
  intros Hc st. unfold await. destruct (f (world st)) as [r w].
  simpl. by repeat constructor.
Qed.

Lemma only_await_unit P c (f : World -> bool * World) :
  P c -> only P (await_unit c f).
Proof. apply only_await. Qed.

Lemma only_get_counts P : only P (get_counts : M _).
Proof. intros st. constructor. Qed.

Lemma only_set_count P s n : only P (set_count s n : M _).
Proof. intros st. constructor. Qed.

(** *** Idle counters *)

Lemma keeps_ret {A} (a : A) : keeps_counts (mret a : M A).
Proof. by intros st. Qed.

Lemma keeps_throw {A} e : keeps_counts (throw e : M A).
Proof. by intros st. Qed.

Lemma keeps_bind {A B} (m : M A) (k : A -> M B) :
  keeps_counts m -> (∀ a, keeps_counts (k a)) -> keeps_counts (m ≫= k).
Proof.
  intros Hm Hk st. rewrite run_bind. specialize (Hm st).
  destruct (m st) as [[[e|a] st1] t1]; [done|].
  specialize (Hk a st1). destruct (k a st1) as [[r st2] t2].
  simpl in *. congruence.
Qed.

Lemma keeps_try_catch {A} (m : M A) h :
  keeps_counts m -> (∀ e, keeps_counts (h e)) -> keeps_counts (try_catch m h).
Proof.
  intros Hm Hh st. rewrite run_try_catch. specialize (Hm st).
  destruct (m st) as [[[e|a] st1] t1]; [|done].
  specialize (Hh e st1). destruct (h e st1) as [[r st2] t2].
  simpl in *. congruence.
Qed.

Lemma keeps_await {A} c (f : World -> option A * World) :
  keeps_counts (await (Handle := Handle) c f).
Proof. intros st. unfold await. by destruct (f (world st)). Qed.

Lemma keeps_await_unit c (f : World -> bool * World) :
  keeps_counts (await_unit (Handle := Handle) c f).
Proof. apply keeps_await. Qed.

(** *** Normal return *)

Lemma never_throws_ret {A} (a : A) : never_throws (mret a : M A).
Proof. intros st. by exists a. Qed.

Lemma never_throws_bind {A B} (m : M A) (k : A -> M B) :
  never_throws m -> (∀ a, never_throws (k a)) -> never_throws (m ≫= k).
Proof.
  intros Hm Hk st. rewrite run_bind. destruct (Hm st) as [a Ha].
  destruct (m st) as [[r st1] t1]. simpl in Ha. subst r.
  destruct (Hk a st1) as [b Hb]. destruct (k a st1) as [[r st2] t2].
  by exists b.
Qed.

(** A [try] whose [catch] block returns normally returns normally. *)
Lemma never_throws_try_catch {A} (m : M A) h :
  (∀ e, never_throws (h e)) -> never_throws (try_catch m h).
Proof.
  intros Hh st. rewrite run_try_catch.
  destruct (m st) as [[[e|a] st1] t1]; [|by exists a].
  destruct (Hh e st1) as [b Hb]. destruct (h e st1) as [[r st2] t2].
  by exists b.
Qed.

Lemma never_throws_get_counts : never_throws (get_counts : M _).
Proof. intros st. by eexists. Qed.

Lemma never_throws_set_count s n : never_throws (set_count s n : M _).
Proof. intros st. by eexists. Qed.

End Computations.

Create HintDb calls.
Create HintDb counts.
Create HintDb returns.

#[global] Hint Resolve only_ret only_throw only_bind only_try_catch only_await
  only_await_unit only_get_counts only_set_count : calls.
#[global] Hint Resolve keeps_ret keeps_throw keeps_bind keeps_try_catch
  keeps_await keeps_await_unit : counts.
#[global] Hint Resolve never_throws_ret never_throws_bind never_throws_try_catch
  never_throws_get_counts never_throws_set_count : returns.

(** One step of a proof about the calls, the counters or the normal return
    of a computation: a leaf from the hint database, a rule for a
    combinator, or a case analysis on the scrutinee of a [match]. *)
Ltac observe db :=
  repeat first
    [ solve [eauto 3 with db]
    | match goal with |- forall _, _ => intro end
    | apply only_bind | apply only_try_catch
    | apply keeps_bind | apply keeps_try_catch
    | apply never_throws_bind | apply never_throws_try_catch
    | match goal with
      | |- context [match ?x with _ => _ end] => destruct x
      end ].

(* ===================================================================== *)
(** * The plugin's computations: calls, counters, normal return *)
(* ===================================================================== *)

Section PluginFacts.

Context {World Handle : Type}.
Variable client : Client World Handle.
Variable TITLE_PROMPT : jsstring.

Local Abbreviation M := (M World Handle).
Local Abbreviation Call := (Call Handle).
Local Abbreviation State := (State World).

Implicit Types P : Call -> Prop.

(** *** Idle counters: nothing but the handler's own increment writes them *)

Lemma keeps_selectModel configModel :
  keeps_counts (selectModel client configModel).
Proof.
  assert (∀ providers failed priority,
            keeps_counts (fallback_loop client providers failed priority))
    as Hloop.
  { intros providers failed priority.
    induction priority as [|p rest IH]; simpl; unfold resolve; observe counts. }
  unfold selectModel, try_configured, resolve. observe counts.
Qed.

Lemma keeps_generateTitleFromContext context configModel :
  keeps_counts (generateTitleFromContext client TITLE_PROMPT context configModel).
Proof.
  pose proof keeps_selectModel.
  unfold generateTitleFromContext, notify_fallback, generate, clean_result_text.
  observe counts.
Qed.

Lemma keeps_updateSessionTitle sessionId config :
  keeps_counts (updateSessionTitle client TITLE_PROMPT sessionId config).
Proof.
  pose proof keeps_generateTitleFromContext.
  unfold updateSessionTitle, extractSmartContext. observe counts.
Qed.

Lemma keeps_isSubagentSession sessionId :
  keeps_counts (isSubagentSession client sessionId).
Proof. unfold isSubagentSession. observe counts. Qed.

(** *** Calls *)

Lemma only_selectModel P configModel :
  (∀ p m, P (GetLanguageModel p m)) -> P ListProviders ->
  only P (selectModel client configModel).
Proof.
  intros Hget Hlist.
  assert (∀ providers failed priority,
            only P (fallback_loop client providers failed priority))
    as Hloop.
  { intros providers failed priority.
    induction priority as [|p rest IH]; simpl; unfold resolve; observe calls. }
  unfold selectModel, try_configured, resolve. observe calls.
Qed.

Lemma only_generateTitleFromContext P context configModel :
  (∀ p m, P (GetLanguageModel p m)) -> P ListProviders ->
  (∀ msg, P (ShowToast msg)) -> (∀ h c, P (GenerateText h c)) ->
  only P (generateTitleFromContext client TITLE_PROMPT context configModel).
Proof.
  intros Hget Hlist Htoast Hgen.
  pose proof (only_selectModel P configModel Hget Hlist).
  unfold generateTitleFromContext, notify_fallback, generate, clean_result_text.
  observe calls.
Qed.

(** *** Normal return *)

Lemma never_throws_isSubagentSession sessionId :
  never_throws (isSubagentSession client sessionId).
Proof. unfold isSubagentSession. observe returns. Qed.

Lemma never_throws_updateSessionTitle sessionId config :
  never_throws (updateSessionTitle client TITLE_PROMPT sessionId config).
Proof. unfold updateSessionTitle. observe returns. Qed.

Lemma never_throws_event_handler config event :
  never_throws (event_handler client TITLE_PROMPT config event).
Proof.
  pose proof never_throws_isSubagentSession.
  unfold event_handler. observe returns.
Qed.

(** *** The event handler, step by step *)

Lemma isSubagentSession_run sessionId st :
  ∃ ok w,
    isSubagentSession client sessionId st
    = (inr (subagent_answer client sessionId (world st)),
       {| world := w; sessionIdleCount := sessionIdleCount st |},
       [(SessionGet sessionId, ok)]).
Proof.
  unfold isSubagentSession, subagent_answer; cbn beta.
  rewrite run_try_catch, run_bind. unfold await.
  destruct (session_get client sessionId (world st)) as [[[[|c p]|]|] w];
    simpl; eauto.
Qed.

(** The pipeline asks for the messages of its session first, and once. *)
Lemma updateSessionTitle_runs sessionId config st :
  pipeline_runs sessionId
    (updateSessionTitle client TITLE_PROMPT sessionId config st).2 = 1%nat.
Proof.
  set (P := fun c : Call => is_messages_call sessionId c = false).
  assert (∀ t : list (Call * bool),
            Forall (fun e => P e.1) t -> pipeline_runs sessionId t = 0%nat)
    as Hnone.
  { intros t Ht. unfold pipeline_runs.
    induction Ht as [|e t He _ IH]; [done|].
    rewrite filter_cons_False; [done|]. unfold P in He. congruence. }
  assert (∀ ok t, Forall (fun e => P e.1) t ->
            pipeline_runs sessionId ((SessionMessages sessionId, ok) :: t) = 1%nat)
    as Hone.
  { intros ok t Ht. apply Hnone in Ht. unfold pipeline_runs in *.
    rewrite filter_cons_True; [simpl; by rewrite Ht|].
    simpl. by apply bool_decide_eq_true. }
  unfold updateSessionTitle. rewrite run_try_catch, run_bind.
  unfold extractSmartContext at 1. rewrite run_bind. unfold await.
  destruct (session_messages client sessionId (world st)) as [[messages|] w];
    simpl; [|by apply Hone].
  set (st1 := {| world := w; sessionIdleCount := _ |}).
  set (k := if (length (extractTurns messages) =? 0)%nat then _ else _).
  assert (only P k) as Hk.
  { subst k.
    pose proof (only_generateTitleFromContext P) as Hgen.
    destruct (_ =? _)%nat; [observe calls|].
    apply only_bind; [by apply Hgen|].
    intros [[|c title]|]; observe calls. by apply only_await_unit. }
  specialize (Hk st1). destruct (k st1) as [[[e|[]] st2] t2]; simpl in *.
  - rewrite app_nil_r. by apply Hone.
  - by apply Hone.
Qed.

(** The handler on an idle notification: the parent lookup, then the
    increment, then the pipeline when the threshold divides the count. *)
Lemma event_handler_idle config sessionId st :
  ∃ ok w,
    let n := count_or_zero (sessionIdleCount st) sessionId + 1 in
    let st1 := {| world := w;
                  sessionIdleCount := <[sessionId := n]> (sessionIdleCount st) |} in
    event_handler client TITLE_PROMPT config (SessionIdle sessionId) st =
    if subagent_answer client sessionId (world st)
    then (inr tt, {| world := w; sessionIdleCount := sessionIdleCount st |},
          [(SessionGet sessionId, ok)])
    else if negb (Z.rem n (cfg_updateThreshold config) =? 0)
    then (inr tt, st1, [(SessionGet sessionId, ok)])
    else match updateSessionTitle client TITLE_PROMPT sessionId config st1 with
         | (_, st2, t2) => (inr tt, st2, (SessionGet sessionId, ok) :: t2)
         end.
Proof.
  destruct (isSubagentSession_run sessionId st) as (ok & w & Hsub).
  exists ok, w. cbn zeta. unfold event_handler.
  rewrite run_bind, Hsub.
  destruct (subagent_answer client sessionId (world st)); [done|].
  rewrite run_bind. unfold get_counts at 1. cbn [sessionIdleCount].
  rewrite run_bind. unfold set_count at 1. cbn [sessionIdleCount world].
  destruct (negb _); [done|].
  rewrite run_try_catch.
  destruct (updateSessionTitle _ _ _ _ _) as [[[e|[]] st2] t2]; simpl;
    by rewrite ?app_nil_r.
Qed.

Lemma event_handler_counts config event st :
  sessionIdleCount (event_handler client TITLE_PROMPT config event st).1.2
  = counts_after client event st.
Proof.
  destruct event as [sessionId|]; [|done].
  destruct (event_handler_idle config sessionId st) as (ok & w & ->).
  unfold counts_after.
  destruct (subagent_answer client sessionId (world st)); [done|].
  destruct (negb _); [done|].
  pose proof (keeps_updateSessionTitle sessionId config) as Hkeep.
  match goal with |- context [updateSessionTitle _ _ _ _ ?st1] =>
    specialize (Hkeep st1);
    destruct (updateSessionTitle client TITLE_PROMPT sessionId config st1)
      as [[r st2] t2]
  end.
  exact Hkeep.
Qed.

Lemma handle_all_cons config event events st :
  (handle_all client TITLE_PROMPT config (event :: events) st).1.2
  = (handle_all client TITLE_PROMPT config events
       (event_handler client TITLE_PROMPT config event st).1.2).1.2.
Proof.
  cbn [handle_all]. rewrite run_bind.
  destruct (never_throws_event_handler config event st)
    as [[] Hr].
  destruct (event_handler _ _ _ _ _) as [[r st1] t1]. simpl in Hr. subst r.
  by destruct (handle_all _ _ _ _ _) as [[r st2] t2].
Qed.

(** Whatever other events come in between, each idle notification of a
    session that is no sub-session adds one to its count. *)
Lemma handle_all_count config sessionId events st :
  never_subagent client sessionId ->
  count_or_zero
    (sessionIdleCount (handle_all client TITLE_PROMPT config events st).1.2)
    sessionId
  = count_or_zero (sessionIdleCount st) sessionId
    + Z.of_nat (idles sessionId events).
Proof.
  intros Hnever. revert st.
  induction events as [|event events IH]; intros st.
  - change ((handle_all client TITLE_PROMPT config [] st).1.2) with st.
    unfold idles. rewrite filter_nil. simpl length. lia.
  - rewrite handle_all_cons, IH. unfold idles.
    assert (count_or_zero
              (sessionIdleCount
                 (event_handler client TITLE_PROMPT config event st).1.2)
              sessionId
            = count_or_zero (sessionIdleCount st) sessionId
              + (if decide (event = SessionIdle sessionId) then 1 else 0)) as ->.
    { rewrite event_handler_counts. unfold counts_after.
      destruct event as [id|]; [|by rewrite decide_False by done; lia].
      destruct (decide (SessionIdle id = SessionIdle sessionId)) as [[= ->]|Hne].
      - rewrite Hnever. unfold count_or_zero at 1.
        by rewrite lookup_insert_eq.
      - assert (id ≠ sessionId) by congruence.
        destruct (subagent_answer client id (world st)); [lia|].
        unfold count_or_zero at 1. rewrite lookup_insert_ne by done.
        unfold count_or_zero. lia. }
    destruct (decide (event = SessionIdle sessionId)) as [->|Hne].
    + rewrite filter_cons_True by done. simpl. lia.
    + rewrite filter_cons_False by done. lia.
Qed.

End PluginFacts.

(* ===================================================================== *)
(** * UpdateCoordinator: the pipeline *)
(* ===================================================================== *)

Section Pipeline.

Context {World Handle : Type}.
Variable client : Client World Handle.
Variable TITLE_PROMPT : jsstring.

Local Abbreviation State := (State World).

(** [generateTitleFromContext], stage by stage. *)
Lemma generateTitleFromContext_run context configModel (st : State) :
  generateTitleFromContext client TITLE_PROMPT context configModel st =
  match selectModel client configModel st with
  | (inl _, st1, t1) => (inr None, st1, t1)
  | (inr selected, st1, t1) =>
      match (notify_fallback client selected;;
             generate client TITLE_PROMPT selected context) st1 with
      | (inr (Some raw), st2, t2) => (inr (Some (cleanTitle raw)), st2, t1 ++ t2)
      | (_, st2, t2) => (inr None, st2, t1 ++ t2)
      end
  end.
Proof.
  unfold generateTitleFromContext. rewrite run_try_catch, run_bind.
  destruct (selectModel client configModel st) as [[[e|selected] st1] t1];
    simpl; [by rewrite app_nil_r|].
  rewrite !run_bind.
  destruct (notify_fallback client selected st1) as [[[e|[]] st2] t2];
    simpl; [by rewrite app_nil_r|].
  rewrite run_bind.
  destruct (generate client TITLE_PROMPT selected context st2)
    as [[[e|[raw|]] st3] t3]; simpl; by rewrite ?app_nil_r.
Qed.

(** [updateSessionTitle], stage by stage: the title update is the last
    call, made when a title came out of the generation. *)
Lemma updateSessionTitle_run sessionId config (st : State) :
  updateSessionTitle client TITLE_PROMPT sessionId config st =
  match extractSmartContext client sessionId st with
  | (inl _, st1, t1) => (inr tt, st1, t1)
  | (inr turns, st1, t1) =>
      if (length turns =? 0)%nat then (inr tt, st1, t1)
      else
        match generateTitleFromContext client TITLE_PROMPT
                (formatContextForTitle turns (cfg_maxTurns config)
                   (cfg_maxCharsPerMessage config))
                (cfg_model config) st1 with
        | (inr (Some (c :: title)), st2, t2) =>
            match session_update client sessionId (c :: title) (world st2) with
            | (ok, w) =>
                (inr tt,
                 {| world := w; sessionIdleCount := sessionIdleCount st2 |},
                 t1 ++ t2 ++ [(SessionUpdate sessionId (c :: title), ok)])
            end
        | (_, st2, t2) => (inr tt, st2, t1 ++ t2)
        end
  end.
Proof.
  unfold updateSessionTitle. rewrite run_try_catch, run_bind.
  destruct (extractSmartContext client sessionId st) as [[[e|turns] st1] t1];
    simpl; [by rewrite app_nil_r|].
  destruct (length turns =? 0)%nat; simpl; [by rewrite app_nil_r|].
  rewrite run_bind.
  destruct (generateTitleFromContext _ _ _ _ _) as [[[e|[[|c title]|]] st2] t2];
    simpl; rewrite ?app_nil_r; try done.
  unfold await_unit, await.
  destruct (session_update client sessionId (c :: title) (world st2)) as [[] w];
    simpl; by rewrite ?app_nil_r.
Qed.

Lemma only_extractSmartContext (P : Call Handle -> Prop) sessionId :
  P (SessionMessages sessionId) ->
  only P (extractSmartContext client sessionId).
Proof. intros HP. unfold extractSmartContext. observe calls. Qed.

Lemma only_notify_generate (P : Call Handle -> Prop) selected context :
  (∀ msg, P (ShowToast msg)) -> (∀ h c, P (GenerateText h c)) ->
  only P (notify_fallback client selected;;
          generate client TITLE_PROMPT selected context).
Proof.
  intros Htoast Hgen. unfold notify_fallback, generate. observe calls.
Qed.

Lemma candidates_cons providers p rest :
  candidates providers (p :: rest) =
  if bool_decide (p ∈ providers)
  then match record_get FALLBACK_MODELS p with
       | Some m => (p, m) :: candidates providers rest
       | None => candidates providers rest
       end
  else candidates providers rest.
Proof. reflexivity. Qed.

(** The walk of the fallback loop. *)
Lemma fallback_loop_walked providers failed priority (st : State) :
  walked (candidates providers priority) failed
    (fallback_loop client providers failed priority st).1.1
    (fallback_loop client providers failed priority st).2.
Proof.
  revert st. induction priority as [|p rest IH]; intros st.
  - exists [], []. done.
  - rewrite candidates_cons. cbn [fallback_loop].
    destruct (bool_decide (p ∈ providers)); cbn [negb]; [|apply IH].
    destruct (record_get FALLBACK_MODELS p) as [m|]; [|apply IH].
    rewrite run_bind, run_try_catch, run_bind. unfold resolve, await.
    destruct (getLanguageModel client p m (world st)) as [[h|] w]; simpl.
    + exists [], (candidates providers rest). done.
    + set (st1 := {| world := w; sessionIdleCount := _ |}).
      destruct (IH st1) as (tried & untried & H).
      destruct (fallback_loop client providers failed rest st1)
        as [[[e|result] st2] t2]; simpl in *.
      * destruct H as (-> & -> & -> & ->). exists ((p, m) :: tried), []. done.
      * destruct H as (-> & -> & Hsrc & Hfailed).
        exists ((p, m) :: tried), untried. done.
Qed.

(** The candidates are the providers of the priority list that are
    authenticated and have a default model, in the order of the list. *)
Lemma candidates_sublist providers priority :
  (candidates providers priority).*1 `sublist_of` priority.
Proof.
  induction priority as [|p rest IH]; [constructor|].
  rewrite candidates_cons. destruct (bool_decide (p ∈ providers)).
  - destruct (record_get FALLBACK_MODELS p); by constructor.
  - by constructor.
Qed.

Lemma elem_of_candidates providers priority p m :
  (p, m) ∈ candidates providers priority
  <-> p ∈ priority ∧ p ∈ providers ∧ record_get FALLBACK_MODELS p = Some m.
Proof.
  induction priority as [|q rest IH].
  - split; [by intros ?%not_elem_of_nil|by intros [?%not_elem_of_nil _]].
  - rewrite candidates_cons, (elem_of_cons rest).
    destruct (bool_decide (q ∈ providers)) eqn:Eq.
    + apply bool_decide_eq_true in Eq.
      destruct (record_get FALLBACK_MODELS q) as [mq|] eqn:Em.
      * rewrite elem_of_cons, IH. split.
        -- intros [[= -> ->]|(? & ? & ?)]; auto.
        -- intros ([->|?] & ? & ?); [left; congruence|right; auto].
      * rewrite IH. split; [intros (? & ? & ?); auto|].
        intros ([->|?] & ? & ?); [congruence|auto].
    + apply bool_decide_eq_false in Eq. rewrite IH.
      split; [intros (? & ? & ?); auto|].
      intros ([->|?] & ? & ?); [done|auto].
Qed.

Lemma candidates_NoDup providers priority :
  NoDup priority -> NoDup (candidates providers priority).
Proof.
  intros H. apply (NoDup_fmap_1 fst).
  eapply sublist_NoDup; [|apply candidates_sublist]. done.
Qed.

(** [selectModel] either returns the configured model, or asks for the
    providers: when that call fails its failure is the outcome, and
    otherwise the candidates are walked. *)
Lemma selectModel_cases configModel (st : State) :
  let run := selectModel client configModel st in
  (∃ result,
      run.1.1 = inr result
      ∧ source result = config
      ∧ configured_ref configModel = Some (modelInfo result)
      ∧ (getLanguageModel client (providerID (modelInfo result))
           (modelID (modelInfo result)) (world st)).1 = Some (model result)
      ∧ run.2 = [attempt true (selected_candidate result)])
  ∨ (∃ before failed listed,
        ((configured_ref configModel = None ∧ failed = None ∧ before = []
          ∧ listed = (listProviders client (world st)).1)
         ∨ (∃ ref,
               configured_ref configModel = Some ref ∧ failed = Some ref
               ∧ (getLanguageModel client (providerID ref) (modelID ref)
                    (world st)).1 = None
               ∧ before = [attempt false (providerID ref, modelID ref)]
               ∧ listed =
                   (listProviders client
                      (getLanguageModel client (providerID ref) (modelID ref)
                         (world st)).2).1))
        ∧ match listed with
          | None =>
              run.1.1 = inl Rejected
              ∧ run.2 = before ++ [(ListProviders, false)]
          | Some providers =>
              ∃ t, run.2 = before ++ (ListProviders, true) :: t
                   ∧ walked (candidates providers PROVIDER_PRIORITY) failed
                       run.1.1 t
          end).
Proof.
  cbn zeta. unfold selectModel, try_configured.
  generalize PROVIDER_PRIORITY. intros priority.
  destruct (configured_ref configModel) as [ref|].
  - rewrite run_bind, run_try_catch, run_bind. unfold resolve, await.
    destruct (getLanguageModel client (providerID ref) (modelID ref) (world st))
      as [[h|] w] eqn:Eget; simpl.
    + left. eexists. repeat split. simpl. by rewrite Eget.
    + right. rewrite run_bind. unfold await. simpl.
      exists [attempt false (providerID ref, modelID ref)], (Some ref),
             (listProviders client w).1.
      split; [right; exists ref; by rewrite Eget|].
      destruct (listProviders client w) as [[providers|] w1] eqn:Elist;
        simpl; [|done].
      pose proof (fallback_loop_walked providers (Some ref) priority
                    {| world := w1; sessionIdleCount := sessionIdleCount st |})
        as Hwalk.
      destruct (fallback_loop _ _ _ _ _) as [[r st2] t2].
      cbn [fst snd app] in *. by exists t2.
  - right. rewrite run_bind. simpl. rewrite run_bind.
    unfold await. simpl.
    exists [], None, (listProviders client (world st)).1.
    split; [by left|].
    destruct (listProviders client (world st)) as [[providers|] w1] eqn:Elist;
      simpl; [|done].
    pose proof (fallback_loop_walked providers None priority
                  {| world := w1; sessionIdleCount := sessionIdleCount st |})
      as Hwalk.
    destruct (fallback_loop _ _ _ _ _) as [[r st2] t2].
    cbn [fst snd app] in *. by exists t2.
Qed.

End Pipeline.

(** A run of the pipeline ends in one of two ways. *)
Lemma pipeline_cases {World Handle}
    (client : Client World Handle) (TITLE_PROMPT : jsstring)
    (config : PluginConfig) (sessionId : jsstring) (st : State World) :
  let run := updateSessionTitle client TITLE_PROMPT sessionId config st in
  let quiet := Forall (fun e : Call Handle * bool => is_update_call e.1 = false) in
  run.1.1 = inr tt
  ∧ ((stage_failure client TITLE_PROMPT config sessionId st ∧ quiet run.2)
     ∨ (¬ stage_failure client TITLE_PROMPT config sessionId st
        ∧ ∃ calls raw ok,
            run.2 = calls ++ [(SessionUpdate sessionId (cleanTitle raw), ok)]
            ∧ quiet calls)).
Proof.
  cbn zeta. set (P := fun c : Call Handle => is_update_call c = false).
  rewrite updateSessionTitle_run. unfold stage_failure.
  pose proof (only_extractSmartContext client P sessionId eq_refl st) as Ht1.
  destruct (extractSmartContext client sessionId st) as [[[e|turns] st1] t1];
    simpl in Ht1; [by split; [|left]|].
  destruct turns as [|turn turns]; [by split; [|left; split; [left|]]|].
  cbn [length Nat.eqb].
  set (context := formatContextForTitle _ _ _).
  rewrite generateTitleFromContext_run.
  pose proof (only_selectModel client P (cfg_model config)
                (fun _ _ => eq_refl) eq_refl st1) as Ht2.
  destruct (selectModel client (cfg_model config) st1)
    as [[[e|selected] st2] t2]; simpl in Ht2.
  { split; [done|]. left. split; [by right|]. by apply Forall_app. }
  pose proof (only_notify_generate client TITLE_PROMPT P selected context
                (fun _ => eq_refl) (fun _ _ => eq_refl) st2) as Ht3.
  destruct ((notify_fallback client selected;;
             generate client TITLE_PROMPT selected context) st2)
    as [[[e|[raw|]] st3] t3]; simpl in Ht3.
  - split; [done|]. left. split; [by right|]. simpl. by rewrite !Forall_app.
  - pose proof (cleanTitle_not_empty raw) as Hne.
    destruct (cleanTitle raw) as [|c title] eqn:Eraw; [done|].
    destruct (session_update client sessionId (c :: title) (world st3))
      as [ok w].
    split; [done|]. right. split; [by intros [|[]]|].
    exists (t1 ++ t2 ++ t3), raw, ok. rewrite Eraw. split.
    + simpl. by rewrite <- !app_assoc.
    + simpl. by rewrite !Forall_app.
  - split; [done|]. left. split; [by right|]. simpl. by rewrite !Forall_app.
Qed.

(** C8. A run of the pipeline returns normally whatever happens. When a
    stage fails (the messages cannot be retrieved, there is no turn, no
    model can be selected, the generation fails, or there is no text to
    sanitize) the run makes no call to the title update; when no stage
    fails, the title update is its last call and its only one. The event
    handler returns normally on every event. *)
Theorem pipeline_failure_is_silent {World Handle}
    (client : Client World Handle) (TITLE_PROMPT : jsstring)
    (config : PluginConfig) (sessionId : jsstring) (st : State World) :
  let run := updateSessionTitle client TITLE_PROMPT sessionId config st in
  run.1.1 = inr tt
  ∧ (stage_failure client TITLE_PROMPT config sessionId st ->
     Forall (fun e => is_update_call e.1 = false) run.2)
  ∧ (¬ stage_failure client TITLE_PROMPT config sessionId st ->
     ∃ calls raw ok,
       run.2 = calls ++ [(SessionUpdate sessionId (cleanTitle raw), ok)]
       ∧ Forall (fun e => is_update_call e.1 = false) calls)
  ∧ (∀ event st0,
       (event_handler client TITLE_PROMPT config event st0).1.1 = inr tt).
Proof.
  cbn zeta.
  destruct (pipeline_cases client TITLE_PROMPT config sessionId st)
    as [Hret [[Hfail Hquiet]|[Hok Hupdate]]].
  - split; [done|]. split; [done|]. split; [done|].
    intros event st0.
    by destruct (never_throws_event_handler client TITLE_PROMPT config event st0)
      as [[] ->].
  - split; [done|]. split; [done|]. split; [done|].
    intros event st0.
    by destruct (never_throws_event_handler client TITLE_PROMPT config event st0)
      as [[] ->].
Qed.

(* ===================================================================== *)
(** * UpdateCoordinator: the threshold and the counters *)
(* ===================================================================== *)

Lemma rem_zero_mod_zero (n t : Z) :
  0 < t -> (Z.rem n t =? 0) = (n mod t =? 0).
Proof.
  intros Ht. apply eq_true_iff_eq. rewrite !Z.eqb_eq.
  rewrite Z.rem_divide, Z.mod_divide by lia. done.
Qed.

Lemma pipeline_runs_skip {Handle} (sessionId id : jsstring) ok
    (t : list (Call Handle * bool)) :
  pipeline_runs sessionId ((SessionGet id, ok) :: t) = pipeline_runs sessionId t.
Proof. unfold pipeline_runs. by rewrite filter_cons_False by done. Qed.

(** C3. On an idle notification of a session that is no sub-session the
    handler returns normally, sets the session's count to one more than it
    was (from 0 when the session has no entry), and starts the title-update
    pipeline exactly when the new count is a multiple of the positive
    threshold. Over any sequence of events the count grows by the number of
    the session's idle notifications. With threshold 3 and a session
    without entry, three notifications in a row start the pipeline once, at
    the third; with threshold 1 every notification starts it. *)
Theorem onIdle_threshold {World Handle} (client : Client World Handle)
    (TITLE_PROMPT : jsstring) (config : PluginConfig) (sessionId : jsstring) :
  0 < cfg_updateThreshold config ->
  never_subagent client sessionId ->
  let threshold := cfg_updateThreshold config in
  let onIdle := event_handler client TITLE_PROMPT config (SessionIdle sessionId) in
  (∀ st,
     let n := count_or_zero (sessionIdleCount st) sessionId + 1 in
     (onIdle st).1.1 = inr tt
     ∧ sessionIdleCount (onIdle st).1.2 !! sessionId = Some n
     ∧ pipeline_runs sessionId (onIdle st).2
       = if n mod threshold =? 0 then 1%nat else 0%nat)
  ∧ (∀ events st,
       count_or_zero
         (sessionIdleCount
            (handle_all client TITLE_PROMPT config events st).1.2) sessionId
       = count_or_zero (sessionIdleCount st) sessionId
         + Z.of_nat (idles sessionId events))
  ∧ (threshold = 3 ->
     ∀ st, sessionIdleCount st !! sessionId = None ->
       let r1 := onIdle st in
       let r2 := onIdle r1.1.2 in
       let r3 := onIdle r2.1.2 in
       pipeline_runs sessionId r1.2 = 0%nat
       ∧ pipeline_runs sessionId r2.2 = 0%nat
       ∧ pipeline_runs sessionId r3.2 = 1%nat)
  ∧ (threshold = 1 -> ∀ st, pipeline_runs sessionId (onIdle st).2 = 1%nat).
Proof.
  intros Hpos Hnever threshold onIdle.
  assert (∀ st,
     let n := count_or_zero (sessionIdleCount st) sessionId + 1 in
     (onIdle st).1.1 = inr tt
     ∧ sessionIdleCount (onIdle st).1.2 !! sessionId = Some n
     ∧ pipeline_runs sessionId (onIdle st).2
       = if n mod threshold =? 0 then 1%nat else 0%nat) as Hstep.
  { intros st n. subst onIdle.
    pose proof (event_handler_counts client TITLE_PROMPT config
                  (SessionIdle sessionId) st) as Hcounts.
    destruct (event_handler_idle client TITLE_PROMPT config sessionId st)
      as (ok & w & Hrun).
    cbn zeta in Hrun. unfold counts_after in Hcounts.
    rewrite Hnever in Hrun, Hcounts. fold n in Hrun, Hcounts.
    rewrite Hcounts, lookup_insert_eq.
    rewrite rem_zero_mod_zero in Hrun by done. fold threshold in Hrun.
    rewrite Hrun. destruct (n mod threshold =? 0); simpl; [|done].
    pose proof (updateSessionTitle_runs client TITLE_PROMPT sessionId config
                  {| world := w;
                     sessionIdleCount := <[sessionId:=n]> (sessionIdleCount st) |})
      as Hruns.
    destruct (updateSessionTitle _ _ _ _ _) as [[r st2] t2].
    simpl in *. by rewrite pipeline_runs_skip. }
  split; [exact Hstep|]. split; [|split].
  - intros events st. by apply handle_all_count.
  - intros H3 st Hnone r1 r2 r3.
    destruct (Hstep st) as (_ & Hc1 & Hp1).
    destruct (Hstep r1.1.2) as (_ & Hc2 & Hp2).
    destruct (Hstep r2.1.2) as (_ & Hc3 & Hp3).
    fold r1 in Hc1, Hp1. fold r2 in Hc2, Hp2. fold r3 in Hp3.
    assert (count_or_zero (sessionIdleCount st) sessionId = 0) as E0
      by (unfold count_or_zero; by rewrite Hnone).
    rewrite E0 in Hc1, Hp1.
    assert (count_or_zero (sessionIdleCount r1.1.2) sessionId = 1) as E1
      by (unfold count_or_zero; by rewrite Hc1).
    rewrite E1 in Hc2, Hp2.
    assert (count_or_zero (sessionIdleCount r2.1.2) sessionId = 2) as E2
      by (unfold count_or_zero; by rewrite Hc2).
    rewrite E2 in Hp3. rewrite H3 in *. done.
  - intros H1 st. destruct (Hstep st) as (_ & _ & ->).
    rewrite H1, Z.mod_1_r. done.
Qed.

Lemma onIdle_threshold_witness :
  let onIdle :=
    event_handler (working_client None) [] (example_config 3)
      (SessionIdle (lit "ses_1")) in
  let r1 := onIdle fresh_state in
  let r2 := onIdle r1.1.2 in
  let r3 := onIdle r2.1.2 in
  pipeline_runs (lit "ses_1") r1.2 = 0%nat
  ∧ pipeline_runs (lit "ses_1") r2.2 = 0%nat
  ∧ pipeline_runs (lit "ses_1") r3.2 = 1%nat.
Proof.
  destruct (onIdle_threshold (working_client None) [] (example_config 3)
              (lit "ses_1")) as (_ & _ & H3 & _).
  - reflexivity.
  - intros w. reflexivity.
  - apply H3; reflexivity.
Defined.

(** C10. An idle notification for a session leaves the count of every
    other session as it is, and when the session is found to be a
    sub-session the whole table stays as it is, the session's own entry
    included. *)
Theorem onIdle_frame {World Handle} (client : Client World Handle)
    (TITLE_PROMPT : jsstring) (config : PluginConfig) (sessionId : jsstring)
    (st : State World) :
  let st' :=
    (event_handler client TITLE_PROMPT config (SessionIdle sessionId) st).1.2 in
  (∀ other, other ≠ sessionId ->
     sessionIdleCount st' !! other = sessionIdleCount st !! other)
  ∧ (subagent_answer client sessionId (world st) = true ->
     sessionIdleCount st' = sessionIdleCount st).
Proof.
  cbn zeta. rewrite event_handler_counts. unfold counts_after.
  destruct (subagent_answer client sessionId (world st)); split; try done.
  intros other Hne. by rewrite lookup_insert_ne.
Qed.

Lemma onIdle_frame_witness :
  let st0 : State nat :=
    {| world := 0%nat; sessionIdleCount := {[ lit "ses_2" := 5 ]} |} in
  let child :=
    (event_handler (working_client (Some (lit "ses_1"))) [] (example_config 1)
       (SessionIdle (lit "ses_child")) st0).1.2 in
  let main :=
    (event_handler (working_client None) [] (example_config 1)
       (SessionIdle (lit "ses_1")) st0).1.2 in
  sessionIdleCount main !! lit "ses_2" = Some 5
  ∧ sessionIdleCount child = {[ lit "ses_2" := 5 ]}.
Proof.
  split.
  - destruct (onIdle_frame (working_client None) [] (example_config 1)
                (lit "ses_1")
                {| world := 0%nat; sessionIdleCount := {[ lit "ses_2" := 5 ]} |})
      as [H _].
    rewrite H; [reflexivity|discriminate].
  - destruct (onIdle_frame (working_client (Some (lit "ses_1"))) []
                (example_config 1) (lit "ses_child")
                {| world := 0%nat; sessionIdleCount := {[ lit "ses_2" := 5 ]} |})
      as [_ H].
    apply H. reflexivity.
Defined.

(* ===================================================================== *)
(** * ModelSelector *)
(* ===================================================================== *)

(** Closes [s ∈ l -> False] for a string and a literal list of strings. *)
Ltac not_in_literal_list :=
  let H := fresh in
  intros H; apply list_elem_of_In in H; vm_compute in H;
  repeat (destruct H as [H|H]; [discriminate H|]); exact H.

Lemma PROVIDER_PRIORITY_NoDup : NoDup PROVIDER_PRIORITY.
Proof. apply (bool_decide_unpack _). by vm_compute. Qed.

Lemma candidates_no_provider priority : candidates ∅ priority = [].
Proof.
  induction priority as [|p rest IH]; [done|].
  rewrite candidates_cons. by rewrite bool_decide_eq_false_2 by set_solver.
Qed.

(** C5. A selection that does not return the configured model lists the
    authenticated providers and then walks the candidates: the providers
    of the fixed priority list, in its order, that are authenticated and
    have a default model, each of them once. It attempts them one after
    the other; every attempt before the last failed and the walk went on;
    on success the result has source [fallback] and the candidates behind
    the resolved one are never attempted; the walk ends in the error only
    when every candidate was attempted. (When the listing itself fails
    there is no walk: the selection ends with that failure and attempts no
    candidate.) *)
Theorem fallback_walk {World Handle} (client : Client World Handle)
    (configModel : option jsstring) (st : State World) :
  let run := selectModel client configModel st in
  (∃ result,
      run.1.1 = inr result ∧ source result = config
      ∧ run.2 = [attempt true (selected_candidate result)])
  ∨ (∃ before,
       (∃ w, (listProviders client w).1 = None)
       ∧ Forall (fun e => e.2 = false) before
       ∧ run.1.1 = inl Rejected
       ∧ run.2 = before ++ [(ListProviders, false)])
  ∨ (∃ before providers tried untried,
       let walk := candidates providers PROVIDER_PRIORITY in
       (∃ w, (listProviders client w).1 = Some providers)
       ∧ walk.*1 `sublist_of` PROVIDER_PRIORITY
       ∧ (∀ p m, (p, m) ∈ walk
                 <-> p ∈ PROVIDER_PRIORITY ∧ p ∈ providers
                     ∧ record_get FALLBACK_MODELS p = Some m)
       ∧ NoDup walk
       ∧ Forall (fun e => e.2 = false) before
       ∧ match run.1.1 with
         | inr result =>
             walk = tried ++ selected_candidate result :: untried
             ∧ run.2 = before ++ (ListProviders, true)
                         :: map (attempt false) tried
                         ++ [attempt true (selected_candidate result)]
             ∧ source result = fallback
         | inl e =>
             walk = tried ∧ untried = []
             ∧ run.2 = before ++ (ListProviders, true)
                         :: map (attempt false) tried
             ∧ e = NoAvailableModels
         end).
Proof.
  cbn zeta.
  destruct (selectModel_cases client configModel st)
    as [(result & Hr & Hsrc & _ & _ & Ht)
       |(before & failed & listed & Hcfg & Hrun)].
  { left. by exists result. }
  right.
  assert (∃ w, (listProviders client w).1 = listed) as Hlisted.
  { destruct Hcfg as [(_ & _ & _ & ->)|(ref & _ & _ & _ & _ & ->)]; eauto. }
  assert (Forall (fun e : Call Handle * bool => e.2 = false) before) as Hbefore.
  { destruct Hcfg as [(_ & _ & -> & _)|(ref & _ & _ & _ & -> & _)];
      by repeat constructor. }
  destruct listed as [providers|].
  - right. destruct Hrun as (t & Ht & tried & untried & Hwalk).
    exists before, providers, tried, untried.
    split; [done|].
    split; [apply candidates_sublist|].
    split; [apply elem_of_candidates|].
    split; [apply candidates_NoDup, PROVIDER_PRIORITY_NoDup|].
    split; [done|].
    rewrite Ht.
    destruct (selectModel client configModel st).1.1 as [e|result].
    + destruct Hwalk as (-> & -> & -> & ->). done.
    + destruct Hwalk as (-> & -> & Hsrc & _). done.
  - left. destruct Hrun as [Hr Ht]. by exists before.
Qed.

(** A walk whose candidates never resolve ends in the error. *)
Lemma fallback_loop_exhausted {World Handle} (client : Client World Handle)
    providers failed priority (st : State World) :
  Forall (never_resolves client) (candidates providers priority) ->
  (fallback_loop client providers failed priority st).1.1
  = inl NoAvailableModels.
Proof.
  revert st. induction priority as [|p rest IH]; intros st Hnever; [done|].
  rewrite candidates_cons in Hnever. cbn [fallback_loop].
  destruct (bool_decide (p ∈ providers)); cbn [negb]; [|by apply IH].
  destruct (record_get FALLBACK_MODELS p) as [m|]; [|by apply IH].
  apply Forall_cons in Hnever as [Hp Hnever].
  rewrite run_bind, run_try_catch, run_bind. unfold resolve, await.
  specialize (Hp (world st)). simpl in Hp.
  destruct (getLanguageModel client p m (world st)) as [r w].
  simpl in Hp. subst r. simpl.
  specialize (IH {| world := w; sessionIdleCount := sessionIdleCount st |} Hnever).
  destruct (fallback_loop client providers failed rest _) as [[r st2] t2].
  simpl in *. by subst r.
Qed.

(** A selection whose configured model is out and whose candidates never
    resolve ends in the error, when the registry answers. *)
Lemma selectModel_exhausted {World Handle} (client : Client World Handle)
    (configModel : option jsstring) (st : State World) providers :
  (∀ ref, configured_ref configModel = Some ref ->
     (getLanguageModel client (providerID ref) (modelID ref) (world st)).1
     = None) ->
  (∀ w, (listProviders client w).1 = Some providers) ->
  Forall (never_resolves client) (candidates providers PROVIDER_PRIORITY) ->
  (selectModel client configModel st).1.1 = inl NoAvailableModels.
Proof.
  intros Hout Hlist Hnever. unfold selectModel, try_configured.
  pose proof (fun failed =>
                fallback_loop_exhausted client providers failed
                  PROVIDER_PRIORITY) as Hloop.
  specialize (fun failed st1 => Hloop failed st1 Hnever).
  clear Hnever. revert Hloop. generalize PROVIDER_PRIORITY.
  intros priority Hloop.
  destruct (configured_ref configModel) as [ref|].
  - specialize (Hout ref eq_refl).
    rewrite run_bind, run_try_catch, run_bind. unfold resolve, await.
    destruct (getLanguageModel client (providerID ref) (modelID ref) (world st))
      as [r w]. simpl in Hout. subst r. simpl.
    rewrite run_bind. unfold await. simpl.
    specialize (Hlist w).
    destruct (listProviders client w) as [listed w1]. simpl in Hlist.
    subst listed. simpl.
    specialize (Hloop (Some ref)
                  {| world := w1; sessionIdleCount := sessionIdleCount st |}).
    destruct (fallback_loop _ _ _ _ _) as [[r st2] t2]. simpl in *. by subst r.
  - rewrite run_bind. simpl. rewrite run_bind. unfold await. simpl.
    specialize (Hlist (world st)).
    destruct (listProviders client (world st)) as [listed w1]. simpl in Hlist.
    subst listed. simpl.
    specialize (Hloop None
                  {| world := w1; sessionIdleCount := sessionIdleCount st |}).
    destruct (fallback_loop _ _ _ _ _) as [[r st2] t2]. simpl in *. by subst r.
Qed.

(** C4, amended. Write "the configured model is out" for: it is absent,
    malformed, or its resolution fails.
    - When the registry answers with no provider at all and the configured
      model is out, the selection ends in the "no available models" error,
      after the listing and without attempting any candidate.
    - A configured model that resolves is returned with source [config],
      whatever the registry would answer, also no provider at all: having
      no authenticated provider does not by itself make the selection
      fail.
    - A selection ends in an error in two outcomes only, both with the
      configured model out: the listing of the providers fails, its
      failure is the error of the selection and no candidate is attempted;
      or the listing answers, every candidate of the walk is attempted and
      fails, and the error is "no available models".
    - Both outcomes occur: with the configured model out, a registry that
      fails gives its failure, and a registry that answers, with
      candidates that never resolve, gives "no available models".
    - A selection that returns a result ends with the successful
      resolution of its model. *)
Theorem selectModel_exhaustion {World Handle} (client : Client World Handle)
    (configModel : option jsstring) (st : State World) :
  let run := selectModel client configModel st in
  let configured_out :=
    ∀ ref, configured_ref configModel = Some ref ->
      (getLanguageModel client (providerID ref) (modelID ref) (world st)).1
      = None in
  ((∀ w, (listProviders client w).1 = Some ∅) -> configured_out ->
   run.1.1 = inl NoAvailableModels
   ∧ ∃ before, run.2 = before ++ [(ListProviders, true)]
               ∧ Forall (fun e => e.2 = false) before)
  ∧ (∀ ref h,
       configured_ref configModel = Some ref ->
       (getLanguageModel client (providerID ref) (modelID ref) (world st)).1
       = Some h ->
       ∃ result, run.1.1 = inr result ∧ source result = config
                 ∧ modelInfo result = ref ∧ model result = h
                 ∧ Forall (fun e => e.1 ≠ ListProviders) run.2)
  ∧ (∀ e, run.1.1 = inl e ->
       configured_out
       ∧ ((e = Rejected
           ∧ (∃ w, (listProviders client w).1 = None)
           ∧ ∃ before, run.2 = before ++ [(ListProviders, false)]
                       ∧ Forall (fun e => e.2 = false) before)
          ∨ (e = NoAvailableModels
             ∧ (∃ providers w,
                  (listProviders client w).1 = Some providers
                  ∧ ∀ candidate,
                      candidate ∈ candidates providers PROVIDER_PRIORITY ->
                      attempt false candidate ∈ run.2)
             ∧ Forall (fun e => e.2 = true -> e.1 = ListProviders) run.2)))
  ∧ ((∀ w, (listProviders client w).1 = None) -> configured_out ->
     run.1.1 = inl Rejected)
  ∧ (∀ providers,
       (∀ w, (listProviders client w).1 = Some providers) ->
       Forall (never_resolves client) (candidates providers PROVIDER_PRIORITY) ->
       configured_out ->
       run.1.1 = inl NoAvailableModels)
  ∧ (∀ result, run.1.1 = inr result ->
       ∃ calls, run.2 = calls ++ [attempt true (selected_candidate result)]).
Proof.
  cbn zeta.
  destruct (selectModel_cases client configModel st)
    as [(result & Hr & Hsrc & Href & Hget & Ht)
       |(before & failed & listed & Hcfg & Hrun)].
  - split; [|split; [|split; [|split; [|split]]]].
    + intros _ Hout. specialize (Hout _ Href). congruence.
    + intros ref h Href' Hget'. exists result.
      assert (ref = modelInfo result) as -> by congruence.
      split; [done|]. split; [done|]. split; [done|].
      split; [congruence|]. rewrite Ht. by repeat constructor.
    + intros e He. congruence.
    + intros _ Hout. specialize (Hout _ Href). congruence.
    + intros providers _ _ Hout. specialize (Hout _ Href). congruence.
    + intros result' Hr'. rewrite Hr in Hr'. injection Hr' as <-.
      by exists [].
  - assert (∃ w, (listProviders client w).1 = listed) as [wp Hp].
    { destruct Hcfg as [(_ & _ & _ & ->)|(ref & _ & _ & _ & _ & ->)]; eauto. }
    assert (Forall (fun e : Call Handle * bool => e.2 = false) before) as Hbefore.
    { destruct Hcfg as [(_ & _ & -> & _)|(ref & _ & _ & _ & -> & _)];
        by repeat constructor. }
    assert (∀ ref, configured_ref configModel = Some ref ->
              (getLanguageModel client (providerID ref) (modelID ref)
                 (world st)).1 = None) as Hout.
    { destruct Hcfg as [(Hnone & _)|(ref & Href & _ & Hget & _)];
        intros ref' Href'; congruence. }
    split; [|split; [|split; [|split; [|split]]]].
    + intros Hnone _. rewrite Hnone in Hp. subst listed.
      destruct Hrun as (t & Ht & tried & untried & Hwalk).
      rewrite candidates_no_provider in Hwalk. rewrite Ht.
      destruct (selectModel client configModel st).1.1 as [e|result].
      * destruct Hwalk as (<- & _ & -> & ->). split; [done|]. by exists before.
      * destruct Hwalk as (Hnil & _). by destruct tried.
    + intros ref h Href Hget. specialize (Hout _ Href). congruence.
    + intros e He. split; [done|]. destruct listed as [providers|].
      * right. destruct Hrun as (t & Ht & tried & untried & Hwalk).
        rewrite He in Hwalk. destruct Hwalk as (Hc & _ & -> & ->).
        split; [done|]. rewrite Ht. split.
        -- exists providers, wp. split; [done|]. intros candidate Hcand.
           rewrite Hc in Hcand.
           apply elem_of_app. right. apply elem_of_cons. right.
           by apply list_elem_of_fmap_2.
        -- apply Forall_app. split.
           ++ eapply Forall_impl; [exact Hbefore|].
              intros [c ok]; simpl. congruence.
           ++ constructor; [done|]. apply Forall_fmap, Forall_true. by intros c.
      * left. destruct Hrun as [Hr Ht]. split; [congruence|].
        split; [by exists wp|]. by exists before.
    + intros Hfails _. rewrite Hfails in Hp. subst listed. by destruct Hrun.
    + intros providers Hlist Hnever _.
      by apply (selectModel_exhausted client configModel st providers).
    + intros result Hr. destruct listed as [providers|].
      * destruct Hrun as (t & Ht & tried & untried & Hwalk).
        rewrite Hr in Hwalk. destruct Hwalk as (_ & -> & _). rewrite Ht.
        exists (before ++ (ListProviders, true) :: map (attempt false) tried).
        by rewrite <- app_assoc.
      * destruct Hrun as [Hr' _]. congruence.
Qed.

Lemma selectModel_exhaustion_witness :
  (selectModel (scripted_client [] (fun _ _ _ => false) None None None)
     (Some (lit "openai/gpt-5-mini")) fresh_state).1.1
  = inl NoAvailableModels
  ∧ (selectModel registry_failing_client None fresh_state).1.1 = inl Rejected.
Proof.
  split.
  - destruct (selectModel_exhaustion
                (scripted_client [] (fun _ _ _ => false) None None None)
                (Some (lit "openai/gpt-5-mini")) fresh_state) as [H _].
    apply H.
    + intros w. reflexivity.
    + intros ref Href. reflexivity.
  - destruct (selectModel_exhaustion registry_failing_client None fresh_state)
      as (_ & _ & _ & H & _).
    apply H.
    + intros w. reflexivity.
    + intros ref Href. discriminate Href.
Defined.

(** C4, as stated, fails on both counts. With no authenticated provider
    at all, a configured model that resolves is returned: the selection
    does not fail. And a registry whose listing fails makes the selection
    end in that failure, which is not the "no available models" error and
    comes before any candidate is attempted. *)
Lemma selectModel_no_provider_returns :
  let client := scripted_client [] (fun _ _ _ => true) None None None in
  let returned :=
    selectModel client (Some (lit "openai/gpt-5-mini")) fresh_state in
  let failed := selectModel registry_failing_client None fresh_state in
  (∀ w, (listProviders client w).1 = Some ∅)
  ∧ (∃ result, returned.1.1 = inr result ∧ source result = config)
  ∧ returned.1.1 ≠ inl NoAvailableModels
  ∧ failed.1.1 = inl Rejected
  ∧ failed.1.1 ≠ inl NoAvailableModels
  ∧ failed.2 = [(ListProviders, false)].
Proof.
  cbn zeta. split; [done|]. split; [|done].
  eexists. split; [vm_compute; reflexivity|done].
Qed.

Lemma pipeline_failure_is_silent_witness :
  let run :=
    updateSessionTitle
      (scripted_client [] (fun _ _ _ => true) None
         (Some [user_message (lit "How do I fix this bug?") 1])
         (Some (Some (lit "Fixing bug"))))
      [] (lit "ses_1") (example_config 1) fresh_state in
  run.1.1 = inr tt ∧ Forall (fun e => is_update_call e.1 = false) run.2.
Proof.
  destruct (pipeline_failure_is_silent
              (scripted_client [] (fun _ _ _ => true) None
                 (Some [user_message (lit "How do I fix this bug?") 1])
                 (Some (Some (lit "Fixing bug"))))
              [] (example_config 1) (lit "ses_1") fresh_state)
    as (Hret & Hquiet & _).
  split; [exact Hret|]. apply Hquiet. vm_compute. right. exact I.
Defined.

(** C1, at the configured string of the specification's example: the
    string has three segments, so [selectModel] takes the invalid-format
    branch; it behaves as if no model were configured and never asks for
    a model of the provider "nvidia". *)
Theorem namespaced_model_rejected {World Handle} (client : Client World Handle)
    (st : State World) :
  let configModel := Some (lit "nvidia/meta/llama-3.3-70b-instruct") in
  split SLASH (lit "nvidia/meta/llama-3.3-70b-instruct")
    = [lit "nvidia"; lit "meta"; lit "llama-3.3-70b-instruct"]
  ∧ configured_ref configModel = None
  ∧ selectModel client configModel st = selectModel client None st
  ∧ ∀ m ok, (GetLanguageModel (lit "nvidia") m, ok)
            ∉ (selectModel client configModel st).2.
Proof.
  cbn zeta. split; [reflexivity|]. split; [reflexivity|]. split; [reflexivity|].
  intros m ok Hin.
  destruct (selectModel_cases client
              (Some (lit "nvidia/meta/llama-3.3-70b-instruct")) st)
    as [(result & _ & _ & Href & _)
       |(before & failed & listed & Hcfg & Hrun)].
  { discriminate Href. }
  destruct Hcfg as [(_ & _ & -> & _)|(ref & Href & _)]; [|discriminate Href].
  destruct listed as [providers|]; cycle 1.
  { destruct Hrun as [_ Ht]. rewrite Ht in Hin.
    apply list_elem_of_singleton in Hin. discriminate Hin. }
  destruct Hrun as (t & Ht & tried & untried & Hwalk).
  rewrite Ht in Hin. apply elem_of_cons in Hin as [Hin|Hin]; [discriminate Hin|].
  assert (∃ candidate, candidate ∈ candidates providers PROVIDER_PRIORITY
                       ∧ candidate.1 = lit "nvidia") as ((p & m') & Hc & Hp).
  { destruct (selectModel client _ st).1.1 as [e|result].
    - destruct Hwalk as (-> & _ & -> & _).
      apply list_elem_of_fmap in Hin as (c & [= Hp _ _] & Hc). eauto.
    - destruct Hwalk as (-> & -> & _).
      apply elem_of_app in Hin as [Hin|Hin].
      + apply list_elem_of_fmap in Hin as (c & [= Hp _ _] & Hc).
        exists c. split; [|done]. apply elem_of_app. by left.
      + apply list_elem_of_singleton in Hin. injection Hin as Hp _ _.
        exists (selected_candidate result). split; [|done].
        apply elem_of_app. right. by left. }
  apply elem_of_candidates in Hc as (Hprio & _). simpl in Hp. subst p.
  revert Hprio. not_in_literal_list.
Qed.

(** C2, at a history of two user messages with no reply in between: the
    first turn is dropped when the second user message closes it, and one
    turn comes out for the two user messages. With a reply in between,
    both turns come out. *)
Theorem extractTurns_unanswered_turn_dropped :
  let unanswered :=
    [user_message (lit "first") 1; user_message (lit "second") 2] in
  let answered :=
    [user_message (lit "first") 1; assistant_message (lit "reply") 2;
     user_message (lit "second") 3] in
  extractTurns unanswered = [user_turn (lit "second") 2]
  ∧ length (filter (fun m => msg_role m = user) unanswered) = 2%nat
  ∧ length (extractTurns unanswered) = 1%nat
  ∧ length (extractTurns answered) = 2%nat.
Proof. repeat split. Qed.

(** What the guard of [selectModel] accepts: a configured string with
    exactly one separator is read as provider and model. *)
Lemma split_without_sep sep s : sep ∉ s -> split sep s = [s].
Proof.
  induction s as [|c s IH]; [done|].
  intros [Hc Hs]%not_elem_of_cons. simpl.
  destruct (c =? sep)%N eqn:E; [apply N.eqb_eq in E; congruence|].
  by rewrite IH.
Qed.

Lemma split_at_sep sep p s :
  sep ∉ p -> split sep (p ++ sep :: s) = p :: split sep s.
Proof.
  induction p as [|c p IH]; intros Hp; simpl.
  - by rewrite N.eqb_refl.
  - apply not_elem_of_cons in Hp as [Hc Hp].
    destruct (c =? sep)%N eqn:E; [apply N.eqb_eq in E; congruence|].
    by rewrite IH.
Qed.

Lemma configured_ref_two_segments p m :
  SLASH ∉ p -> SLASH ∉ m ->
  configured_ref (Some (p ++ SLASH :: m))
  = Some {| providerID := p; modelID := m |}.
Proof.
  intros Hp Hm. unfold configured_ref.
  rewrite split_at_sep, split_without_sep by done.
  by destruct p.
Qed.

(* ===================================================================== *)
(** * The examples of the specification, run on the code *)
(* ===================================================================== *)

Example truncate_short : truncate (lit "short") 10 = lit "short".
Proof. reflexivity. Qed.

Example truncate_long : truncate (lit "a long message") 6 = lit "a long...".
Proof. reflexivity. Qed.

Example one_user_message :
  extractTurns [user_message (lit "hello") 1] = [user_turn (lit "hello") 1].
Proof. reflexivity. Qed.

Example reply_in_between :
  extractTurns [user_message (lit "first") 1; assistant_message (lit "reply") 2;
                user_message (lit "second") 3]
  = [ {| user_text := lit "first"; user_time := 1;
         turn_assistant := Some {| first := lit "reply"; last := lit "reply";
                                   time := 2 |} |};
      user_turn (lit "second") 3 ].
Proof. reflexivity. Qed.

Example format_one_reply :
  formatContextForTitle
    [ {| user_text := lit "first"; user_time := 1;
         turn_assistant := Some {| first := lit "reply"; last := lit "reply";
                                   time := 2 |} |} ] 3 100
  = lit "User: first" ++ [LF; LF] ++ lit "Assistant: reply" ++ [LF].
Proof. reflexivity. Qed.

Example configured_model_selected :
  let run := selectModel (working_client None) (Some (lit "openai/gpt-5-mini"))
               fresh_state in
  ∃ result,
    run.1.1 = inr result
    ∧ source result = config
    ∧ modelInfo result
      = {| providerID := lit "openai"; modelID := lit "gpt-5-mini" |}.
Proof. eexists. repeat split. Qed.

Example badformat_falls_back :
  let run := selectModel (working_client None) (Some (lit "badformat"))
               fresh_state in
  (∃ result, run.1.1 = inr result ∧ source result = fallback)
  ∧ run.2 = [(ListProviders, true);
             (GetLanguageModel (lit "openai") (lit "gpt-5-mini"), true)].
Proof. split; [eexists; repeat split|reflexivity]. Qed.

Example title_updated :
  (updateSessionTitle (working_client None) [] (lit "ses_1") (example_config 1)
     fresh_state).2
  = [ (SessionMessages (lit "ses_1"), true);
      (ListProviders, true);
      (GetLanguageModel (lit "openai") (lit "gpt-5-mini"), true);
      (GenerateText {| providerID := lit "openai"; modelID := lit "gpt-5-mini" |}
         (title_request []
            (lit "User: How do I fix this bug?" ++ [LF])), true);
      (SessionUpdate (lit "ses_1") (lit "Fixing bug"), true) ].
Proof. reflexivity. Qed.

(* ===================================================================== *)
(** * ContextExtractor: what the grouping keeps and what it drops *)
(* ===================================================================== *)

Lemma extractTextOnly_trimmed parts :
  trim (extractTextOnly parts) = extractTextOnly parts.
Proof. apply trim_idem. Qed.

(** Messages that are no user messages leave the turns and the open turn
    as they are, and add their assistant texts to the collection. *)
Lemma group_fold_no_user messages g :
  Forall (fun msg => msg_role msg ≠ user) messages ->
  fold_left group_step messages g
  = {| turns := turns g; currentTurn := currentTurn g;
       assistantMessagesInTurn := assistantMessagesInTurn g ++ collected messages |}.
Proof.
  intros H. revert g. induction H as [|msg messages Hmsg _ IH]; intros g.
  - simpl. rewrite app_nil_r. by destruct g.
  - cbn [fold_left]. rewrite IH. unfold collected. cbn [flat_map].
    unfold group_step. destruct (msg_role msg); [done| |].
    + destruct (0 <? len (extractTextOnly (msg_parts msg))); simpl.
      * by rewrite <- app_assoc.
      * done.
    + done.
Qed.

Lemma collected_conversation messages :
  collected
    (filter (fun msg => msg_role msg = user ∨ msg_role msg = assistant) messages)
  = collected messages.
Proof.
  induction messages as [|msg messages IH]; [done|].
  destruct (msg_role msg) eqn:E.
  - rewrite filter_cons_True by auto. unfold collected in *.
    cbn [flat_map]. by rewrite IH.
  - rewrite filter_cons_True by auto. unfold collected in *.
    cbn [flat_map]. by rewrite IH.
  - rewrite filter_cons_False by (rewrite E; intros [|]; done).
    unfold collected in *. cbn [flat_map]. rewrite E. exact IH.
Qed.

(** X1. A history without a user message gives no turn at all: the empty
    history, and assistant or system messages alone, are dropped. *)
Theorem extractTurns_no_user (messages : list Message) :
  Forall (fun msg => msg_role msg ≠ user) messages ->
  extractTurns messages = [].
Proof.
  intros H. unfold extractTurns. rewrite group_fold_no_user; [done|].
  apply Forall_forall. intros msg [_ Hin]%list_elem_of_filter.
  by apply (proj1 (Forall_forall _ _) H).
Qed.

Lemma extractTurns_no_user_witness :
  extractTurns [assistant_message (lit "hello") 1;
                assistant_message (lit "anyone there?") 2] = [].
Proof.
  apply extractTurns_no_user. repeat constructor; discriminate.
Defined.

(** X2. The last user message of a history always gives the last turn:
    its text and time, and as summary the assistant texts collected behind
    it (none when there is no such text). Whatever comes before the last
    user message only decides the earlier turns. *)
Theorem extractTurns_last_user (before after : list Message) (msg : Message) :
  msg_role msg = user ->
  Forall (fun m => msg_role m ≠ user) after ->
  ∃ earlier,
    extractTurns (before ++ msg :: after)
    = earlier ++ [ {| user_text := extractTextOnly (msg_parts msg);
                      user_time := msg_created msg;
                      turn_assistant := summarise (collected after) |} ].
Proof.
  intros Hmsg Hafter. unfold extractTurns.
  rewrite filter_app, filter_cons_True by auto.
  rewrite fold_left_app. cbn [fold_left].
  generalize (fold_left group_step
                (filter (fun m => msg_role m = user ∨ msg_role m = assistant) before)
                {| turns := []; currentTurn := None;
                   assistantMessagesInTurn := [] |}).
  intros g. rewrite group_fold_no_user.
  2:{ apply Forall_forall. intros m [_ Hin]%list_elem_of_filter.
      by apply (proj1 (Forall_forall _ _) Hafter). }
  rewrite collected_conversation.
  unfold group_step at 1 2 3. rewrite Hmsg. cbn [turns currentTurn assistantMessagesInTurn app].
  eexists. unfold group_finish.
  cbn [turns currentTurn assistantMessagesInTurn].
  destruct (collected after) as [|a rest]; reflexivity.
Qed.

Lemma extractTurns_last_user_witness :
  ∃ earlier,
    extractTurns ([user_message (lit "first") 1]
                  ++ user_message (lit "second") 2
                  :: [assistant_message (lit "reply") 3])
    = earlier ++ [ {| user_text := lit "second"; user_time := 2;
                      turn_assistant :=
                        Some {| first := lit "reply"; last := lit "reply";
                                time := 3 |} |} ].
Proof.
  apply (extractTurns_last_user [user_message (lit "first") 1]
           [assistant_message (lit "reply") 3] (user_message (lit "second") 2)).
  - reflexivity.
  - repeat constructor; discriminate.
Defined.

Lemma last_elem_of {A} (l : list A) (d : A) : l ≠ [] -> List.last l d ∈ l.
Proof.
  induction l as [|x l IH]; [done|]. intros _.
  destruct l as [|y l]; [by left|].
  right. by apply IH.
Qed.

Lemma with_assistant_ok turn ams :
  ams ≠ [] ->
  Forall (fun a : jsstring * Z => a.1 ≠ [] ∧ trim a.1 = a.1) ams ->
  is_Some (turn_assistant (with_assistant turn ams))
  ∧ summary_ok (with_assistant turn ams).
Proof.
  intros Hne Hams. destruct ams as [|a rest]; [done|].
  unfold summary_ok, with_assistant, summarise. cbn [turn_assistant first last].
  split; [by eexists|].
  pose proof (proj1 (Forall_forall _ _) Hams) as Hall.
  destruct (Hall a ltac:(by left)) as [Ha1 Ha2].
  destruct (Hall (List.last (a :: rest) a) ltac:(by apply last_elem_of))
    as [Hl1 Hl2].
  done.
Qed.

Lemma grouping_ok_step g msg : grouping_ok g -> grouping_ok (group_step g msg).
Proof.
  intros (Hturns & Hams & Hcur). unfold group_step.
  destruct (msg_role msg).
  - split; [|split; [constructor|by intros turn [= <-]]].
    cbn [turns]. destruct (currentTurn g) as [turn|]; [|done].
    destruct (assistantMessagesInTurn g) as [|a rest] eqn:E; [done|].
    cbn [length Nat.ltb Nat.leb]. apply Forall_app. split; [done|].
    constructor; [|constructor]. by apply with_assistant_ok.
  - destruct (0 <? len (extractTextOnly (msg_parts msg))) eqn:E; [|done].
    split; [done|]. split; [|done]. cbn [assistantMessagesInTurn].
    apply Forall_app. split; [done|]. constructor; [|constructor].
    cbn [fst]. split; [|apply trim_idem].
    intros Hnil. rewrite Hnil in E. done.
  - done.
Qed.

Lemma grouping_ok_fold messages g :
  grouping_ok g -> grouping_ok (fold_left group_step messages g).
Proof.
  revert g. induction messages as [|msg messages IH]; intros g Hg; [done|].
  cbn [fold_left]. by apply IH, grouping_ok_step.
Qed.

Lemma grouping_ok_finish g :
  grouping_ok g ->
  (group_finish g = [] ∧ currentTurn g = None ∧ turns g = [])
  ∨ (currentTurn g = None ∧ group_finish g = turns g)
  ∨ ∃ final, group_finish g = turns g ++ [final] ∧ summary_ok final.
Proof.
  intros (Hturns & Hams & Hcur). unfold group_finish.
  destruct (currentTurn g) as [turn|]; [|right; by left].
  right. right.
  destruct (assistantMessagesInTurn g) as [|a rest] eqn:E.
  - exists turn. split; [done|]. unfold summary_ok. by rewrite (Hcur turn).
  - eexists. split; [done|]. by apply with_assistant_ok.
Qed.

Lemma extractTurns_grouping messages :
  ∃ g, grouping_ok g
       ∧ extractTurns messages = group_finish g
       ∧ (currentTurn g = None -> turns g = []).
Proof.
  unfold extractTurns. eexists. split; [|split; [reflexivity|]].
  - apply grouping_ok_fold. split; [constructor|]. split; [constructor|done].
  - generalize (filter (fun msg => msg_role msg = user ∨ msg_role msg = assistant)
                       messages).
    intros l.
    assert (∀ g, (currentTurn g = None -> turns g = []) ->
                 currentTurn (fold_left group_step l g) = None ->
                 turns (fold_left group_step l g) = []) as H.
    { induction l as [|msg l IH]; intros g Hg; [done|].
      cbn [fold_left]. apply IH. unfold group_step.
      destruct (msg_role msg); [done| |done].
      by destruct (0 <? len _). }
    by apply H.
Qed.

(** X3. Only the last turn of an extraction can be without an assistant
    summary: every turn before it has one. *)
Theorem extractTurns_only_last_unanswered
    (messages : list Message) (earlier : list ConversationTurn)
    (final : ConversationTurn) :
  extractTurns messages = earlier ++ [final] ->
  Forall (fun turn => is_Some (turn_assistant turn)) earlier.
Proof.
  destruct (extractTurns_grouping messages) as (g & Hg & -> & Hnone).
  pose proof Hg as (Hturns & _).
  destruct (grouping_ok_finish g Hg)
    as [(-> & _)|[(Hcur & ->)|(final' & -> & _)]].
  - intros H. by destruct earlier.
  - rewrite (Hnone Hcur). intros H. by destruct earlier.
  - intros [<- _]%app_inj_tail.
    eapply Forall_impl; [exact Hturns|]. by intros turn [? _].
Qed.

Lemma extractTurns_only_last_unanswered_witness :
  Forall (fun turn => is_Some (turn_assistant turn))
    [ {| user_text := lit "first"; user_time := 1;
         turn_assistant := Some {| first := lit "reply"; last := lit "reply";
                                   time := 2 |} |} ].
Proof.
  apply (extractTurns_only_last_unanswered
           [user_message (lit "first") 1; assistant_message (lit "reply") 2;
            user_message (lit "second") 3]
           _ (user_turn (lit "second") 3)).
  reflexivity.
Defined.

(** X4. The texts of every assistant summary are never empty and have no
    white space at either end: the extractor keeps an assistant text only
    when something is left of it after trimming. *)
Theorem extractTurns_summaries (messages : list Message) :
  Forall summary_ok (extractTurns messages).
Proof.
  destruct (extractTurns_grouping messages) as (g & Hg & -> & Hnone).
  pose proof Hg as (Hturns & _).
  assert (Forall summary_ok (turns g)) as Hok.
  { eapply Forall_impl; [exact Hturns|]. by intros turn [_ ?]. }
  destruct (grouping_ok_finish g Hg)
    as [(-> & _)|[(Hcur & ->)|(final' & -> & Hfinal)]]; [constructor|done|].
  apply Forall_app. split; [done|]. by constructor.
Qed.

Lemma turn_key_with_assistant turn ams :
  turn_key (with_assistant turn ams) = turn_key turn.
Proof. reflexivity. Qed.

Lemma group_finish_keys g :
  map turn_key (group_finish g) = map turn_key (turns g) ++ pending g.
Proof.
  unfold group_finish, pending. destruct (currentTurn g) as [turn|].
  - destruct (0 <? length (assistantMessagesInTurn g))%nat;
      by rewrite map_app.
  - by rewrite app_nil_r.
Qed.

(** The turns that come out are user messages of the history, in its
    order. *)
Lemma group_fold_keys messages g keys :
  (map turn_key (turns g) ++ pending g) `sublist_of` keys ->
  map turn_key (group_finish (fold_left group_step messages g))
    `sublist_of` (keys ++ user_keys messages).
Proof.
  revert g keys. induction messages as [|msg messages IH]; intros g keys Hg.
  - rewrite group_finish_keys. unfold user_keys. simpl. by rewrite app_nil_r.
  - cbn [fold_left]. unfold user_keys.
    destruct (msg_role msg) eqn:E.
    + rewrite filter_cons_True by done. cbn [map].
      replace (keys ++ message_key msg :: map message_key
                 (filter (fun m => msg_role m = user) messages))
        with ((keys ++ [message_key msg]) ++ user_keys messages)
        by (by rewrite <- app_assoc).
      apply IH. unfold group_step. rewrite E. unfold pending at 1.
      cbn [turns currentTurn]. apply sublist_app; [|done].
      etrans; [|exact Hg]. unfold pending.
      destruct (currentTurn g) as [turn|]; [|by rewrite app_nil_r].
      destruct (0 <? length (assistantMessagesInTurn g))%nat.
      * by rewrite map_app.
      * by apply sublist_inserts_r.
    + rewrite filter_cons_False by (rewrite E; done).
      apply IH. unfold group_step. rewrite E.
      by destruct (0 <? len _).
    + rewrite filter_cons_False by (rewrite E; done).
      apply IH. unfold group_step. by rewrite E.
Qed.

Lemma user_keys_conversation messages :
  user_keys
    (filter (fun msg => msg_role msg = user ∨ msg_role msg = assistant) messages)
  = user_keys messages.
Proof.
  unfold user_keys. f_equal.
  induction messages as [|msg messages IH]; [done|].
  destruct (msg_role msg) eqn:E.
  - rewrite (filter_cons_True _ msg) by auto.
    rewrite !filter_cons_True by done. by rewrite IH.
  - rewrite (filter_cons_True _ msg) by auto.
    rewrite !filter_cons_False by (rewrite E; done). done.
  - rewrite !filter_cons_False by (rewrite E; try intros [|]; done). done.
Qed.

Lemma sublist_StronglySorted {A} (R : relation A) (l1 l2 : list A) :
  l1 `sublist_of` l2 -> StronglySorted R l2 -> StronglySorted R l1.
Proof.
  induction 1 as [|x l1 l2 Hsub IH|x l1 l2 Hsub IH]; intros Hs; [done|..].
  - apply StronglySorted_inv in Hs as [Hs Hall]. constructor; [by apply IH|].
    apply Forall_forall. intros y Hy.
    apply (proj1 (Forall_forall _ _) Hall). by eapply elem_of_sublist.
  - apply StronglySorted_inv in Hs as [Hs _]. by apply IH.
Qed.

Lemma sublist_map {A B} (f : A -> B) (l1 l2 : list A) :
  l1 `sublist_of` l2 -> map f l1 `sublist_of` map f l2.
Proof. induction 1; simpl; by constructor. Qed.

(** X5. The turns that come out of the extractor are user messages of the
    history, in the order of the history: so there are never more turns
    than user messages, and when the history is in time order the turns
    are in non-decreasing order of their user time. *)
Theorem extractTurns_order (messages : list Message) :
  map turn_key (extractTurns messages) `sublist_of` user_keys messages
  ∧ (length (extractTurns messages)
     <= length (filter (fun msg => msg_role msg = user) messages))%nat
  ∧ (StronglySorted Z.le (map msg_created messages) ->
     StronglySorted Z.le (map user_time (extractTurns messages))).
Proof.
  assert (map turn_key (extractTurns messages) `sublist_of` user_keys messages)
    as Hsub.
  { unfold extractTurns. rewrite <- user_keys_conversation.
    apply (group_fold_keys _ _ []). simpl. constructor. }
  split; [done|]. split.
  - apply sublist_length in Hsub. unfold user_keys in Hsub.
    by rewrite !length_map in Hsub.
  - intros Hsorted.
    apply (sublist_StronglySorted _ _ (map msg_created messages)); [|done].
    apply (sublist_map snd) in Hsub. unfold user_keys in Hsub.
    rewrite !map_map in Hsub. cbn [turn_key message_key snd] in Hsub.
    etrans; [exact Hsub|]. apply sublist_map, sublist_filter.
Qed.

Lemma extractTurns_order_witness :
  StronglySorted Z.le
    (map user_time
       (extractTurns [user_message (lit "first") 1;
                      assistant_message (lit "reply") 2;
                      user_message (lit "second") 3])).
Proof.
  apply extractTurns_order. simpl. repeat constructor; lia.
Defined.

(** X6. Parts that are synthetic, or are no text parts, never reach the
    extracted text, wherever they stand among the parts. *)
Theorem extractTextOnly_ignores (before after : list MessagePart)
    (part : MessagePart) :
  part_type part ≠ lit "text" ∨ part_synthetic part = true ->
  extractTextOnly (before ++ part :: after) = extractTextOnly (before ++ after).
Proof.
  intros Hpart. unfold extractTextOnly.
  rewrite !filter_app, filter_cons_False; [done|].
  intros [Ht Hs]. destruct Hpart as [H|H]; [done|congruence].
Qed.

Lemma extractTextOnly_ignores_witness :
  extractTextOnly
    ([text_part (lit "question")]
     ++ {| part_type := lit "text"; part_text := Some (lit "system reminder");
           part_synthetic := true |}
     :: [text_part (lit "details")])
  = lit "question" ++ [LF] ++ lit "details".
Proof.
  rewrite extractTextOnly_ignores; [reflexivity|]. by right.
Defined.

(* ===================================================================== *)
(** * ContextFormatter: size and selection *)
(* ===================================================================== *)

Lemma length_join_weight lines : (length (join [LF] lines) <= weight lines)%nat.
Proof.
  unfold weight. induction lines as [|l lines IH]; [done|].
  destruct lines as [|l' lines].
  - simpl. lia.
  - change (join [LF] (l :: l' :: lines)) with (l ++ LF :: join [LF] (l' :: lines)).
    rewrite length_app. cbn [length map list_sum fold_right] in *. lia.
Qed.

Lemma weight_app l1 l2 : weight (l1 ++ l2) = (weight l1 + weight l2)%nat.
Proof. unfold weight. by rewrite map_app, list_sum_app. Qed.

Lemma length_truncate text maxLength :
  0 <= maxLength ->
  (length (truncate text maxLength) <= Z.to_nat maxLength + 3)%nat.
Proof.
  intros H. unfold truncate, len, substring0.
  destruct (Z.of_nat (length text) <=? maxLength) eqn:E.
  - apply Z.leb_le in E. lia.
  - rewrite length_app, length_take. simpl. lia.
Qed.

Lemma weight_turn m turn :
  0 <= m -> (weight (format_turn m [] turn) <= 3 * Z.to_nat m + 60)%nat.
Proof.
  intros Hm. unfold format_turn, weight.
  pose proof (length_truncate (user_text turn) m Hm).
  destruct (turn_assistant turn) as [a|].
  - pose proof (length_truncate (first a) m Hm).
    pose proof (length_truncate (last a) m Hm).
    destruct (bool_decide (first a = last a));
      cbn [app map list_sum fold_right]; rewrite !length_app; simpl; lia.
  - cbn [app map list_sum fold_right]. rewrite !length_app. simpl. lia.
Qed.

Lemma weight_turns m ts :
  0 <= m ->
  (weight (flat_map (format_turn m []) ts) <= length ts * (3 * Z.to_nat m + 60))%nat.
Proof.
  intros Hm. induction ts as [|t ts IH]; [done|].
  cbn [flat_map length]. rewrite weight_app.
  pose proof (weight_turn m t Hm). lia.
Qed.

(** X7. The formatted context is bounded by the two limits alone, however
    long the conversation and its messages are: at most
    [maxTurns * (3 * maxCharsPerMessage + 60)] code units. *)
Theorem formatContext_bounded
    (turns : list ConversationTurn) (maxTurns maxCharsPerMessage : Z) :
  0 < maxTurns -> 0 <= maxCharsPerMessage ->
  len (formatContextForTitle turns maxTurns maxCharsPerMessage)
  <= maxTurns * (3 * maxCharsPerMessage + 60).
Proof.
  intros Ht Hm. unfold formatContextForTitle, formatted_lines, len.
  rewrite fold_format_turn, slice_tail by done. cbn [app].
  pose proof (length_join_weight
                (flat_map (format_turn maxCharsPerMessage [])
                   (drop (length turns - Z.to_nat maxTurns) turns))) as H1.
  pose proof (weight_turns maxCharsPerMessage
                (drop (length turns - Z.to_nat maxTurns) turns) Hm) as H2.
  rewrite length_drop in H2.
  assert (length turns - (length turns - Z.to_nat maxTurns) <= Z.to_nat maxTurns)%nat
    as H3 by lia.
  nia.
Qed.

Lemma formatContext_bounded_witness :
  len (formatContextForTitle
         [user_turn (lit "a rather long first question") 1;
          user_turn (lit "a second question") 2] 1 5)
  <= 1 * (3 * 5 + 60).
Proof. apply formatContext_bounded; lia. Defined.

(** X8. Turns older than the last [maxTurns] never reach the output:
    putting any turns in front of a list that already has [maxTurns] turns
    changes nothing. *)
Theorem formatContext_old_turns
    (old recent : list ConversationTurn) (maxTurns maxCharsPerMessage : Z) :
  0 < maxTurns -> maxTurns <= Z.of_nat (length recent) ->
  formatContextForTitle (old ++ recent) maxTurns maxCharsPerMessage
  = formatContextForTitle recent maxTurns maxCharsPerMessage.
Proof.
  intros Hpos Hlen. unfold formatContextForTitle, formatted_lines.
  rewrite !slice_tail by done. do 2 f_equal.
  rewrite length_app.
  replace (length old + length recent - Z.to_nat maxTurns)%nat
    with (length old + (length recent - Z.to_nat maxTurns))%nat by lia.
  by rewrite drop_app_add.
Qed.

Lemma formatContext_old_turns_witness :
  formatContextForTitle
    ([user_turn (lit "old") 1] ++ [user_turn (lit "recent") 2]) 1 100
  = formatContextForTitle [user_turn (lit "recent") 2] 1 100.
Proof. apply formatContext_old_turns; simpl; lia. Defined.

(** The context of a list with a turn is not empty: it begins with the
    user line of the first turn. *)
Lemma format_turns_not_empty m turn ts :
  join [LF] (flat_map (format_turn m []) (turn :: ts)) ≠ [].
Proof.
  cbn [flat_map]. rewrite format_turn_spec. unfold turn_lines_spec.
  cbn [app]. by destruct (_ ++ flat_map _ ts).
Qed.

(** X9. A limit of turns that is not positive is not read as "no turn".
    [turns.slice(-maxTurns)] drops [-maxTurns] turns from the front and
    keeps all the others, without any limit on their number: the output is
    that of the remaining turns under any limit that reaches the number of
    turns. So with [maxTurns = 0] every turn is formatted and a
    conversation with a turn never gives the empty context; with a
    negative limit the context is empty exactly when [-maxTurns] reaches
    the number of turns. *)
Theorem formatContext_nonpositive_limit
    (turns : list ConversationTurn) (maxTurns maxCharsPerMessage : Z) :
  maxTurns <= 0 ->
  let dropped := Z.to_nat (- maxTurns) in
  let out := formatContextForTitle turns maxTurns maxCharsPerMessage in
  (∀ limit, 0 < limit -> Z.of_nat (length turns) <= limit ->
     out = formatContextForTitle (drop dropped turns) limit maxCharsPerMessage)
  ∧ (maxTurns = 0 -> turns ≠ [] -> out ≠ [])
  ∧ (out = [] <-> (length turns <= dropped)%nat).
Proof.
  intros H dropped out.
  assert (out = join [LF] (flat_map (format_turn maxCharsPerMessage [])
                             (drop dropped turns))) as E.
  { subst out dropped. unfold formatContextForTitle, formatted_lines, slice_from.
    rewrite fold_format_turn. cbn [app].
    destruct (- maxTurns <? 0) eqn:E; [apply Z.ltb_lt in E; lia|].
    destruct (decide (- maxTurns <= Z.of_nat (length turns))).
    - by rewrite Z.min_l by done.
    - rewrite Z.min_r by lia. rewrite Nat2Z.id.
      by rewrite !drop_ge by lia. }
  assert (out = [] <-> (length turns <= dropped)%nat) as Hempty.
  { rewrite E. split.
    - intros Hout. destruct (drop dropped turns) as [|t ts] eqn:Ed.
      + apply (f_equal length) in Ed. rewrite length_drop in Ed. simpl in Ed. lia.
      + by apply format_turns_not_empty in Hout.
    - intros Hlen. by rewrite drop_ge. }
  split; [|split; [|done]].
  - intros limit Hpos Hlimit. rewrite E.
    unfold formatContextForTitle, formatted_lines.
    rewrite fold_format_turn, slice_tail by done. cbn [app].
    rewrite length_drop.
    replace (length turns - dropped - Z.to_nat limit)%nat with 0%nat by lia.
    done.
  - intros -> Hturns Hout. apply Hempty in Hout. subst dropped. simpl in Hout.
    destruct turns; [done|simpl in Hout; lia].
Qed.

Lemma formatContext_nonpositive_limit_witness :
  formatContextForTitle [user_turn (lit "one") 1; user_turn (lit "two") 2] 0 100
  = formatContextForTitle [user_turn (lit "one") 1; user_turn (lit "two") 2] 2 100
  ∧ formatContextForTitle
      [user_turn (lit "one") 1; user_turn (lit "two") 2; user_turn (lit "three") 3]
      (-5) 100 = [].
Proof.
  split.
  - destruct (formatContext_nonpositive_limit
                [user_turn (lit "one") 1; user_turn (lit "two") 2] 0 100)
      as [H _]; [lia|].
    apply (H 2); simpl; lia.
  - destruct (formatContext_nonpositive_limit
                [user_turn (lit "one") 1; user_turn (lit "two") 2;
                 user_turn (lit "three") 3] (-5) 100)
      as (_ & _ & H); [lia|].
    apply H. simpl. lia.
Defined.

(** X10. For a limit that is not negative, a truncated text has at most
    [maxLength + 3] code units and at most two more than the text itself
    (a text just over the limit grows), and it is the text itself or a
    prefix of the text with the ellipsis behind it. *)
Theorem truncate_bounds (text : jsstring) (maxLength : Z) :
  0 <= maxLength ->
  len (truncate text maxLength) <= maxLength + 3
  ∧ len (truncate text maxLength) <= len text + 2
  ∧ (truncate text maxLength = text
     ∨ ∃ kept rest, text = kept ++ rest ∧ rest ≠ []
                    ∧ len kept = maxLength
                    ∧ truncate text maxLength = kept ++ ELLIPSIS).
Proof.
  intros H. pose proof (length_truncate text maxLength H) as Hlen.
  unfold truncate, len, substring0 in *.
  destruct (Z.of_nat (length text) <=? maxLength) eqn:E.
  - apply Z.leb_le in E. split; [lia|]. split; [lia|]. by left.
  - apply Z.leb_gt in E. rewrite length_app, length_take in *. simpl in *.
    split; [lia|]. split; [lia|]. right.
    exists (take (Z.to_nat maxLength) text), (drop (Z.to_nat maxLength) text).
    rewrite take_drop, length_take. split; [done|]. split; [|split; [lia|done]].
    intros Hnil. apply (f_equal length) in Hnil.
    rewrite length_drop in Hnil. simpl in Hnil. lia.
Qed.

Lemma truncate_bounds_witness :
  len (truncate (lit "abcdef") 5) <= 5 + 3
  ∧ len (truncate (lit "abcdef") 5) <= len (lit "abcdef") + 2.
Proof.
  destruct (truncate_bounds (lit "abcdef") 5) as (H1 & H2 & _); [lia|].
  split; [exact H1|exact H2].
Defined.

(* ===================================================================== *)
(** * TitleSanitizer: what passes, what is replaced *)
(* ===================================================================== *)

Lemma remove_think_unchanged raw : ¬ has_block raw -> remove_think raw = raw.
Proof.
  intros H. apply remove_think_no_block. intros i k.
  by apply no_block_occurrences.
Qed.

Lemma has_block_extend s b : has_block s -> has_block (s ++ b).
Proof.
  intros (x & y & z & ->). exists x, y, (z ++ b). by rewrite <- !app_assoc.
Qed.

Lemma find_nonempty_first l lines :
  l ≠ [] -> find_nonempty (l :: lines) = Some l.
Proof. intros H. unfold find_nonempty. simpl. by destruct l. Qed.

(** X11. A title that is already clean passes unchanged: one line without
    a paired reasoning block, with nothing to trim, not empty and at most
    100 code units long. *)
Theorem cleanTitle_clean_input (raw : jsstring) :
  raw ≠ [] -> LF ∉ raw -> trim raw = raw -> len raw <= 100 ->
  ¬ has_block raw ->
  cleanTitle raw = raw.
Proof.
  intros Hne Hlf Htrim Hlen Hblock. unfold cleanTitle.
  rewrite remove_think_unchanged, split_without_sep by done.
  cbn [map]. rewrite Htrim, find_nonempty_first by done.
  assert (or_else (Some raw) UNTITLED = raw) as -> by (by destruct raw).
  apply Z.ltb_ge in Hlen. by rewrite Hlen.
Qed.

Lemma cleanTitle_clean_input_witness :
  cleanTitle (lit "Fixing authentication timeout")
  = lit "Fixing authentication timeout".
Proof.
  apply cleanTitle_clean_input.
  - discriminate.
  - not_in_literal.
  - reflexivity.
  - vm_compute. discriminate.
  - intros (i & k & Ho & _)%has_block_occurs.
    apply occurs_at_starts_with in Ho as [Hi Ho]. vm_compute in Hi.
    do 30 (destruct i as [|i]; [discriminate Ho|]). lia.
Defined.

Lemma drop_ws_blank s : Forall (fun c => is_ws c = true) s -> drop_ws s = [].
Proof. induction 1 as [|c s Hc _ IH]; simpl; [done|]. by rewrite Hc. Qed.

Lemma trim_blank s : Forall (fun c => is_ws c = true) s -> trim s = [].
Proof. intros H. unfold trim. by rewrite (drop_ws_blank s H). Qed.

Lemma split_elem sep s seg c : seg ∈ split sep s -> c ∈ seg -> c ∈ s.
Proof.
  revert seg. induction s as [|d s IH]; intros seg; simpl.
  - intros ->%list_elem_of_singleton. by intros ?%not_elem_of_nil.
  - destruct (d =? sep)%N.
    + intros [->|H]%elem_of_cons; [by intros ?%not_elem_of_nil|].
      intros Hc. right. by apply (IH seg).
    + destruct (split sep s) as [|seg0 segs] eqn:Es.
      * by destruct (split_nonempty sep s).
      * intros [->|H]%elem_of_cons.
        -- intros [->|Hc]%elem_of_cons; [by left|].
           right. apply (IH seg0); [by left|done].
        -- intros Hc. right. apply (IH seg); [by right|done].
Qed.

Lemma find_nonempty_blank lines :
  Forall (fun l => l = []) lines -> find_nonempty lines = None.
Proof. induction 1 as [|l lines -> _ IH]; [done|]. exact IH. Qed.

(** X12. Text that holds nothing but white space (the empty text, blank
    lines) gives the placeholder title. *)
Theorem cleanTitle_blank (raw : jsstring) :
  Forall (fun c => is_ws c = true) raw ->
  cleanTitle raw = UNTITLED.
Proof.
  intros Hws. unfold cleanTitle.
  pose proof (proj1 (Forall_forall _ _) Hws) as Hall.
  rewrite remove_think_unchanged.
  2:{ intros (a & b & c & ->).
      assert (is_ws 60%N = true) as H; [|done].
      apply Hall. apply elem_of_app. right. by left. }
  rewrite find_nonempty_blank; [reflexivity|].
  apply Forall_forall. intros l (seg & -> & Hseg)%list_elem_of_fmap.
  apply trim_blank, Forall_forall. intros c Hc.
  apply Hall. by apply (split_elem LF raw seg).
Qed.

Lemma cleanTitle_blank_witness :
  cleanTitle ([LF] ++ lit "   " ++ [LF]) = lit "Untitled".
Proof. apply cleanTitle_blank. by repeat constructor. Defined.

Lemma Removed_length s out :
  Removed s out ->
  (length out <= length s)%nat ∧ (has_block s -> (length out < length s)%nat).
Proof.
  induction 1 as [s Hnb|pre body ws rest out _ _ _ _ _ [IH _]].
  - split; [done|]. by intros ?.
  - rewrite !length_app. simpl. split; [lia|]. intros _. lia.
Qed.

(** X13. The removal of reasoning blocks never makes the text longer, and
    it leaves the text as it is exactly when the text has no paired block:
    a start marker without an end marker behind it stays. *)
Theorem remove_think_effect (raw : jsstring) :
  (length (remove_think raw) <= length raw)%nat
  ∧ (remove_think raw = raw <-> ¬ has_block raw).
Proof.
  pose proof (Removed_length raw _ (remove_think_Removed raw)) as [Hle Hlt].
  split; [done|]. split.
  - intros E Hb. specialize (Hlt Hb). rewrite E in Hlt. lia.
  - apply remove_think_unchanged.
Qed.

(** The end marker has no overlap with itself: where the text in front of
    it holds no end marker, it is the first one. *)
Lemma close_marker_nearest body :
  (∀ j, ¬ occurs_at THINK_CLOSE body j) ->
  ∀ j, occurs_at THINK_CLOSE (body ++ THINK_CLOSE) j -> j = length body.
Proof.
  intros Hnone j Hj. pose proof (occurs_at_bound _ _ _ Hj) as Hb.
  rewrite length_app in Hb. simpl in Hb.
  destruct (decide (j = length body)) as [|Hne]; [done|]. exfalso.
  destruct (decide (j + 8 <= length body)%nat) as [Hin|Hout].
  { by apply (Hnone j), (occurs_at_within _ _ THINK_CLOSE). }
  destruct Hj as (a & b & E & Hj).
  assert ((body ++ THINK_CLOSE) !! (j + 7)%nat = Some 62%N) as Hl.
  { rewrite E, <- Hj, lookup_app_r by lia.
    replace (length a + 7 - length a)%nat with 7%nat by lia. done. }
  rewrite lookup_app_r in Hl by lia.
  remember (j + 7 - length body)%nat as k eqn:Ek.
  assert (k < 7)%nat as Hk by lia.
  do 7 (destruct k as [|k]; [discriminate Hl|]). lia.
Qed.

(** X14. Text that is one reasoning block and white space around it, with
    nothing else, gives the placeholder title. *)
Theorem cleanTitle_only_reasoning (body ws : jsstring) :
  (∀ j, ¬ occurs_at THINK_CLOSE body j) ->
  Forall (fun c => is_ws c = true) ws ->
  cleanTitle (THINK_OPEN ++ body ++ THINK_CLOSE ++ ws) = UNTITLED.
Proof.
  intros Hbody Hws.
  assert (remove_think (THINK_OPEN ++ body ++ THINK_CLOSE ++ ws) = []) as E.
  { symmetry. apply Removed_unique.
    pose proof (Removed_block [] body ws [] []) as H.
    rewrite app_nil_r in H. cbn [app] in H.
    apply H; [|by apply close_marker_nearest|done|done|].
    - intros j Hj. apply occurs_at_bound in Hj. simpl in *. lia.
    - apply Removed_none. intros (a & b & c & E). by destruct a. }
  unfold cleanTitle. by rewrite E.
Qed.

Lemma cleanTitle_only_reasoning_witness :
  cleanTitle (THINK_OPEN ++ lit "the user wants a title" ++ THINK_CLOSE ++ [LF])
  = lit "Untitled".
Proof.
  apply cleanTitle_only_reasoning; [|by repeat constructor].
  intros j Hj. apply occurs_at_starts_with in Hj as [Hj Hs].
  vm_compute in Hj.
  do 23 (destruct j as [|j]; [discriminate Hs|]). lia.
Defined.

(** X15. Only the first line that is not blank counts: in text without a
    paired reasoning block, what follows that line never changes the
    title. *)
Theorem cleanTitle_first_line (line rest : jsstring) :
  LF ∉ line -> trim line ≠ [] -> ¬ has_block (line ++ LF :: rest) ->
  cleanTitle (line ++ LF :: rest) = cleanTitle line.
Proof.
  intros Hlf Htrim Hblock. unfold cleanTitle.
  rewrite !remove_think_unchanged.
  2:{ intros H. by apply Hblock, has_block_extend. }
  2:{ done. }
  rewrite split_at_sep, (split_without_sep LF line) by done.
  cbn [map]. by rewrite !find_nonempty_first.
Qed.

Lemma cleanTitle_first_line_witness :
  cleanTitle (lit "  Fixing bug " ++ LF :: lit "Here is why: ...")
  = cleanTitle (lit "  Fixing bug ").
Proof.
  apply cleanTitle_first_line.
  - not_in_literal.
  - discriminate.
  - intros (i & k & Ho & _)%has_block_occurs.
    apply occurs_at_starts_with in Ho as [Hi Ho]. vm_compute in Hi.
    do 31 (destruct i as [|i]; [discriminate Ho|]). lia.
Defined.

(* ===================================================================== *)
(** * ModelSelector: results, guarantees, cost *)
(* ===================================================================== *)

Section SelectorFacts.

Context {World Handle : Type}.
Variable client : Client World Handle.

Local Abbreviation State := (State World).

(** The walk returns the first candidate that resolves, when those before
    it do not. *)
Lemma fallback_loop_first providers failed priority tried candidate untried
    (st : State) :
  candidates providers priority = tried ++ candidate :: untried ->
  Forall (never_resolves client) tried ->
  always_resolves client candidate ->
  ∃ result,
    (fallback_loop client providers failed priority st).1.1 = inr result
    ∧ selected_candidate result = candidate
    ∧ source result = fallback
    ∧ failedModel result = failed
    ∧ (fallback_loop client providers failed priority st).2
      = map (attempt false) tried ++ [attempt true candidate].
Proof.
  revert tried st. induction priority as [|p rest IH]; intros tried st Hc Hf Hr.
  - by destruct tried.
  - rewrite candidates_cons in Hc. cbn [fallback_loop].
    destruct (bool_decide (p ∈ providers)); cbn [negb]; [|by apply IH].
    destruct (record_get FALLBACK_MODELS p) as [m|]; [|by apply IH].
    rewrite run_bind, run_try_catch, run_bind. unfold resolve, await.
    destruct tried as [|x tried].
    + injection Hc as <- _. destruct (Hr (world st)) as [h Hh]. simpl in Hh.
      destruct (getLanguageModel client p m (world st)) as [r w].
      simpl in Hh. subst r. simpl. eexists. repeat split.
    + injection Hc as <- Hc. apply Forall_cons in Hf as [Hx Hf].
      specialize (Hx (world st)). simpl in Hx.
      destruct (getLanguageModel client p m (world st)) as [r w].
      simpl in Hx. subst r. simpl.
      destruct (IH tried {| world := w; sessionIdleCount := sessionIdleCount st |}
                  Hc Hf Hr) as (result & Hres & Hsel & Hsrc & Hfm & Ht).
      destruct (fallback_loop client providers failed rest _) as [[r st2] t2].
      simpl in *. subst r. exists result. by rewrite Ht.
Qed.

(** The walk returns a result as soon as one of its candidates always
    resolves. *)
Lemma fallback_loop_succeeds providers failed priority candidate (st : State) :
  candidate ∈ candidates providers priority ->
  always_resolves client candidate ->
  ∃ result, (fallback_loop client providers failed priority st).1.1 = inr result.
Proof.
  revert st. induction priority as [|p rest IH]; intros st Hc Hr.
  - by apply not_elem_of_nil in Hc.
  - rewrite candidates_cons in Hc. cbn [fallback_loop].
    destruct (bool_decide (p ∈ providers)); cbn [negb]; [|by apply IH].
    destruct (record_get FALLBACK_MODELS p) as [m|]; [|by apply IH].
    rewrite run_bind, run_try_catch, run_bind. unfold resolve, await.
    destruct (getLanguageModel client p m (world st)) as [[h|] w] eqn:E; simpl.
    + by eexists.
    + apply elem_of_cons in Hc as [->|Hc].
      * specialize (Hr (world st)). simpl in Hr. rewrite E in Hr.
        by destruct Hr.
      * destruct (IH {| world := w; sessionIdleCount := sessionIdleCount st |}
                    Hc Hr) as [result Hres].
        destruct (fallback_loop client providers failed rest _) as [[r st2] t2].
        simpl in *. subst r. by eexists.
Qed.

End SelectorFacts.

(** What a result says about the configured model. *)
Lemma selectModel_result {World Handle} (client : Client World Handle)
    (configModel : option jsstring) (st : State World)
    (result : ModelSelectionResult Handle) :
  (selectModel client configModel st).1.1 = inr result ->
  (source result = config
   ∧ failedModel result = None
   ∧ configured_ref configModel = Some (modelInfo result))
  ∨ (source result = fallback
     ∧ failedModel result = configured_ref configModel
     ∧ ∀ ref, configured_ref configModel = Some ref ->
         (getLanguageModel client (providerID ref) (modelID ref) (world st)).1
         = None).
Proof.
  unfold selectModel, try_configured.
  generalize PROVIDER_PRIORITY. intros priority.
  destruct (configured_ref configModel) as [ref|].
  - rewrite run_bind, run_try_catch, run_bind. unfold resolve, await.
    destruct (getLanguageModel client (providerID ref) (modelID ref) (world st))
      as [[h|] w] eqn:Eget; simpl.
    + intros [= <-]. by left.
    + rewrite run_bind. unfold await. simpl.
      destruct (listProviders client w) as [[providers|] w1]; simpl; [|done].
      destruct (fallback_loop_walked client providers (Some ref) priority
                  {| world := w1; sessionIdleCount := sessionIdleCount st |})
        as (tried & untried & Hwalk).
      destruct (fallback_loop _ _ _ _ _) as [[r st2] t2]. simpl in *.
      intros ->. destruct Hwalk as (_ & _ & Hsrc & Hfm). right.
      split; [done|]. split; [done|]. intros ref' [= <-]. by rewrite Eget.
  - rewrite run_bind. simpl. rewrite run_bind. unfold await. simpl.
    destruct (listProviders client (world st)) as [[providers|] w1]; simpl;
      [|done].
    destruct (fallback_loop_walked client providers None priority
                {| world := w1; sessionIdleCount := sessionIdleCount st |})
      as (tried & untried & Hwalk).
    destruct (fallback_loop _ _ _ _ _) as [[r st2] t2]. simpl in *.
    intros ->. destruct Hwalk as (_ & _ & Hsrc & Hfm). right.
    split; [done|]. split; [done|]. by intros ref' [=].
Qed.


(** X16. The failed model of a result tells what happened to the
    configured model: a result from the configuration has none; a result
    from the fallback names the configured model exactly when that was
    well-formed, and then its resolution had failed. *)
Theorem selectModel_failedModel {World Handle} (client : Client World Handle)
    (configModel : option jsstring) (st : State World)
    (result : ModelSelectionResult Handle) :
  (selectModel client configModel st).1.1 = inr result ->
  (source result = config
   ∧ failedModel result = None
   ∧ configured_ref configModel = Some (modelInfo result))
  ∨ (source result = fallback
     ∧ failedModel result = configured_ref configModel
     ∧ ∀ ref, configured_ref configModel = Some ref ->
         (getLanguageModel client (providerID ref) (modelID ref) (world st)).1
         = None).
Proof. apply selectModel_result. Qed.

Lemma selectModel_failedModel_witness :
  ∃ result,
    (selectModel
       (scripted_client [lit "anthropic"]
          (fun p _ _ => bool_decide (p = lit "anthropic")) None None None)
       (Some (lit "openai/gpt-5-mini")) fresh_state).1.1 = inr result
    ∧ source result = fallback
    ∧ failedModel result
      = Some {| providerID := lit "openai"; modelID := lit "gpt-5-mini" |}.
Proof.
  eexists. split; [reflexivity|].
  edestruct (selectModel_failedModel
               (scripted_client [lit "anthropic"]
                  (fun p _ _ => bool_decide (p = lit "anthropic")) None None None)
               (Some (lit "openai/gpt-5-mini")) fresh_state)
    as [(H & _)|(H1 & H2 & _)]; [reflexivity|vm_compute in H; discriminate H|].
  split; [exact H1|exact H2].
Defined.

(** X17. A selection cannot fail while a provider of the priority list is
    authenticated and its default model always resolves: whatever the
    configured model is and whatever the other providers do, a result is
    returned. *)
Theorem selectModel_succeeds {World Handle} (client : Client World Handle)
    (configModel : option jsstring) (st : State World) (p m : jsstring) :
  p ∈ PROVIDER_PRIORITY ->
  record_get FALLBACK_MODELS p = Some m ->
  (∀ w, ∃ providers, (listProviders client w).1 = Some providers
                     ∧ p ∈ providers) ->
  always_resolves client (p, m) ->
  ∃ result, (selectModel client configModel st).1.1 = inr result.
Proof.
  intros Hp Hm Hauth Hres. unfold selectModel, try_configured.
  assert (∀ failed providers st1,
            p ∈ providers ->
            ∃ result,
              (fallback_loop client providers failed
                 PROVIDER_PRIORITY st1).1.1 = inr result) as Hloop.
  { intros failed providers st1 Hin.
    apply (fallback_loop_succeeds client _ _ _ (p, m)); [|done].
    by apply elem_of_candidates. }
  revert Hloop. generalize PROVIDER_PRIORITY. intros priority Hloop.
  destruct (configured_ref configModel) as [ref|].
  - rewrite run_bind, run_try_catch, run_bind. unfold resolve, await.
    destruct (getLanguageModel client (providerID ref) (modelID ref) (world st))
      as [[h|] w]; simpl; [by eexists|].
    rewrite run_bind. unfold await. simpl.
    destruct (Hauth w) as (providers & Hlist & Hin).
    destruct (listProviders client w) as [listed w1]. simpl in Hlist.
    subst listed. simpl.
    destruct (Hloop (Some ref) providers
                {| world := w1; sessionIdleCount := sessionIdleCount st |} Hin)
      as [result Hr].
    destruct (fallback_loop _ _ _ _ _) as [[r st2] t2]. simpl in *.
    by exists result.
  - rewrite run_bind. simpl. rewrite run_bind. unfold await. simpl.
    destruct (Hauth (world st)) as (providers & Hlist & Hin).
    destruct (listProviders client (world st)) as [listed w1]. simpl in Hlist.
    subst listed. simpl.
    destruct (Hloop None providers
                {| world := w1; sessionIdleCount := sessionIdleCount st |} Hin)
      as [result Hr].
    destruct (fallback_loop _ _ _ _ _) as [[r st2] t2]. simpl in *.
    by exists result.
Qed.

Lemma selectModel_succeeds_witness :
  ∃ result,
    (selectModel
       (scripted_client [lit "zai"]
          (fun p _ _ => bool_decide (p = lit "zai")) None None None)
       (Some (lit "openai/gpt-5-mini")) fresh_state).1.1 = inr result.
Proof.
  apply (selectModel_succeeds _ _ _ (lit "zai") (lit "glm-4.5-flash")).
  - apply list_elem_of_In. vm_compute. tauto.
  - reflexivity.
  - intros w. exists (list_to_set [lit "zai"]). split; [reflexivity|].
    apply (bool_decide_unpack _). by vm_compute.
  - intros w. by eexists.
Defined.

(** X18. Without a usable configured model, the selection returns the
    first candidate of the walk that resolves: when the candidates before
    it never resolve and it always does, the result is that candidate, with
    source [fallback], after one listing and one attempt on each candidate
    up to it. *)
Theorem selectModel_priority {World Handle} (client : Client World Handle)
    (configModel : option jsstring) (st : State World)
    (providers : gset jsstring) (tried untried : list (jsstring * jsstring))
    (candidate : jsstring * jsstring) :
  configured_ref configModel = None ->
  (listProviders client (world st)).1 = Some providers ->
  candidates providers PROVIDER_PRIORITY = tried ++ candidate :: untried ->
  Forall (never_resolves client) tried ->
  always_resolves client candidate ->
  ∃ result,
    (selectModel client configModel st).1.1 = inr result
    ∧ selected_candidate result = candidate
    ∧ source result = fallback
    ∧ failedModel result = None
    ∧ (selectModel client configModel st).2
      = (ListProviders, true) :: map (attempt false) tried
          ++ [attempt true candidate].
Proof.
  intros Hcfg Hlist Hc Hf Hr. unfold selectModel, try_configured. rewrite Hcfg.
  revert Hc. generalize PROVIDER_PRIORITY. intros priority Hc.
  rewrite run_bind. simpl. rewrite run_bind. unfold await. simpl.
  destruct (listProviders client (world st)) as [listed w1]. simpl in Hlist.
  subst listed. simpl.
  destruct (fallback_loop_first client providers None priority tried candidate
              untried {| world := w1; sessionIdleCount := sessionIdleCount st |}
              Hc Hf Hr) as (result & Hres & Hsel & Hsrc & Hfm & Ht).
  destruct (fallback_loop _ _ _ _ _) as [[r st2] t2]. simpl in *. subst r t2.
  by exists result.
Qed.

Lemma selectModel_priority_witness :
  ∃ result,
    (selectModel
       (scripted_client [lit "openai"; lit "google"]
          (fun p _ _ => bool_decide (p = lit "google")) None None None)
       None fresh_state).1.1 = inr result
    ∧ selected_candidate result = (lit "google", lit "gemini-2.5-flash").
Proof.
  destruct (selectModel_priority
              (scripted_client [lit "openai"; lit "google"]
                 (fun p _ _ => bool_decide (p = lit "google")) None None None)
              None fresh_state (list_to_set [lit "openai"; lit "google"])
              [(lit "openai", lit "gpt-5-mini")] []
              (lit "google", lit "gemini-2.5-flash"))
    as (result & Hres & Hsel & _).
  - reflexivity.
  - reflexivity.
  - by vm_compute.
  - constructor; [|constructor]. intros w. reflexivity.
  - intros w. by eexists.
  - by exists result.
Defined.

(** X19. A selection makes at most ten collaborator calls, whatever the
    collaborators answer: at most one attempt on the configured model, one
    listing of the providers, and one attempt for each provider of the
    priority list. *)
Theorem selectModel_cost {World Handle} (client : Client World Handle)
    (configModel : option jsstring) (st : State World) :
  (length (selectModel client configModel st).2 <= 10)%nat.
Proof.
  destruct (selectModel_cases client configModel st)
    as [(result & _ & _ & _ & _ & ->)
       |(before & failed & listed & Hcfg & Hrun)].
  { simpl. lia. }
  assert (length before <= 1)%nat as Hb.
  { destruct Hcfg as [(_ & _ & -> & _)|(ref & _ & _ & _ & -> & _)]; simpl; lia. }
  destruct listed as [providers|]; cycle 1.
  { destruct Hrun as [_ ->]. rewrite length_app. simpl. lia. }
  destruct Hrun as (t & -> & tried & untried & Hwalk).
  pose proof (sublist_length _ _ (candidates_sublist providers PROVIDER_PRIORITY))
    as Hlen.
  rewrite length_fmap in Hlen.
  change (length PROVIDER_PRIORITY) with 8%nat in Hlen.
  rewrite length_app. cbn [length].
  destruct (selectModel client configModel st).1.1 as [e|result].
  - destruct Hwalk as (Hc & _ & -> & _). rewrite Hc in Hlen.
    rewrite length_map. lia.
  - destruct Hwalk as (Hc & -> & _). rewrite Hc in Hlen.
    rewrite length_app in Hlen. rewrite length_app, length_map. simpl in *. lia.
Qed.

(** X20. Every provider of the priority list has a default model, so the
    candidates of the walk are exactly the authenticated providers of the
    list, in its order, each with its entry of the table of default
    models. *)
Theorem candidates_authenticated (providers : gset jsstring) :
  (candidates providers PROVIDER_PRIORITY).*1
  = filter (fun p => p ∈ providers) PROVIDER_PRIORITY
  ∧ ∀ candidate, candidate ∈ candidates providers PROVIDER_PRIORITY ->
                 candidate ∈ FALLBACK_MODELS.
Proof.
  assert (Forall (fun p => ∃ m, record_get FALLBACK_MODELS p = Some m
                           ∧ (p, m) ∈ FALLBACK_MODELS) PROVIDER_PRIORITY) as Hall.
  { repeat constructor; eexists; (split; [reflexivity|]);
      apply list_elem_of_In; vm_compute; tauto. }
  revert Hall. generalize PROVIDER_PRIORITY. intros priority Hall.
  induction Hall as [|p rest (m & Hm & Hin) _ [IH1 IH2]].
  - split; [done|]. by intros c ?%not_elem_of_nil.
  - rewrite candidates_cons, Hm.
    destruct (decide (p ∈ providers)) as [Hp|Hp].
    + rewrite bool_decide_eq_true_2, filter_cons_True by done.
      split; [by rewrite fmap_cons, IH1|].
      intros c [->|Hc]%elem_of_cons; [done|by apply IH2].
    + rewrite bool_decide_eq_false_2, filter_cons_False by done. done.
Qed.

(* ===================================================================== *)
(** * UpdateCoordinator: what reaches the host, and the counters *)
(* ===================================================================== *)

Lemma cleanTitle_shape raw :
  cleanTitle raw ≠ [] ∧ len (cleanTitle raw) <= 100
  ∧ (LF ∉ cleanTitle raw) ∧ trim (cleanTitle raw) = cleanTitle raw.
Proof.
  split; [apply cleanTitle_not_empty|]. unfold cleanTitle.
  destruct (selected_line_ok (remove_think raw)) as (Hne & Hlf & Hhd & Hlast).
  set (selected := or_else _ _) in *. clearbody selected.
  destruct (100 <? len selected) eqn:E.
  - apply Z.ltb_lt in E. unfold len in *.
    assert (length (substring0 selected 97) = 97%nat) as Hlen.
    { unfold substring0. rewrite length_take. lia. }
    destruct selected as [|c sel]; [done|].
    split; [|split].
    + rewrite length_app, Hlen. by vm_compute.
    + intros [H|H]%elem_of_app.
      * apply Hlf. unfold substring0 in H.
        apply elem_of_take in H as (i & Hi & _).
        by apply list_elem_of_lookup_2 in Hi.
      * revert H. not_in_literal.
    + apply trim_id; [done|]. rewrite rev_app_distr. by vm_compute.
  - apply Z.ltb_ge in E. split; [done|]. split; [done|]. by apply trim_id.
Qed.

Section CoordinatorFacts.

Context {World Handle : Type}.
Variable client : Client World Handle.
Variable TITLE_PROMPT : jsstring.

Local Abbreviation State := (State World).

(** The title updates among the calls of the handler. *)
Lemma event_handler_updates config event (st : State) :
  (event_handler client TITLE_PROMPT config event st).2 = []
  ∨ ∃ sessionId ok t,
      event = SessionIdle sessionId
      ∧ (event_handler client TITLE_PROMPT config event st).2
        = (SessionGet sessionId, ok) :: t
      ∧ (Forall (fun e => is_update_call e.1 = false) t
         ∨ ∃ calls raw ok',
             t = calls ++ [(SessionUpdate sessionId (cleanTitle raw), ok')]
             ∧ Forall (fun e => is_update_call e.1 = false) calls).
Proof.
  destruct event as [sessionId|]; [|by left]. right.
  destruct (event_handler_idle client TITLE_PROMPT config sessionId st)
    as (ok & w & ->). cbn zeta.
  destruct (subagent_answer client sessionId (world st)).
  { exists sessionId, ok, []. split; [done|]. split; [done|]. by left. }
  destruct (negb _).
  { exists sessionId, ok, []. split; [done|]. split; [done|]. by left. }
  match goal with |- context [updateSessionTitle _ _ _ _ ?st1] =>
    destruct (pipeline_cases client TITLE_PROMPT config sessionId st1)
      as [_ [[_ Hquiet]|[_ Hupdate]]];
    destruct (updateSessionTitle client TITLE_PROMPT sessionId config st1)
      as [[r st2] t2]
  end; simpl in *.
  - exists sessionId, ok, t2. split; [done|]. split; [done|]. by left.
  - exists sessionId, ok, t2. split; [done|]. split; [done|]. by right.
Qed.

(** One idle notification of a session, whether or not it is a
    sub-session. *)
Lemma idle_step config sessionId (st : State) :
  let run := event_handler client TITLE_PROMPT config (SessionIdle sessionId) st in
  let n := count_or_zero (sessionIdleCount st) sessionId + 1 in
  if subagent_answer client sessionId (world st)
  then sessionIdleCount run.1.2 = sessionIdleCount st
       ∧ pipeline_runs sessionId run.2 = 0%nat
  else sessionIdleCount run.1.2 = <[sessionId := n]> (sessionIdleCount st)
       ∧ pipeline_runs sessionId run.2
         = if Z.rem n (cfg_updateThreshold config) =? 0 then 1%nat else 0%nat.
Proof.
  cbn zeta.
  pose proof (event_handler_counts client TITLE_PROMPT config
                (SessionIdle sessionId) st) as Hcounts.
  destruct (event_handler_idle client TITLE_PROMPT config sessionId st)
    as (ok & w & Hrun).
  cbn zeta in Hrun. unfold counts_after in Hcounts.
  destruct (subagent_answer client sessionId (world st)).
  - split; [done|]. by rewrite Hrun.
  - split; [done|]. rewrite Hrun.
    destruct (Z.rem _ _ =? 0); simpl; [|done].
    match goal with |- context [updateSessionTitle _ _ _ _ ?st1] =>
      pose proof (updateSessionTitle_runs client TITLE_PROMPT sessionId config st1)
        as Hruns;
      destruct (updateSessionTitle client TITLE_PROMPT sessionId config st1)
        as [[r st2] t2]
    end.
    simpl in *. by rewrite pipeline_runs_skip.
Qed.

Lemma handle_all_cons_trace config event events (st : State) :
  (handle_all client TITLE_PROMPT config (event :: events) st).2
  = (event_handler client TITLE_PROMPT config event st).2
    ++ (handle_all client TITLE_PROMPT config events
          (event_handler client TITLE_PROMPT config event st).1.2).2.
Proof.
  cbn [handle_all]. rewrite run_bind.
  destruct (never_throws_event_handler client TITLE_PROMPT config event st)
    as [[] Hr].
  destruct (event_handler _ _ _ _ _) as [[r st1] t1]. simpl in Hr. subst r.
  by destruct (handle_all _ _ _ _ _) as [[r st2] t2].
Qed.

Lemma pipeline_runs_app sessionId (t1 t2 : list (Call Handle * bool)) :
  pipeline_runs sessionId (t1 ++ t2)
  = (pipeline_runs sessionId t1 + pipeline_runs sessionId t2)%nat.
Proof. unfold pipeline_runs. by rewrite filter_app, length_app. Qed.

End CoordinatorFacts.

(** X21. Whatever the collaborators answer, a title sent to the host is
    well-formed and goes to the session that became idle: the handler makes
    at most one title update per event, only for an idle notification, for
    that session, and with a title that is not empty, at most 100 code
    units long, on one line and with nothing to trim. *)
Theorem event_handler_titles {World Handle} (client : Client World Handle)
    (TITLE_PROMPT : jsstring) (config : PluginConfig) (event : Event)
    (st : State World) :
  let t := (event_handler client TITLE_PROMPT config event st).2 in
  (length (filter (fun e => is_update_call e.1 = true) t) <= 1)%nat
  ∧ ∀ id title ok, (SessionUpdate id title, ok) ∈ t ->
      event = SessionIdle id
      ∧ title ≠ [] ∧ len title <= 100 ∧ (LF ∉ title) ∧ trim title = title.
Proof.
  cbn zeta.
  assert (∀ t : list (Call Handle * bool),
            Forall (fun e => is_update_call e.1 = false) t ->
            filter (fun e => is_update_call e.1 = true) t = []) as Hquiet.
  { intros t Ht. induction Ht as [|e t He _ IH]; [done|].
    rewrite filter_cons_False by congruence. done. }
  destruct (event_handler_updates client TITLE_PROMPT config event st)
    as [->|(sessionId & ok & t & -> & -> & [Ht|(calls & raw & ok' & -> & Hc)])].
  - split; [simpl; lia|]. by intros id title ok' ?%not_elem_of_nil.
  - split.
    + rewrite filter_cons_False by done. rewrite Hquiet by done. simpl. lia.
    + intros id title ok' [[=]|Hin]%elem_of_cons.
      apply (proj1 (Forall_forall _ _) Ht) in Hin. done.
  - split.
    + rewrite filter_cons_False by done.
      rewrite filter_app, Hquiet by done. simpl. lia.
    + intros id title ok'' [[=]|[Hin|Hin]%elem_of_app]%elem_of_cons.
      * apply (proj1 (Forall_forall _ _) Hc) in Hin. done.
      * apply list_elem_of_singleton in Hin. injection Hin as -> -> _.
        split; [done|]. apply cleanTitle_shape.
Qed.

Lemma event_handler_titles_witness :
  lit "Fixing bug" ≠ [] ∧ len (lit "Fixing bug") <= 100.
Proof.
  destruct (event_handler_titles (working_client None) [] (example_config 1)
              (SessionIdle (lit "ses_1")) fresh_state) as [_ H].
  destruct (H (lit "ses_1") (lit "Fixing bug") true) as (_ & H1 & H2 & _).
  - apply list_elem_of_In. vm_compute. tauto.
  - split; [exact H1|exact H2].
Defined.

(** The calls of the notice and the generation. *)
Lemma notify_generate_trace {World Handle} (client : Client World Handle)
    (TITLE_PROMPT context : jsstring) (selected : ModelSelectionResult Handle)
    (st : State World) :
  ∃ generated,
    ((notify_fallback client selected;;
      generate client TITLE_PROMPT selected context) st).2
    = match failedModel selected with
      | Some failed =>
          [(ShowToast (toast_message failed (modelInfo selected)),
            (showToast client (toast_message failed (modelInfo selected))
               (world st)).1)]
      | None => []
      end
      ++ [(GenerateText (model selected) (title_request TITLE_PROMPT context),
           generated)].
Proof.
  rewrite run_bind. unfold notify_fallback, generate.
  destruct (failedModel selected) as [failed|].
  - rewrite run_try_catch. unfold await_unit, await.
    destruct (showToast client _ (world st)) as [[] w2]; simpl;
      destruct (generateText client _ _ w2) as [[text|] w3]; simpl; by eexists.
  - simpl. unfold await.
    destruct (generateText client _ _ (world st)) as [[text|] w3]; simpl;
      by eexists.
Qed.

(** The calls of a generation whose selection returned. *)
Lemma generateTitleFromContext_trace {World Handle}
    (client : Client World Handle) (TITLE_PROMPT context : jsstring)
    (configModel : option jsstring) (st : State World) :
  let selection := selectModel client configModel st in
  (generateTitleFromContext client TITLE_PROMPT context configModel st).2
  = match selection.1.1 with
    | inl _ => selection.2
    | inr selected =>
        selection.2
        ++ ((notify_fallback client selected;;
             generate client TITLE_PROMPT selected context) selection.1.2).2
    end.
Proof.
  cbn zeta. rewrite generateTitleFromContext_run.
  destruct (selectModel client configModel st) as [[[e|selected] st1] t1];
    [done|]. cbn [fst snd].
  by destruct ((notify_fallback client selected;;
                generate client TITLE_PROMPT selected context) st1)
    as [[[e|[raw|]] st2] t2].
Qed.

(** X22. The fallback notice is shown exactly when the selection returned
    a result with a failed model. It is then shown once, right after the
    calls of the selection; the model it names as failed is the configured
    one, which was well-formed and whose resolution failed, and the model
    it names as used is the one the selection returned, from the fallback.
    Whether showing it works or not, the generation goes on: the next and
    last call is the generation with the model the selection returned. *)
Theorem fallback_toast {World Handle} (client : Client World Handle)
    (TITLE_PROMPT context : jsstring) (configModel : option jsstring)
    (st : State World) :
  let run := generateTitleFromContext client TITLE_PROMPT context configModel st in
  let selection := selectModel client configModel st in
  (∀ message ok,
     (ShowToast message, ok) ∈ run.2 ->
     ∃ ref selected generated,
       selection.1.1 = inr selected
       ∧ source selected = fallback
       ∧ failedModel selected = Some ref
       ∧ configured_ref configModel = Some ref
       ∧ (getLanguageModel client (providerID ref) (modelID ref) (world st)).1
         = None
       ∧ message = toast_message ref (modelInfo selected)
       ∧ ok = (showToast client message (world selection.1.2)).1
       ∧ run.2
         = selection.2
           ++ [(ShowToast message, ok);
               (GenerateText (model selected)
                  (title_request TITLE_PROMPT context), generated)])
  ∧ (∀ selected failed,
       selection.1.1 = inr selected ->
       failedModel selected = Some failed ->
       ∃ ok, (ShowToast (toast_message failed (modelInfo selected)), ok) ∈ run.2).
Proof.
  cbn zeta. rewrite generateTitleFromContext_trace. cbn zeta.
  pose proof (only_selectModel client
                (fun c => ∀ message, c ≠ ShowToast message) configModel
                ltac:(done) ltac:(done) st) as Hsel.
  pose proof (selectModel_result client configModel st) as Hres.
  destruct (selectModel client configModel st) as [[[e|selected] st1] t1];
    cbn [fst snd] in *.
  { split; [|done]. intros message ok Hin.
    by pose proof (proj1 (Forall_forall _ _) Hsel _ Hin message). }
  specialize (Hres selected eq_refl).
  destruct (notify_generate_trace client TITLE_PROMPT context selected st1)
    as [generated ->].
  split.
  - intros message ok [Hin|Hin]%elem_of_app.
    { by pose proof (proj1 (Forall_forall _ _) Hsel _ Hin message). }
    destruct (failedModel selected) as [failed|] eqn:Efailed.
    + destruct Hres as [(_ & Hnone & _)|(Hsrc & Hcfg & Hfail)]; [congruence|].
      cbn [app] in Hin.
      apply elem_of_cons in Hin as [Hin|Hin].
      * injection Hin as -> ->.
        exists failed, selected, generated.
        split; [done|]. split; [done|]. split; [done|].
        split; [by rewrite <- Hcfg|].
        split; [by apply Hfail; rewrite <- Hcfg|]. done.
      * apply list_elem_of_singleton in Hin. discriminate Hin.
    + cbn [app] in Hin. apply list_elem_of_singleton in Hin. discriminate Hin.
  - intros selected' failed [= <-] ->. eexists.
    apply elem_of_app. right. cbn [app]. by left.
Qed.

Lemma fallback_toast_witness :
  let client :=
    scripted_client [lit "anthropic"]
      (fun p _ _ => bool_decide (p = lit "anthropic")) None None
      (Some (Some (lit "Title"))) in
  ∃ selected generated,
    (selectModel client (Some (lit "openai/gpt-5-mini")) fresh_state).1.1
    = inr selected
    ∧ (generateTitleFromContext client [] [] (Some (lit "openai/gpt-5-mini"))
         fresh_state).2
      = (selectModel client (Some (lit "openai/gpt-5-mini")) fresh_state).2
        ++ [(ShowToast
               (lit "openai/gpt-5-mini failed" ++ LF
                  :: lit "Using anthropic/claude-haiku-4-5"), true);
            (GenerateText (model selected) (title_request [] []), generated)].
Proof.
  cbn zeta.
  destruct (fallback_toast
              (scripted_client [lit "anthropic"]
                 (fun p _ _ => bool_decide (p = lit "anthropic")) None None
                 (Some (Some (lit "Title"))))
              [] [] (Some (lit "openai/gpt-5-mini")) fresh_state) as [H _].
  destruct (H (lit "openai/gpt-5-mini failed" ++ LF
                 :: lit "Using anthropic/claude-haiku-4-5") true)
    as (ref & selected & generated & Hsel & _ & _ & _ & _ & _ & _ & Hrun).
  - apply list_elem_of_In. vm_compute. tauto.
  - by exists selected, generated.
Defined.

(** X23. The table of idle counts is never pruned and its counts stay
    positive: over any sequence of events, every session that has an entry
    keeps one, and when all counts were positive before they all are
    after. *)
Theorem counters_kept {World Handle} (client : Client World Handle)
    (TITLE_PROMPT : jsstring) (config : PluginConfig) (events : list Event)
    (st : State World) :
  let after := sessionIdleCount
                 (handle_all client TITLE_PROMPT config events st).1.2 in
  dom (sessionIdleCount st) ⊆ dom after
  ∧ ((∀ id n, sessionIdleCount st !! id = Some n -> 0 < n) ->
     ∀ id n, after !! id = Some n -> 0 < n).
Proof.
  cbn zeta. revert st. induction events as [|event events IH]; intros st.
  - split; [done|]. done.
  - rewrite handle_all_cons.
    destruct (IH (event_handler client TITLE_PROMPT config event st).1.2)
      as [IHdom IHpos].
    pose proof (event_handler_counts client TITLE_PROMPT config event st) as Hc.
    unfold counts_after in Hc. split.
    + etrans; [|exact IHdom]. rewrite Hc.
      destruct event as [sessionId|]; [|done].
      destruct (subagent_answer client sessionId (world st)); [done|].
      rewrite dom_insert_L. apply union_subseteq_r.
    + intros Hpos. apply IHpos. rewrite Hc.
      destruct event as [sessionId|]; [|done].
      destruct (subagent_answer client sessionId (world st)); [done|].
      intros id n. destruct (decide (id = sessionId)) as [->|Hne].
      * rewrite lookup_insert_eq. intros [= <-]. unfold count_or_zero.
        destruct (sessionIdleCount st !! sessionId) as [c|] eqn:E; [|lia].
        specialize (Hpos _ _ E). lia.
      * rewrite lookup_insert_ne by done. apply Hpos.
Qed.

Lemma counters_kept_witness :
  match sessionIdleCount
          (handle_all (working_client None) [] (example_config 2)
             [SessionIdle (lit "ses_1"); SessionIdle (lit "ses_2");
              SessionIdle (lit "ses_1")] seen_state).1.2 !! lit "ses_2"
  with
  | Some n => 0 < n
  | None => True
  end.
Proof.
  destruct (_ !! lit "ses_2") as [n|] eqn:E; [|exact I].
  refine (proj2 (counters_kept (working_client None) [] (example_config 2)
                   [SessionIdle (lit "ses_1"); SessionIdle (lit "ses_2");
                    SessionIdle (lit "ses_1")] seen_state) _ _ _ E).
  intros id m H. cbn [seen_state sessionIdleCount] in H.
  apply lookup_singleton_Some in H as [_ <-]. lia.
Defined.

Lemma idle_quotient (c t : Z) :
  0 < t -> (c + 1) / t - c / t = if (c + 1) mod t =? 0 then 1 else 0.
Proof.
  intros Ht.
  pose proof (Z.div_mod c t ltac:(lia)) as Hc.
  pose proof (Z.mod_pos_bound c t Ht) as Hcb.
  pose proof (Z.div_mod (c + 1) t ltac:(lia)) as Hc1.
  pose proof (Z.mod_pos_bound (c + 1) t Ht) as Hc1b.
  destruct ((c + 1) mod t =? 0) eqn:E.
  - apply Z.eqb_eq in E. nia.
  - apply Z.eqb_neq in E. nia.
Qed.

(** X24. Over consecutive idle notifications of a session that is no
    sub-session, the pipeline runs once for every multiple of the threshold
    that the count passes: from a count [c], [n] notifications start
    [(c + n) / threshold - c / threshold] runs, so [n / threshold] runs for
    a session seen for the first time. *)
Theorem idle_runs {World Handle} (client : Client World Handle)
    (TITLE_PROMPT : jsstring) (config : PluginConfig) (sessionId : jsstring)
    (n : nat) (st : State World) :
  0 < cfg_updateThreshold config ->
  never_subagent client sessionId ->
  let c := count_or_zero (sessionIdleCount st) sessionId in
  Z.of_nat
    (pipeline_runs sessionId
       (handle_all client TITLE_PROMPT config
          (replicate n (SessionIdle sessionId)) st).2)
  = (c + Z.of_nat n) / cfg_updateThreshold config
    - c / cfg_updateThreshold config.
Proof.
  intros Hpos Hnever. cbn zeta. revert st.
  induction n as [|n IH]; intros st.
  - simpl. rewrite Z.add_0_r, Z.sub_diag. reflexivity.
  - cbn [replicate]. rewrite handle_all_cons_trace, pipeline_runs_app.
    rewrite Nat2Z.inj_add, IH.
    pose proof (idle_step client TITLE_PROMPT config sessionId st) as Hstep.
    cbn zeta in Hstep. rewrite Hnever in Hstep. destruct Hstep as [Hc Hruns].
    rewrite Hruns, Hc.
    assert (count_or_zero
              (<[sessionId := count_or_zero (sessionIdleCount st) sessionId + 1]>
                 (sessionIdleCount st)) sessionId
            = count_or_zero (sessionIdleCount st) sessionId + 1) as ->.
    { unfold count_or_zero at 1. by rewrite lookup_insert_eq. }
    rewrite rem_zero_mod_zero by done.
    pose proof (idle_quotient (count_or_zero (sessionIdleCount st) sessionId)
                  (cfg_updateThreshold config) Hpos) as Hq.
    destruct (_ mod _ =? 0); simpl Z.of_nat;
      replace (count_or_zero (sessionIdleCount st) sessionId + Z.of_nat (S n))
        with (count_or_zero (sessionIdleCount st) sessionId + 1 + Z.of_nat n)
        by lia; lia.
Qed.

Lemma idle_runs_witness :
  Z.of_nat
    (pipeline_runs (lit "ses_1")
       (handle_all (working_client None) [] (example_config 3)
          (replicate 7 (SessionIdle (lit "ses_1"))) fresh_state).2)
  = (0 + 7) / 3 - 0 / 3.
Proof.
  apply (idle_runs (working_client None) [] (example_config 3) (lit "ses_1") 7
           fresh_state).
  - reflexivity.
  - intros w. reflexivity.
Defined.

(** X25. A threshold of 0 switches the title updates off: the remainder by
    0 is never 0 for a positive count, so however many idle notifications
    a session gets, the pipeline never runs. *)
Theorem threshold_zero {World Handle} (client : Client World Handle)
    (TITLE_PROMPT : jsstring) (config : PluginConfig) (sessionId : jsstring)
    (n : nat) (st : State World) :
  cfg_updateThreshold config = 0 ->
  0 <= count_or_zero (sessionIdleCount st) sessionId ->
  pipeline_runs sessionId
    (handle_all client TITLE_PROMPT config
       (replicate n (SessionIdle sessionId)) st).2 = 0%nat.
Proof.
  intros Hzero. revert st. induction n as [|n IH]; intros st Hc; [done|].
  cbn [replicate]. rewrite handle_all_cons_trace, pipeline_runs_app.
  pose proof (idle_step client TITLE_PROMPT config sessionId st) as Hstep.
  cbn zeta in Hstep.
  destruct (subagent_answer client sessionId (world st)).
  - destruct Hstep as [Hcounts ->]. rewrite IH; [done|]. by rewrite Hcounts.
  - destruct Hstep as [Hcounts ->]. rewrite Hzero, IH.
    + rewrite Z.rem_0_r_ext by done.
      destruct (_ =? 0) eqn:E; [apply Z.eqb_eq in E; lia|done].
    + rewrite Hcounts. unfold count_or_zero at 1. rewrite lookup_insert_eq. lia.
Qed.

Lemma threshold_zero_witness :
  pipeline_runs (lit "ses_1")
    (handle_all (working_client None) [] (example_config 0)
       (replicate 4 (SessionIdle (lit "ses_1"))) fresh_state).2 = 0%nat.
Proof.
  apply (threshold_zero (working_client None) [] (example_config 0)
           (lit "ses_1") 4 fresh_state).
  - reflexivity.
  - vm_compute. discriminate.
Defined.

(** X26. A parent lookup that fails counts as "no parent": the idle
    notification is handled like that of a main session and the count goes
    up by one. When the lookup reports a parent, the lookup is the only
    call the handler makes. *)
Theorem parent_lookup {World Handle} (client : Client World Handle)
    (TITLE_PROMPT : jsstring) (config : PluginConfig) (sessionId : jsstring)
    (st : State World) :
  let run := event_handler client TITLE_PROMPT config (SessionIdle sessionId) st in
  ((session_get client sessionId (world st)).1 = None ->
   sessionIdleCount run.1.2 !! sessionId
   = Some (count_or_zero (sessionIdleCount st) sessionId + 1))
  ∧ (∀ parent, (session_get client sessionId (world st)).1 = Some (Some parent) ->
               parent ≠ [] ->
               ∃ ok, run.2 = [(SessionGet sessionId, ok)]).
Proof.
  cbn zeta. split.
  - intros Hfail.
    rewrite event_handler_counts. unfold counts_after, subagent_answer.
    rewrite Hfail. apply lookup_insert_eq.
  - intros parent Hparent Hne.
    destruct (event_handler_idle client TITLE_PROMPT config sessionId st)
      as (ok & w & ->). cbn zeta.
    unfold subagent_answer. rewrite Hparent.
    destruct parent; [done|]. by exists ok.
Qed.

Lemma parent_lookup_witness :
  sessionIdleCount
    (event_handler lookup_failing_client [] (example_config 5)
       (SessionIdle (lit "ses_1")) seen_state).1.2 !! lit "ses_1"
  = Some (2 + 1)
  ∧ ∃ ok,
      (event_handler (working_client (Some (lit "ses_parent"))) []
         (example_config 1) (SessionIdle (lit "ses_child")) fresh_state).2
      = [(SessionGet (lit "ses_child"), ok)].
Proof.
  split.
  - apply (parent_lookup lookup_failing_client [] (example_config 5)
             (lit "ses_1") seen_state). reflexivity.
  - destruct (parent_lookup (working_client (Some (lit "ses_parent"))) []
                (example_config 1) (lit "ses_child") fresh_state) as [_ H].
    apply (H (lit "ses_parent")); [reflexivity|discriminate].
Defined.
